(** * maze_sdl2.c: the grid, the backtracking generator, movement and the
      session, embedded from the C source and verified.

    C [int] values are modelled as [Z].  The coordinates and deltas that
    the program itself passes around are grid indices and unit steps, far
    below [INT_MAX], so no [int] operation of a run overflows.  A signed
    overflow is undefined behaviour in C: a property of a function called
    with arbitrary arguments is stated for the arguments in the range where
    the additions of the function do not overflow ([is_int] below).
    The wall mask is a [uint8_t]; its compound assignments are written
    with the truncation to 8 bits spelled out.  The static array
    [g[MAZE_H][MAZE_W]] is a list of rows; an access outside the array is
    undefined behaviour in C and is modelled as a fault ([None]). *)

From Stdlib Require Import ZArith Lia.
From stdpp Require Import base option list numbers relations strings.

Local Open Scope Z_scope.

(** * Part I: the program

    ** Constants of the source *)

Definition MAZE_W : Z := 21.
Definition MAZE_H : Z := 15.

Definition WALL_N : Z := 1.
Definition WALL_E : Z := 2.
Definition WALL_S : Z := 4.
Definition WALL_W : Z := 8.

(** ** The grid *)

Record Cell := mkCell { walls : Z; visited : bool }.

(** [g[y][x]] is element [x] of row [y]. *)
Abbreviation Grid := (list (list Cell)).

Definition in_bounds (x y : Z) : bool :=
  (x >=? 0) && (x <? MAZE_W) && (y >=? 0) && (y <? MAZE_H).

(** Reading [g[y][x]]: a fault when the indices leave the array. *)
Definition rd (g : Grid) (x y : Z) : option Cell :=
  if (0 <=? y) && (0 <=? x)
  then row ← g !! Z.to_nat y; row !! Z.to_nat x
  else None.

(** Writing [g[y][x] = c]: a fault when the indices leave the array. *)
Definition wr (g : Grid) (x y : Z) (c : Cell) : option Grid :=
  _ ← rd g x y;
  row ← g !! Z.to_nat y;
  Some (<[Z.to_nat y := <[Z.to_nat x := c]> row]> g).

(** A read-modify-write of one cell, as in [g[y][x].walls &= m]. *)
Definition upd (g : Grid) (x y : Z) (f : Cell → Cell) : option Grid :=
  c ← rd g x y; wr g x y (f c).

(** Conversion of an [int] result to [uint8_t]. *)
Definition u8 (z : Z) : Z := z mod 256.

(** [c.walls &= ~m] *)
Definition clear_bits (m : Z) (c : Cell) : Cell :=
  mkCell (u8 (Z.land (walls c) (Z.lnot m))) (visited c).

(** [c.visited = b] *)
Definition set_visited (b : bool) (c : Cell) : Cell :=
  mkCell (walls c) b.

(** [w & m] used as a C condition *)
Definition tst (w m : Z) : bool := negb (Z.land w m =? 0).

(** [knock_down(x, y, nx, ny)].  The program calls it on grid cells, for
    which the sums [y - 1], [x + 1], [y + 1], [x - 1] are exact; what is
    proved of it for other arguments assumes that these sums do not
    overflow. *)
Definition knock_down (g : Grid) (x y nx ny : Z) : option Grid :=
  if (nx =? x) && (ny =? y - 1) then
    g1 ← upd g x y (clear_bits WALL_N); upd g1 nx ny (clear_bits WALL_S)
  else if (nx =? x + 1) && (ny =? y) then
    g1 ← upd g x y (clear_bits WALL_E); upd g1 nx ny (clear_bits WALL_W)
  else if (nx =? x) && (ny =? y + 1) then
    g1 ← upd g x y (clear_bits WALL_S); upd g1 nx ny (clear_bits WALL_N)
  else if (nx =? x - 1) && (ny =? y) then
    g1 ← upd g x y (clear_bits WALL_W); upd g1 nx ny (clear_bits WALL_E)
  else Some g.

(** The two nested [for] loops over the whole array, applying [f] to
    every cell in row-major order. *)
Fixpoint for_x (n : nat) (x y : Z) (f : Cell → Cell) (g : Grid) : option Grid :=
  match n with
  | O => Some g
  | S n' => g' ← upd g x y f; for_x n' (x + 1) y f g'
  end.

Fixpoint for_y (n : nat) (y : Z) (f : Cell → Cell) (g : Grid) : option Grid :=
  match n with
  | O => Some g
  | S n' => g' ← for_x (Z.to_nat MAZE_W) 0 y f g; for_y n' (y + 1) f g'
  end.

Definition for_cells (f : Cell → Cell) (g : Grid) : option Grid :=
  for_y (Z.to_nat MAZE_H) 0 f g.

Definition maze_init (g : Grid) : option Grid :=
  for_cells (λ _, mkCell (Z.lor (Z.lor (Z.lor WALL_N WALL_E) WALL_S) WALL_W) false) g.

(** ** The generator *)

Record P := mkP { P_x : Z; P_y : Z }.

#[global] Instance P_eq_dec : EqDecision P.
Proof. solve_decision. Defined.

Definition dx : list Z := [0; 1; 0; -1].
Definition dy : list Z := [-1; 0; 1; 0].

(** The neighbour loop [for (i = 0; i < 4; i++)], started at index [i]
    with the neighbours collected so far. *)
Fixpoint collect (n : nat) (i : nat) (g : Grid) (x y : Z) (neigh : list P)
  : option (list P) :=
  match n with
  | O => Some neigh
  | S n' =>
    ddx ← dx !! i; ddy ← dy !! i;
    let nx := x + ddx in
    let ny := y + ddy in
    if in_bounds nx ny then
      c ← rd g nx ny;
      collect n' (S i) g x y (if negb (visited c) then neigh ++ [mkP nx ny] else neigh)
    else collect n' (S i) g x y neigh
  end.

(** [neigh[pick]] with an [int] index into a buffer holding [neigh]. *)
Definition at_index {A} (l : list A) (i : Z) : option A :=
  if 0 <=? i then l !! Z.to_nat i else None.

(** The state of [maze_generate]'s loop: the grid, the explicit stack
    (top of the stack first, so [top] is its length) and the number of
    calls made to [rand] so far. *)
Record GenState := mkGen { gs_grid : Grid; gs_stack : list P; gs_calls : nat }.

Definition top (s : GenState) : Z := Z.of_nat (length (gs_stack s)).

(** [stack[top++] = p]: the buffer holds [MAZE_W * MAZE_H] entries. *)
Definition push (p : P) (stack : list P) : option (list P) :=
  if Z.of_nat (length stack) <? MAZE_W * MAZE_H then Some (p :: stack) else None.

Section Generator.
(** The stream of values that successive calls of [rand()] return. *)
Variable rand : nat → Z.

(** One iteration of the [while (top > 0)] loop. *)
Definition gen_body (s : GenState) : option GenState :=
  match gs_stack s with
  | [] => None
  | cur :: rest =>
    let x := P_x cur in
    let y := P_y cur in
    neigh ← collect 4 0 (gs_grid s) x y [];
    let ncount := Z.of_nat (length neigh) in
    if ncount =? 0 then Some (mkGen (gs_grid s) rest (gs_calls s))
    else
      let pick := Z.rem (rand (gs_calls s)) ncount in
      n ← at_index neigh pick;
      let nx := P_x n in
      let ny := P_y n in
      g1 ← knock_down (gs_grid s) x y nx ny;
      g2 ← upd g1 nx ny (set_visited true);
      st ← push (mkP nx ny) (gs_stack s);
      Some (mkGen g2 st (S (gs_calls s)))
  end.

(** The loop, with a bound on the number of iterations. *)
Fixpoint gen_loop (fuel : nat) (s : GenState) : option GenState :=
  match gs_stack s with
  | [] => Some s
  | _ :: _ =>
    match fuel with
    | O => None
    | S fuel' => s' ← gen_body s; gen_loop fuel' s'
    end
  end.

(** The state on entry to the loop. *)
Definition gen_start (calls : nat) (g : Grid) (sx sy : Z) : option GenState :=
  g1 ← upd g sx sy (set_visited true);
  st ← push (mkP sx sy) [];
  Some (mkGen g1 st calls).

(** The state after [n] iterations of the loop (it stays put once the
    stack is empty). *)
Fixpoint gen_iter (n : nat) (s : GenState) : option GenState :=
  match n with
  | O => Some s
  | S n' =>
    match gs_stack s with
    | [] => Some s
    | _ :: _ => s' ← gen_body s; gen_iter n' s'
    end
  end.

(** [maze_generate(sx, sy)]: returns the grid and the number of calls
    made to [rand]. *)
Definition maze_generate (fuel : nat) (calls : nat) (g : Grid) (sx sy : Z)
  : option (Grid * nat) :=
  s0 ← gen_start calls g sx sy;
  s ← gen_loop fuel s0;
  g' ← for_cells (set_visited false) (gs_grid s);
  Some (g', gs_calls s).
End Generator.

(** Iterations that always suffice: every iteration either visits a new
    cell or pops the stack. *)
Definition gen_fuel : nat := Z.to_nat (2 * MAZE_W * MAZE_H).

(** ** Movement *)

(** [try_move(&px, &py, dx, dy)]: the new player position and the
    returned flag.  The program calls it with unit deltas from a grid
    cell, for which the sums [x + dx] and [y + dy] are exact; what is
    proved of it for other deltas assumes that these sums do not
    overflow. *)
Definition try_move (g : Grid) (px py ddx ddy : Z) : option (Z * Z * bool) :=
  let x := px in
  let y := py in
  let nx := x + ddx in
  let ny := y + ddy in
  if negb (in_bounds nx ny) then Some (px, py, false)
  else
    c ← rd g x y;
    let w := walls c in
    if (ddx =? 0) && (ddy =? -1) && tst w WALL_N then Some (px, py, false)
    else if (ddx =? 1) && (ddy =? 0) && tst w WALL_E then Some (px, py, false)
    else if (ddx =? 0) && (ddy =? 1) && tst w WALL_S then Some (px, py, false)
    else if (ddx =? -1) && (ddy =? 0) && tst w WALL_W then Some (px, py, false)
    else Some (nx, ny, true).

(** ** The session: the event handling of [main] *)

Inductive Key :=
  | SDLK_ESCAPE | SDLK_r
  | SDLK_UP | SDLK_w | SDLK_RIGHT | SDLK_d
  | SDLK_DOWN | SDLK_s | SDLK_LEFT | SDLK_a
  | SDLK_other.

#[global] Instance Key_eq_dec : EqDecision Key.
Proof. solve_decision. Defined.

Inductive Event := SDL_QUIT | SDL_KEYDOWN (k : Key) | SDL_OTHER.

Definition title_playing : string :=
  "SDL2 Maze - Reach the green goal (R to regenerate)".
Definition title_won : string :=
  "You win! Press R to regenerate, Esc to quit".

(** The global grid, the locals [px], [py], [running], [won] of [main],
    the window title, and the number of calls made to [rand]. *)
Record Session := mkSession {
  s_grid : Grid;
  s_px : Z;
  s_py : Z;
  s_running : bool;
  s_won : bool;
  s_title : string;
  s_calls : nat
}.

Definition set_running (b : bool) (st : Session) : Session :=
  mkSession (s_grid st) (s_px st) (s_py st) b (s_won st) (s_title st) (s_calls st).

Definition set_won (b : bool) (st : Session) : Session :=
  mkSession (s_grid st) (s_px st) (s_py st) (s_running st) b (s_title st) (s_calls st).

Definition set_title (t : string) (st : Session) : Session :=
  mkSession (s_grid st) (s_px st) (s_py st) (s_running st) (s_won st) t (s_calls st).

Definition set_player (x y : Z) (st : Session) : Session :=
  mkSession (s_grid st) x y (s_running st) (s_won st) (s_title st) (s_calls st).

(** [try_move(&px, &py, dx, dy);] with the result discarded. *)
Definition move_player (ddx ddy : Z) (st : Session) : option Session :=
  r ← try_move (s_grid st) (s_px st) (s_py st) ddx ddy;
  Some (set_player r.1.1 r.1.2 st).

Section SessionModel.
Variable rand : nat → Z.

Definition regenerate (st : Session) : option Session :=
  g0 ← maze_init (s_grid st);
  r ← maze_generate rand gen_fuel (s_calls st) g0 0 0;
  Some (mkSession r.1 0 0 (s_running st) (s_won st) title_playing r.2).

(** The body of the [SDL_KEYDOWN] branch. *)
Definition on_keydown (k : Key) (st : Session) : option Session :=
  let st := if decide (k = SDLK_ESCAPE) then set_running false st else st in
  st ← (if decide (k = SDLK_r)
        then st' ← regenerate st; Some (set_won false st')
        else Some st);
  if negb (s_won st) then
    st ← (if decide (k = SDLK_UP ∨ k = SDLK_w) then move_player 0 (-1) st else Some st);
    st ← (if decide (k = SDLK_RIGHT ∨ k = SDLK_d) then move_player 1 0 st else Some st);
    st ← (if decide (k = SDLK_DOWN ∨ k = SDLK_s) then move_player 0 1 st else Some st);
    st ← (if decide (k = SDLK_LEFT ∨ k = SDLK_a) then move_player (-1) 0 st else Some st);
    if (s_px st =? MAZE_W - 1) && (s_py st =? MAZE_H - 1)
    then Some (set_title title_won (set_won true st))
    else Some st
  else Some st.

(** One event of the [SDL_PollEvent] loop. *)
Definition on_event (e : Event) (st : Session) : option Session :=
  match e with
  | SDL_QUIT => Some (set_running false st)
  | SDL_KEYDOWN k => on_keydown k st
  | SDL_OTHER => Some st
  end.

Fixpoint run_events (es : list Event) (st : Session) : option Session :=
  match es with
  | [] => Some st
  | e :: es' => st' ← on_event e st; run_events es' st'
  end.

(** [main] up to the first iteration of its loop. *)
Definition main_start (g : Grid) (calls : nat) : option Session :=
  st ← regenerate (mkSession g 0 0 true false title_playing calls);
  Some (set_won false (set_running true st)).
End SessionModel.

(** ** Rendering *)

Definition CELL : Z := 32.
Definition PAD : Z := 16.

(** The calls that the program makes to SDL and to the C library, in the
    order in which it makes them.  Window, renderer and stream arguments
    are left out: there is one of each.  Three calls are modelled by other
    means: [rand] is the stream of its results, [SDL_PollEvent] is the
    list of the events it delivers, and [SDL_SetWindowTitle] is the field
    [s_title] of the session. *)
Inductive Call :=
  | SDL_SetRenderDrawColor (r g b a : Z)
  | SDL_RenderClear
  | SDL_RenderDrawLine (x0 y0 x1 y1 : Z)
  | SDL_RenderFillRect (x y w h : Z)
  | SDL_RenderPresent
  | srand_time
  | SDL_Init
  | fprintf_stderr (fmt : string)
  | SDL_Quit
  | SDL_CreateWindow (title : string) (w h : Z)
  | SDL_CreateRenderer
  | SDL_DestroyRenderer
  | SDL_DestroyWindow.

#[global] Instance Call_eq_dec : EqDecision Call.
Proof. solve_decision. Defined.

(** The body of the inner loop of [draw_maze] for the cell [(x,y)]. *)
Definition draw_cell (g : Grid) (x y : Z) : option (list Call) :=
  let ox := PAD in
  let oy := PAD in
  let x0 := ox + x * CELL in
  let y0 := oy + y * CELL in
  let x1 := x0 + CELL in
  let y1 := y0 + CELL in
  c ← rd g x y;
  let w := walls c in
  Some ((if tst w WALL_N then [SDL_RenderDrawLine x0 y0 x1 y0] else [])
        ++ (if tst w WALL_E then [SDL_RenderDrawLine x1 y0 x1 y1] else [])
        ++ (if tst w WALL_S then [SDL_RenderDrawLine x0 y1 x1 y1] else [])
        ++ (if tst w WALL_W then [SDL_RenderDrawLine x0 y0 x0 y1] else [])).

Fixpoint draw_x (n : nat) (x y : Z) (g : Grid) : option (list Call) :=
  match n with
  | O => Some []
  | S n' => l ← draw_cell g x y; ls ← draw_x n' (x + 1) y g; Some (l ++ ls)
  end.

Fixpoint draw_y (n : nat) (y : Z) (g : Grid) : option (list Call) :=
  match n with
  | O => Some []
  | S n' => l ← draw_x (Z.to_nat MAZE_W) 0 y g; ls ← draw_y n' (y + 1) g; Some (l ++ ls)
  end.

Definition draw_maze (g : Grid) : option (list Call) :=
  ls ← draw_y (Z.to_nat MAZE_H) 0 g;
  Some ([SDL_SetRenderDrawColor 15 15 18 255; SDL_RenderClear;
         SDL_SetRenderDrawColor 230 230 230 255] ++ ls).

Definition draw_player_goal (px py : Z) : list Call :=
  let ox := PAD in
  let oy := PAD in
  [SDL_SetRenderDrawColor 40 160 70 255;
   SDL_RenderFillRect (ox + (MAZE_W - 1) * CELL + 6) (oy + (MAZE_H - 1) * CELL + 6)
                      (CELL - 12) (CELL - 12);
   SDL_SetRenderDrawColor 220 60 70 255;
   SDL_RenderFillRect (ox + px * CELL + 8) (oy + py * CELL + 8)
                      (CELL - 16) (CELL - 16)].

(** ** [main] *)

(** How a run of [main] ends: it returns an exit code, or it is still in
    its loop when the events given to the model run out, or it faults. *)
Inductive Outcome :=
  | Exit (code : Z) (tr : list Call)
  | Pending (tr : list Call)
  | Fault.

(** The line feed that ends the format strings of [main]. *)
Definition LF : string := String (Ascii.ascii_of_nat 10) EmptyString.

Definition win_w : Z := PAD * 2 + MAZE_W * CELL.
Definition win_h : Z := PAD * 2 + MAZE_H * CELL.

Section MainModel.
Variable rand : nat → Z.

(** One iteration of [while (running)]: the events that [SDL_PollEvent]
    delivers before it returns 0, then the drawing of one frame. *)
Definition frame (es : list Event) (st : Session) : option (Session * list Call) :=
  st' ← run_events rand es st;
  dm ← draw_maze (s_grid st');
  Some (st', dm ++ draw_player_goal (s_px st') (s_py st') ++ [SDL_RenderPresent]).

(** The loop of [main] and the code after it; [batches] holds the events
    of the successive iterations, [tr] the calls made so far. *)
Fixpoint main_loop (batches : list (list Event)) (st : Session) (tr : list Call)
  : Outcome :=
  if s_running st then
    match batches with
    | [] => Pending tr
    | es :: batches' =>
      match frame es st with
      | None => Fault
      | Some (st', calls) => main_loop batches' st' (tr ++ calls)
      end
    end
  else Exit 0 (tr ++ [SDL_DestroyRenderer; SDL_DestroyWindow; SDL_Quit]).

(** [main]; the three booleans tell whether [SDL_Init],
    [SDL_CreateWindow] and [SDL_CreateRenderer] succeed. *)
Definition main (init_ok win_ok ren_ok : bool) (g : Grid)
    (batches : list (list Event)) : Outcome :=
  let tr := [srand_time; SDL_Init] in
  if negb init_ok then
    Exit 1 (tr ++ [fprintf_stderr ("SDL_Init failed: %s" +:+ LF)])
  else
    let tr := tr ++ [SDL_CreateWindow title_playing win_w win_h] in
    if negb win_ok then
      Exit 1 (tr ++ [fprintf_stderr ("SDL_CreateWindow failed: %s" +:+ LF); SDL_Quit])
    else
      let tr := tr ++ [SDL_CreateRenderer] in
      if negb ren_ok then
        Exit 1 (tr ++ [fprintf_stderr ("SDL_CreateRenderer failed: %s" +:+ LF);
                       SDL_DestroyWindow; SDL_Quit])
      else
        match main_start rand g 0 with
        | None => Fault
        | Some st => main_loop batches st tr
        end.
End MainModel.

(** * Part II: the vocabulary of the specification

    ** Shapes and cells *)

(** The shape of the static array [Cell g[MAZE_H][MAZE_W]]. *)
Definition wf_grid (g : Grid) : bool :=
  (length g =? Z.to_nat MAZE_H)%nat
  && forallb (λ row : list Cell, (length row =? Z.to_nat MAZE_W)%nat) g.

(** [in_bounds] and the array read, on cells. *)
Definition inb (p : P) : bool := in_bounds (P_x p) (P_y p).

Definition cell (g : Grid) (p : P) : option Cell := rd g (P_x p) (P_y p).

(** ** The range of [int] *)

Definition INT_MIN : Z := -2147483648.
Definition INT_MAX : Z := 2147483647.

(** The value is representable as an [int]: computing it does not
    overflow. *)
Definition is_int (z : Z) : Prop := INT_MIN ≤ z ≤ INT_MAX.

(** ** Directions, walls and passages *)

Inductive Dir := DN | DE | DS | DW.

#[global] Instance Dir_eq_dec : EqDecision Dir.
Proof. solve_decision. Defined.

Definition dirs : list Dir := [DN; DE; DS; DW].

(** The wall bit of a direction. *)
Definition dbit (d : Dir) : Z :=
  match d with DN => WALL_N | DE => WALL_E | DS => WALL_S | DW => WALL_W end.

(** The unit step of a direction; [y] grows downwards. *)
Definition dvx (d : Dir) : Z :=
  match d with DN => 0 | DE => 1 | DS => 0 | DW => -1 end.

Definition dvy (d : Dir) : Z :=
  match d with DN => -1 | DE => 0 | DS => 1 | DW => 0 end.

Definition dopp (d : Dir) : Dir :=
  match d with DN => DS | DE => DW | DS => DN | DW => DE end.

Definition step (p : P) (d : Dir) : P := mkP (P_x p + dvx d) (P_y p + dvy d).

(** The wall of cell [p] on side [d] is present. *)
Definition wall (g : Grid) (p : P) (d : Dir) : bool :=
  match cell g p with
  | Some c => tst (walls c) (dbit d)
  | None => true
  end.

Definition vis (g : Grid) (p : P) : bool :=
  match cell g p with
  | Some c => visited c
  | None => false
  end.

(** [b] is a 4-neighbour of [a] and the wall of [a] towards [b] is gone. *)
Definition passage (g : Grid) (a b : P) : Prop :=
  inb a = true ∧ inb b = true ∧ ∃ d, b = step a d ∧ wall g a d = false.

(** The wall-reciprocity invariant. *)
Definition reciprocal (g : Grid) : Prop :=
  ∀ a d, inb a = true → inb (step a d) = true →
         wall g a d = wall g (step a d) (dopp d).

(** The position of the wall bit of a direction. *)
Definition dk (d : Dir) : Z :=
  match d with DN => 0 | DE => 1 | DS => 2 | DW => 3 end.

(** ** Graphs: simple cycles, counting *)

(** A simple cycle of [R]: at least three distinct vertices, each linked
    to the next one, the last one to the first. *)
Definition is_cycle {A} (R : A → A → Prop) (c : list A) : Prop :=
  NoDup c ∧ (3 ≤ length c)%nat ∧
  ∀ i a b, c !! i = Some a → c !! ((i + 1) mod length c)%nat = Some b → R a b.

Definition acyclic {A} (R : A → A → Prop) : Prop := ∀ c, ¬ is_cycle R c.

(** Counting the elements that satisfy a boolean test. *)
Definition count {A} (f : A → bool) (l : list A) : nat := length (List.filter f l).

(** ** Cells, passages and the spanning-tree property *)

Definition all_cells : list P :=
  y ← seqZ 0 MAZE_H; x ← seqZ 0 MAZE_W; [mkP x y].

(** One slot per pair of 4-adjacent cells: the cell on the west or the
    north of the pair, with the side that faces the other cell. *)
Definition slots : list (P * Dir) :=
  p ← all_cells; d ← [DE; DS]; if inb (step p d) then [(p, d)] else [].

(** The number of passages: adjacent pairs whose shared wall is gone. *)
Definition passage_count (g : Grid) : nat :=
  count (λ e, negb (wall g e.1 e.2)) slots.

Definition vis_count (g : Grid) : nat := count (vis g) all_cells.

(** Every cell can be reached from [(0,0)] through passages. *)
Definition connected (g : Grid) : Prop :=
  ∀ p, inb p = true → rtc (passage g) (mkP 0 0) p.

Definition spanning_tree (g : Grid) : Prop :=
  connected g ∧ acyclic (passage g) ∧
  Z.of_nat (passage_count g) = MAZE_W * MAZE_H - 1.

(** Unvisited cells still have their four walls. *)
Definition fresh (g : Grid) : Prop :=
  ∀ q d, inb q = true → vis g q = false → wall g q d = true.

(** The in-bounds unvisited 4-neighbours of [p], in the order N, E, S, W. *)
Definition unvisited_neighbours (g : Grid) (p : P) : list P :=
  step p <$> List.filter (λ d, inb (step p d) && negb (vis g (step p d))) dirs.

(** ** The loop invariant of [maze_generate] *)

(** [p0] is the start cell.  Visited cells form a tree of passages rooted
    at [p0]; the stack holds distinct visited cells; a visited cell that
    has left the stack has no unvisited neighbour. *)
Record gen_inv (p0 : P) (s : GenState) : Prop := mk_gen_inv {
  inv_wf : wf_grid (gs_grid s) = true;
  inv_recip : reciprocal (gs_grid s);
  inv_fresh : fresh (gs_grid s);
  inv_reach : ∀ q, vis (gs_grid s) q = true → rtc (passage (gs_grid s)) p0 q;
  inv_acyclic : acyclic (passage (gs_grid s));
  inv_count : S (passage_count (gs_grid s)) = vis_count (gs_grid s);
  inv_stack : ∀ q, q ∈ gs_stack s → vis (gs_grid s) q = true;
  inv_nodup : NoDup (gs_stack s);
  inv_done : ∀ q d, vis (gs_grid s) q = true → q ∉ gs_stack s →
                    inb (step q d) = true → vis (gs_grid s) (step q d) = true;
  inv_start : vis (gs_grid s) p0 = true
}.

(** Twice the number of unvisited cells plus the stack depth: it drops
    by one in every iteration. *)
Definition measure (s : GenState) : nat :=
  2 * (length all_cells - vis_count (gs_grid s)) + length (gs_stack s).

(** [WALL_N | WALL_E | WALL_S | WALL_W] *)
Definition full_walls : Z := Z.lor (Z.lor (Z.lor WALL_N WALL_E) WALL_S) WALL_W.

(** The grid as [maze_init] leaves it. *)
Definition init_grid (g : Grid) : Prop :=
  wf_grid g = true ∧ ∀ q, inb q = true → cell g q = Some (mkCell full_walls false).

(** ** The session and its inputs *)

(** The two states of the session's state machine. *)
Inductive Phase := Playing | Won.

Definition phase (st : Session) : Phase := if s_won st then Won else Playing.

(** The arrow key of a direction. *)
Definition arrow (d : Dir) : Key :=
  match d with DN => SDLK_UP | DE => SDLK_RIGHT | DS => SDLK_DOWN | DW => SDLK_LEFT end.

(** A sequence of [try_move] calls; the flag tells whether every call
    returned [true]. *)
Fixpoint walk (g : Grid) (px py : Z) (ds : list (Z * Z)) : option (Z * Z * bool) :=
  match ds with
  | [] => Some (px, py, true)
  | (ddx, ddy) :: ds' =>
    r ← try_move g px py ddx ddy;
    r' ← walk g r.1.1 r.1.2 ds';
    Some (r'.1.1, r'.1.2, r.2 && r'.2)
  end.

Definition delta (d : Dir) : Z * Z := (dvx d, dvy d).

(** The four unit-cardinal deltas. *)
Definition unit_cardinal (ddx ddy : Z) : bool :=
  bool_decide ((ddx, ddy) ∈ [(0, -1); (1, 0); (0, 1); (-1, 0)]).

(** The wall bit that [try_move] tests for a unit-cardinal delta. *)
Definition cardinal_bit (ddx ddy : Z) : Z :=
  if ddy =? -1 then WALL_N
  else if ddx =? 1 then WALL_E
  else if ddy =? 1 then WALL_S
  else WALL_W.

(** The goal cell. *)
Definition goal : P := mkP (MAZE_W - 1) (MAZE_H - 1).

(** The session either has the latch set (with the winning title) or is
    still playing with the player on cell [a], away from the goal. *)
Definition tracking (st : Session) (a : P) : Prop :=
  (s_won st = true ∧ s_title st = title_won) ∨
  (s_won st = false ∧ s_px st = P_x a ∧ s_py st = P_y a ∧ a ≠ goal).

(** The static array before the program touches it: C zero-initialises
    objects of static storage duration. *)
Definition static_grid : Grid :=
  replicate (Z.to_nat MAZE_H) (replicate (Z.to_nat MAZE_W) (mkCell 0 false)).

(** ** Further vocabulary of the generator *)

(** The walls on the outer boundary of the grid are in place. *)
Definition border_intact (g : Grid) : Prop :=
  ∀ p d, inb p = true → inb (step p d) = false → wall g p d = true.

(** Each entry of the list has a passage from the entry that follows it
    (for the stack: from the entry below it). *)
Definition linked (g : Grid) (l : list P) : Prop :=
  ∀ i a b, l !! i = Some a → l !! S i = Some b → passage g b a.

(** The array with all walls set and no cell visited. *)
Definition full_grid : Grid :=
  replicate (Z.to_nat MAZE_H) (replicate (Z.to_nat MAZE_W) (mkCell full_walls false)).

(** ** Further vocabulary of the session *)

(** The direction that a key moves the player in. *)
Definition key_dir (k : Key) : option Dir :=
  match k with
  | SDLK_UP | SDLK_w => Some DN
  | SDLK_RIGHT | SDLK_d => Some DE
  | SDLK_DOWN | SDLK_s => Some DS
  | SDLK_LEFT | SDLK_a => Some DW
  | _ => None
  end.

(** The win check that closes the [if (!won)] block. *)
Definition win_check (st : Session) : Session :=
  if (s_px st =? MAZE_W - 1) && (s_py st =? MAZE_H - 1)
  then set_title title_won (set_won true st)
  else st.

(** What holds of the session between two events: the array has its
    shape, the player is on the grid, the latch is set exactly when the
    player stands on the goal cell, and the title tells the state. *)
Definition session_ok (st : Session) : Prop :=
  wf_grid (s_grid st) = true ∧
  in_bounds (s_px st) (s_py st) = true ∧
  (s_won st = true ↔ (s_px st = MAZE_W - 1 ∧ s_py st = MAZE_H - 1)) ∧
  s_title st = (if s_won st then title_won else title_playing).

(** The events that end the main loop. *)
Definition is_quit (e : Event) : bool :=
  match e with
  | SDL_QUIT | SDL_KEYDOWN SDLK_ESCAPE => true
  | _ => false
  end.

(** ** Vocabulary of the rendering *)

(** The line that [draw_maze] draws for side [d] of cell [p]. *)
Definition edge_line (p : P) (d : Dir) : Call :=
  let x0 := PAD + P_x p * CELL in
  let y0 := PAD + P_y p * CELL in
  let x1 := x0 + CELL in
  let y1 := y0 + CELL in
  match d with
  | DN => SDL_RenderDrawLine x0 y0 x1 y0
  | DE => SDL_RenderDrawLine x1 y0 x1 y1
  | DS => SDL_RenderDrawLine x0 y1 x1 y1
  | DW => SDL_RenderDrawLine x0 y0 x0 y1
  end.

(** The lines of one cell. *)
Definition cell_lines (g : Grid) (p : P) : list Call :=
  (λ e, edge_line e.1 e.2) <$>
    List.filter (λ e, wall g e.1 e.2) [(p, DN); (p, DE); (p, DS); (p, DW)].

(** Every side of every cell, row by row, N E S W within a cell. *)
Definition sides : list (P * Dir) := p ← all_cells; d ← dirs; [(p, d)].

(** The lines of the sides whose wall bit is set. *)
Definition maze_lines (g : Grid) : list Call :=
  (λ e, edge_line e.1 e.2) <$> List.filter (λ e, wall g e.1 e.2) sides.

Definition background : list Call :=
  [SDL_SetRenderDrawColor 15 15 18 255; SDL_RenderClear;
   SDL_SetRenderDrawColor 230 230 230 255].

Definition is_line (c : Call) : bool :=
  match c with SDL_RenderDrawLine _ _ _ _ => true | _ => false end.

(** The number of wall bits that are clear, over all sides of all cells. *)
Definition cleared_count (g : Grid) : nat :=
  count (λ e, negb (wall g e.1 e.2)) sides.

(** ** Vocabulary of [main] *)

(** The calls that draw a frame. *)
Definition is_render (c : Call) : bool :=
  match c with
  | SDL_SetRenderDrawColor _ _ _ _ | SDL_RenderClear | SDL_RenderDrawLine _ _ _ _
  | SDL_RenderFillRect _ _ _ _ | SDL_RenderPresent => true
  | _ => false
  end.

(** The number of occurrences of a call in a trace. *)
Definition occurrences (c : Call) (tr : list Call) : nat :=
  count (λ c', bool_decide (c' = c)) tr.

(** No event of the batch ends the loop. *)
Definition no_quit (es : list Event) : bool := negb (existsb is_quit es).

#[global] Instance Event_eq_dec : EqDecision Event.
Proof. solve_decision. Defined.

(** The number of presses of the R key among the events. *)
Definition regenerations (es : list Event) : nat :=
  count (λ e, bool_decide (e = SDL_KEYDOWN SDLK_r)) es.

(** Every event of the list is handled, in order, by the body of the
    polling loop; a fault stays a fault. *)
Definition handle_all (rand : nat → Z) (es : list Event) (st : Session)
  : option Session :=
  foldl (λ o e, o ≫= on_event rand e) (Some st) es.

(** * Part III: proofs

    ** Array access *)

(** Runs the binds of the fault monad whose argument is known. *)
Ltac run_bind := cbn [mbind option_bind].

Lemma MAZE_W_pos : 0 < MAZE_W.
Proof. reflexivity. Qed.

Lemma MAZE_H_pos : 0 < MAZE_H.
Proof. reflexivity. Qed.

Lemma in_bounds_spec x y :
  in_bounds x y = true ↔ 0 ≤ x < MAZE_W ∧ 0 ≤ y < MAZE_H.
Proof.
  unfold in_bounds. rewrite !andb_true_iff, !Z.geb_le, !Z.ltb_lt. lia.
Qed.

Lemma inb_spec p :
  inb p = true ↔ 0 ≤ P_x p < MAZE_W ∧ 0 ≤ P_y p < MAZE_H.
Proof. apply in_bounds_spec. Qed.

Lemma wf_grid_spec g :
  wf_grid g = true ↔
  length g = Z.to_nat MAZE_H ∧ Forall (λ row, length row = Z.to_nat MAZE_W) g.
Proof.
  unfold wf_grid. rewrite andb_true_iff, Nat.eqb_eq, forallb_forall, Forall_forall.
  split; intros [H1 H2]; split; auto; intros r Hr.
  - apply Nat.eqb_eq, H2. by apply list_elem_of_In.
  - apply Nat.eqb_eq, H2. by apply list_elem_of_In.
Qed.

Lemma rd_Some g x y :
  wf_grid g = true → (is_Some (rd g x y) ↔ in_bounds x y = true).
Proof.
  intros [Hlen Hrows]%wf_grid_spec. rewrite in_bounds_spec. unfold rd.
  destruct (0 <=? y) eqn:Hy; [apply Z.leb_le in Hy | apply Z.leb_gt in Hy];
    destruct (0 <=? x) eqn:Hx; [apply Z.leb_le in Hx | apply Z.leb_gt in Hx | |];
    simpl; try (split; [intros [? [=]] | lia]).
  destruct (g !! Z.to_nat y) as [row|] eqn:Hrow; simpl.
  - pose proof (lookup_lt_Some _ _ _ Hrow) as Hlt.
    rewrite Forall_lookup in Hrows. specialize (Hrows _ _ Hrow).
    rewrite lookup_lt_is_Some. lia.
  - apply lookup_ge_None in Hrow. split; [intros [? [=]] | lia].
Qed.

Lemma wr_spec g x y c :
  wf_grid g = true → in_bounds x y = true →
  ∃ g', wr g x y c = Some g' ∧ wf_grid g' = true ∧
        ∀ x' y', rd g' x' y' =
                 if decide (x' = x ∧ y' = y) then Some c else rd g x' y'.
Proof.
  intros Hwf Hin. pose proof Hwf as [Hlen Hrows]%wf_grid_spec.
  pose proof (proj2 (rd_Some g x y Hwf) Hin) as [c0 Hc0].
  pose proof Hin as Hxy%in_bounds_spec.
  unfold wr. rewrite Hc0. simpl.
  unfold rd in Hc0.
  destruct (0 <=? y) eqn:Hy; [|done]. destruct (0 <=? x) eqn:Hx; [|done].
  simpl in Hc0.
  destruct (g !! Z.to_nat y) as [row|] eqn:Hrow; [|done]. simpl in *.
  eexists. split; [done|].
  pose proof (lookup_lt_Some _ _ _ Hrow) as Hylt.
  pose proof (lookup_lt_Some _ _ _ Hc0) as Hxlt.
  split.
  - apply wf_grid_spec. rewrite length_insert. split; [done|].
    apply Forall_insert; [done|]. rewrite length_insert.
    rewrite Forall_lookup in Hrows. by apply (Hrows _ _ Hrow).
  - intros x' y'. unfold rd.
    destruct (0 <=? y') eqn:Hy'; [apply Z.leb_le in Hy' | apply Z.leb_gt in Hy'];
      [destruct (0 <=? x') eqn:Hx'; [apply Z.leb_le in Hx' | apply Z.leb_gt in Hx']|];
      simpl; try (case_decide; [lia | done]).
    destruct (decide (Z.to_nat y' = Z.to_nat y)) as [Heq|Hne].
    + rewrite Heq, list_lookup_insert_eq by done. rewrite Hrow. simpl.
      destruct (decide (Z.to_nat x' = Z.to_nat x)) as [Heqx|Hnex].
      * rewrite Heqx, list_lookup_insert_eq by done.
        case_decide; [done | lia].
      * rewrite list_lookup_insert_ne by done.
        case_decide; [lia | done].
    + rewrite list_lookup_insert_ne by done.
      case_decide; [lia | done].
Qed.

Lemma upd_spec g p f :
  wf_grid g = true → inb p = true →
  ∃ g' c, cell g p = Some c ∧ upd g (P_x p) (P_y p) f = Some g' ∧
          wf_grid g' = true ∧
          ∀ q, cell g' q = if decide (q = p) then Some (f c) else cell g q.
Proof.
  intros Hwf Hin. unfold inb in Hin.
  pose proof (proj2 (rd_Some g _ _ Hwf) Hin) as [c Hc].
  destruct (wr_spec g _ _ (f c) Hwf Hin) as (g' & Hwr & Hwf' & Hrd).
  exists g', c. unfold upd, cell. rewrite Hc. simpl. repeat split; try done.
  intros [qx qy]. simpl. rewrite Hrd. destruct p as [x y]. simpl.
  destruct (decide (qx = x ∧ qy = y)) as [[-> ->]|Hn].
  - by rewrite decide_True.
  - rewrite decide_False; [done|]. intros [=]. tauto.
Qed.

Lemma upd_fault g x y f :
  wf_grid g = true → in_bounds x y = false → upd g x y f = None.
Proof.
  intros Hwf Hin. unfold upd.
  destruct (rd g x y) eqn:Hrd; [|done].
  assert (Hs : is_Some (rd g x y)) by (exists c; exact Hrd).
  apply (rd_Some g x y Hwf) in Hs. congruence.
Qed.

Lemma step_opp p d : step (step p d) (dopp d) = p.
Proof. destruct p, d; unfold step; simpl; f_equal; lia. Qed.

Lemma dopp_invol d : dopp (dopp d) = d.
Proof. by destruct d. Qed.

Lemma step_ne p d : step p d ≠ p.
Proof. destruct p, d; unfold step; simpl; intros [=]; lia. Qed.

Lemma step_inj p d d' : step p d = step p d' → d = d'.
Proof. destruct p, d, d'; unfold step; simpl; intros [=]; try done; lia. Qed.

(** *** Bit-level facts about the wall mask *)

Lemma dbit_pow2 d : dbit d = 2 ^ dk d.
Proof. by destruct d. Qed.

Lemma land_pow2 w k :
  0 ≤ k → Z.land w (2 ^ k) = if Z.testbit w k then 2 ^ k else 0.
Proof.
  intros Hk. apply Z.bits_inj'. intros n Hn.
  rewrite Z.land_spec, Z.pow2_bits_eqb by done.
  destruct (Z.eqb_spec k n) as [->|Hne].
  - rewrite andb_true_r. destruct (Z.testbit w n) eqn:E.
    + by rewrite Z.pow2_bits_true.
    + by rewrite Z.bits_0.
  - rewrite andb_false_r. destruct (Z.testbit w k).
    + by rewrite Z.pow2_bits_false.
    + by rewrite Z.bits_0.
Qed.

Lemma tst_testbit w d : tst w (dbit d) = Z.testbit w (dk d).
Proof.
  unfold tst. rewrite dbit_pow2, land_pow2 by (destruct d; simpl; lia).
  destruct (Z.testbit w (dk d)); [|done].
  destruct d; reflexivity.
Qed.

Lemma tst_clear_bits c d d' :
  tst (walls (clear_bits (dbit d) c)) (dbit d') =
  if decide (d' = d) then false else tst (walls c) (dbit d').
Proof.
  rewrite !tst_testbit. unfold clear_bits, u8. simpl.
  change 256 with (2 ^ 8).
  rewrite Z.mod_pow2_bits_low by (destruct d'; simpl; lia).
  rewrite Z.land_spec, Z.lnot_spec by (destruct d'; simpl; lia).
  rewrite dbit_pow2, Z.pow2_bits_eqb by (destruct d; simpl; lia).
  case_decide as Hd.
  - subst. rewrite Z.eqb_refl. simpl. apply andb_false_r.
  - destruct (Z.eqb_spec (dk d) (dk d')) as [Heq|Hne].
    + destruct d, d'; simpl in Heq; done.
    + simpl. apply andb_true_r.
Qed.

Lemma tst_full d :
  tst (Z.lor (Z.lor (Z.lor WALL_N WALL_E) WALL_S) WALL_W) (dbit d) = true.
Proof. by destruct d. Qed.

Lemma wall_cell g p c d : cell g p = Some c → wall g p d = tst (walls c) (dbit d).
Proof. unfold wall. by intros ->. Qed.

Lemma vis_cell g p c : cell g p = Some c → vis g p = visited c.
Proof. unfold vis. by intros ->. Qed.

Lemma cell_inb g p : wf_grid g = true → (is_Some (cell g p) ↔ inb p = true).
Proof. apply rd_Some. Qed.

Lemma vis_inb g p : wf_grid g = true → vis g p = true → inb p = true.
Proof.
  intros Hwf Hv. unfold vis in Hv. destruct (cell g p) eqn:Hc; [|done].
  apply (cell_inb g p Hwf). eauto.
Qed.

(** *** Effect of the cell updates on walls and visited flags *)

Lemma upd_clear g p d :
  wf_grid g = true → inb p = true →
  ∃ g', upd g (P_x p) (P_y p) (clear_bits (dbit d)) = Some g' ∧
        wf_grid g' = true ∧
        (∀ q, vis g' q = vis g q) ∧
        (∀ q d', wall g' q d' =
                 if decide (q = p ∧ d' = d) then false else wall g q d').
Proof.
  intros Hwf Hin.
  destruct (upd_spec g p (clear_bits (dbit d)) Hwf Hin)
    as (g' & c & Hc & Hupd & Hwf' & Hcell).
  exists g'. repeat split; try done.
  - intros q. unfold vis. rewrite Hcell. case_decide; [|done]. subst. by rewrite Hc.
  - intros q d'. unfold wall. rewrite Hcell.
    destruct (decide (q = p)) as [->|Hne].
    + rewrite Hc, tst_clear_bits.
      destruct (decide (d' = d)) as [->|Hd].
      * by rewrite decide_True.
      * rewrite decide_False; [done | tauto].
    + rewrite decide_False; [done | tauto].
Qed.

Lemma upd_visit g p b :
  wf_grid g = true → inb p = true →
  ∃ g', upd g (P_x p) (P_y p) (set_visited b) = Some g' ∧
        wf_grid g' = true ∧
        (∀ q d, wall g' q d = wall g q d) ∧
        (∀ q, vis g' q = if decide (q = p) then b else vis g q).
Proof.
  intros Hwf Hin.
  destruct (upd_spec g p (set_visited b) Hwf Hin)
    as (g' & c & Hc & Hupd & Hwf' & Hcell).
  exists g'. repeat split; try done.
  - intros q d. unfold wall. rewrite Hcell. case_decide; [|done]. subst. by rewrite Hc.
  - intros q. unfold vis. rewrite Hcell. by case_decide.
Qed.

(** [knock_down] on a cell and its neighbour on side [d]. *)
Lemma knock_down_adjacent g p d :
  wf_grid g = true → inb p = true → inb (step p d) = true →
  ∃ g', knock_down g (P_x p) (P_y p) (P_x (step p d)) (P_y (step p d)) = Some g' ∧
        wf_grid g' = true ∧
        (∀ q, vis g' q = vis g q) ∧
        (∀ q d', wall g' q d' =
                 if decide ((q = p ∧ d' = d) ∨ (q = step p d ∧ d' = dopp d))
                 then false else wall g q d').
Proof.
  intros Hwf Hp Hn.
  destruct (upd_clear g p d Hwf Hp) as (g1 & H1 & Hwf1 & Hv1 & Hw1).
  destruct (upd_clear g1 (step p d) (dopp d) Hwf1 Hn) as (g2 & H2 & Hwf2 & Hv2 & Hw2).
  exists g2. split.
  - unfold knock_down.
    destruct d; simpl in *;
      repeat match goal with
             | |- context [?a =? ?b] => destruct (Z.eqb_spec a b); try lia; simpl
             end;
      rewrite H1; simpl; exact H2.
  - split; [done|]. split.
    + intros q. by rewrite Hv2, Hv1.
    + intros q d'. rewrite Hw2, Hw1.
      repeat case_decide; try done; tauto.
Qed.

(** Any other pair of coordinates: no branch of [knock_down] fires. *)
Lemma knock_down_other g x y nx ny :
  (∀ d, mkP nx ny ≠ step (mkP x y) d) → knock_down g x y nx ny = Some g.
Proof.
  intros Hna. unfold knock_down.
  pose proof (Hna DN) as HN. pose proof (Hna DE) as HE.
  pose proof (Hna DS) as HS. pose proof (Hna DW) as HW.
  unfold step in *. simpl in *.
  repeat match goal with
         | |- context [?a =? ?b] => destruct (Z.eqb_spec a b); simpl
         end; try done; exfalso;
    first [ apply HN; f_equal; lia | apply HE; f_equal; lia
          | apply HS; f_equal; lia | apply HW; f_equal; lia ].
Qed.

(** *** The full-array loops *)

Lemma for_x_spec f y n : ∀ x g,
  wf_grid g = true → 0 ≤ x → x + Z.of_nat n ≤ MAZE_W → 0 ≤ y < MAZE_H →
  ∃ g', for_x n x y f g = Some g' ∧ wf_grid g' = true ∧
        ∀ q, cell g' q =
             if decide (P_y q = y ∧ x ≤ P_x q < x + Z.of_nat n)
             then f <$> cell g q else cell g q.
Proof.
  induction n as [|n IH]; intros x g Hwf Hx Hn Hy.
  - exists g. repeat split; try done. intros q. case_decide; [lia | done].
  - assert (Hin : inb (mkP x y) = true) by (apply inb_spec; simpl; lia).
    destruct (upd_spec g (mkP x y) f Hwf Hin) as (g1 & c & Hc & Hupd & Hwf1 & Hcell1).
    simpl in Hupd.
    destruct (IH (x + 1) g1 Hwf1 ltac:(lia) ltac:(lia) Hy) as (g2 & Hfor & Hwf2 & Hcell2).
    exists g2. simpl. rewrite Hupd. simpl. repeat split; try done.
    intros q. rewrite Hcell2, Hcell1.
    destruct (decide (q = mkP x y)) as [->|Hne]; simpl.
    + rewrite decide_False by lia. rewrite decide_True by lia. by rewrite Hc.
    + destruct q as [qx qy]. simpl.
      assert (¬ (qx = x ∧ qy = y)) by (intros [-> ->]; done).
      repeat case_decide; try done; lia.
Qed.

Lemma for_y_spec f n : ∀ y g,
  wf_grid g = true → 0 ≤ y → y + Z.of_nat n ≤ MAZE_H →
  ∃ g', for_y n y f g = Some g' ∧ wf_grid g' = true ∧
        ∀ q, cell g' q =
             if decide (y ≤ P_y q < y + Z.of_nat n)
             then f <$> cell g q else cell g q.
Proof.
  induction n as [|n IH]; intros y g Hwf Hy Hn.
  - exists g. repeat split; try done. intros q. case_decide; [lia | done].
  - destruct (for_x_spec f y (Z.to_nat MAZE_W) 0 g Hwf) as (g1 & Hrow & Hwf1 & Hcell1);
      [lia | pose proof MAZE_W_pos; lia | lia |].
    destruct (IH (y + 1) g1 Hwf1 ltac:(lia) ltac:(lia)) as (g2 & Hfor & Hwf2 & Hcell2).
    exists g2. cbn [for_y]. rewrite Hrow. simpl. repeat split; try done.
    intros q. rewrite Hcell2, Hcell1.
    destruct (cell g q) as [c|] eqn:Hc.
    + assert (Hq : inb q = true) by (apply (cell_inb g q Hwf); eauto).
      apply inb_spec in Hq. pose proof MAZE_W_pos.
      repeat case_decide; try done; lia.
    + repeat case_decide; done.
Qed.

Lemma for_cells_spec f g :
  wf_grid g = true →
  ∃ g', for_cells f g = Some g' ∧ wf_grid g' = true ∧
        ∀ q, cell g' q = f <$> cell g q.
Proof.
  intros Hwf. pose proof MAZE_H_pos.
  destruct (for_y_spec f (Z.to_nat MAZE_H) 0 g Hwf) as (g' & Hfor & Hwf' & Hcell);
    [lia | lia |].
  exists g'. repeat split; try done.
  intros q. rewrite Hcell.
  destruct (cell g q) as [c|] eqn:Hc.
  - assert (Hq : inb q = true) by (apply (cell_inb g q Hwf); eauto).
    apply inb_spec in Hq. case_decide; [done | lia].
  - by case_decide.
Qed.

(** ** Facts about cycles and counting *)

Section Graph.
Context {A : Type}.

(** Every vertex of a cycle has a predecessor and a successor on the
    cycle, and they differ. *)
Lemma cycle_two_neighbours (R : A → A → Prop) (c : list A) (v : A) :
  is_cycle R c → v ∈ c →
  ∃ a b, a ∈ c ∧ b ∈ c ∧ a ≠ b ∧ R a v ∧ R v b.
Proof.
  intros (Hnd & Hlen & Hlink) Hv.
  apply list_elem_of_lookup in Hv as [i Hi].
  pose proof (lookup_lt_Some _ _ _ Hi) as Hlt.
  set (n := length c) in *.
  set (j := ((i + 1) mod n)%nat).
  set (k := (if decide (i = 0)%nat then n - 1 else i - 1)%nat).
  assert (Hj : (j < n)%nat) by (apply Nat.mod_upper_bound; lia).
  assert (Hk : (k < n)%nat) by (unfold k; case_decide; lia).
  assert (Hki : ((k + 1) mod n)%nat = i).
  { unfold k. case_decide.
    - replace (n - 1 + 1)%nat with n by lia. subst i. apply Nat.Div0.mod_same.
    - replace (i - 1 + 1)%nat with i by lia. by apply Nat.mod_small. }
  assert (Hjk : j ≠ k).
  { unfold j, k. destruct (decide (i + 1 = n)%nat) as [Heq|Hne].
    - rewrite Heq, Nat.Div0.mod_same. case_decide; lia.
    - rewrite Nat.mod_small by lia. case_decide; lia. }
  destruct (lookup_lt_is_Some_2 c j Hj) as [b Hb].
  destruct (lookup_lt_is_Some_2 c k Hk) as [a Ha].
  exists a, b. split_and!.
  - apply list_elem_of_lookup. eauto.
  - apply list_elem_of_lookup. eauto.
  - intros ->. apply Hjk. by eapply NoDup_lookup.
  - apply (Hlink k); [done|]. fold n. by rewrite Hki.
  - by apply (Hlink i).
Qed.

Lemma cycle_restrict (R R' : A → A → Prop) c :
  (∀ a b, a ∈ c → b ∈ c → R' a b → R a b) → is_cycle R' c → is_cycle R c.
Proof.
  intros Hsub (Hnd & Hlen & Hlink). repeat split; try done.
  intros i a b Ha Hb. apply Hsub.
  - apply list_elem_of_lookup. eauto.
  - apply list_elem_of_lookup. eauto.
  - by apply (Hlink i).
Qed.

Lemma count_ext (f f' : A → bool) l :
  (∀ x, x ∈ l → f' x = f x) → count f' l = count f l.
Proof.
  unfold count. induction l as [|x l IH]; intros Hext; [done|]. simpl.
  rewrite (Hext x) by left.
  assert (Hl : length (List.filter f' l) = length (List.filter f l))
    by (apply IH; intros; apply Hext; by right).
  destruct (f x); simpl; by rewrite Hl.
Qed.

Lemma count_flip (f f' : A → bool) l e :
  NoDup l → e ∈ l → f e = false → f' e = true →
  (∀ x, x ∈ l → x ≠ e → f' x = f x) →
  count f' l = S (count f l).
Proof.
  unfold count. induction 1 as [|x l Hx Hnd IH]; intros He Hf Hf' Hext.
  { by apply not_elem_of_nil in He. }
  simpl. apply elem_of_cons in He as [<-|He].
  - rewrite Hf, Hf'. simpl. f_equal. apply count_ext.
    intros y Hy. apply Hext; [by right|]. by intros ->.
  - rewrite (Hext x); [|by left|by intros ->].
    destruct (f x); simpl; [f_equal|]; apply IH; try done;
      intros; apply Hext; try done; by right.
Qed.

Lemma count_all (f : A → bool) l :
  (∀ x, x ∈ l → f x = true) → count f l = length l.
Proof.
  unfold count. induction l as [|x l IH]; intros Hall; [done|]. simpl.
  rewrite (Hall x) by left. simpl. f_equal. apply IH. intros. apply Hall. by right.
Qed.

Lemma count_le (f : A → bool) l : (count f l ≤ length l)%nat.
Proof. unfold count. apply List.filter_length_le. Qed.
End Graph.

Lemma elem_of_all_cells p : p ∈ all_cells ↔ inb p = true.
Proof.
  unfold all_cells. rewrite inb_spec, list_elem_of_bind. split.
  - intros (y & (x & Hp & Hx%elem_of_seqZ)%list_elem_of_bind & Hy%elem_of_seqZ).
    apply list_elem_of_singleton in Hp as ->. simpl. lia.
  - intros [Hx Hy]. exists (P_y p). split; [|apply elem_of_seqZ; lia].
    apply list_elem_of_bind. exists (P_x p). split; [|apply elem_of_seqZ; lia].
    destruct p. simpl. apply list_elem_of_singleton. done.
Qed.

Lemma NoDup_all_cells : NoDup all_cells.
Proof.
  unfold all_cells. apply NoDup_bind; [| |apply NoDup_seqZ].
  - intros y1 y2 p _ _ (x1 & Hp1 & _)%list_elem_of_bind (x2 & Hp2 & _)%list_elem_of_bind.
    apply list_elem_of_singleton in Hp1, Hp2. congruence.
  - intros y _. apply NoDup_bind; [| |apply NoDup_seqZ].
    + intros x1 x2 p _ _ Hp1%list_elem_of_singleton Hp2%list_elem_of_singleton. congruence.
    + intros. apply NoDup_singleton.
Qed.

Lemma length_all_cells : length all_cells = Z.to_nat (MAZE_W * MAZE_H).
Proof. reflexivity. Qed.

Lemma elem_of_slots p d :
  (p, d) ∈ slots ↔ inb p = true ∧ inb (step p d) = true ∧ (d = DE ∨ d = DS).
Proof.
  unfold slots. rewrite list_elem_of_bind. split.
  - intros (q & (d' & Hpd & Hd')%list_elem_of_bind & Hq%elem_of_all_cells).
    destruct (inb (step q d')) eqn:Hs; [|by apply not_elem_of_nil in Hpd].
    apply list_elem_of_singleton in Hpd as [= -> ->].
    split_and!; try done.
    apply elem_of_cons in Hd' as [->|Hd']; [by left|].
    apply list_elem_of_singleton in Hd' as ->. by right.
  - intros (Hp & Hs & Hd). exists p. split; [|by apply elem_of_all_cells].
    apply list_elem_of_bind. exists d. rewrite Hs.
    split; [by apply list_elem_of_singleton|].
    destruct Hd as [-> | ->]; [left | right; left].
Qed.

Lemma NoDup_slots : NoDup slots.
Proof.
  unfold slots. apply NoDup_bind; [| |apply NoDup_all_cells].
  - intros p1 p2 e _ _ (d1 & He1 & _)%list_elem_of_bind (d2 & He2 & _)%list_elem_of_bind.
    destruct (inb (step p1 d1)); [|by apply not_elem_of_nil in He1].
    destruct (inb (step p2 d2)); [|by apply not_elem_of_nil in He2].
    apply list_elem_of_singleton in He1, He2. congruence.
  - intros p _. apply NoDup_bind.
    + intros d1 d2 e _ _ He1 He2.
      destruct (inb (step p d1)); [|by apply not_elem_of_nil in He1].
      destruct (inb (step p d2)); [|by apply not_elem_of_nil in He2].
      apply list_elem_of_singleton in He1, He2. congruence.
    + intros d _. destruct (inb (step p d)); [apply NoDup_singleton | apply NoDup_nil_2].
    + apply NoDup_cons. split; [|apply NoDup_singleton].
      by intros ?%list_elem_of_singleton.
Qed.

(** A duplicate-free list of in-bounds cells fits in [MAZE_W * MAZE_H]
    entries. *)
Lemma cells_length_bound (l : list P) :
  NoDup l → (∀ p, p ∈ l → inb p = true) →
  Z.of_nat (length l) ≤ MAZE_W * MAZE_H.
Proof.
  intros Hnd Hin.
  assert (Hsub : l ⊆+ all_cells).
  { apply NoDup_submseteq; [done|]. intros p Hp. by apply elem_of_all_cells, Hin. }
  apply submseteq_length in Hsub. rewrite length_all_cells in Hsub.
  pose proof MAZE_W_pos. pose proof MAZE_H_pos. lia.
Qed.

(** Passages depend on the walls only. *)
Lemma passage_walls_eq g g' :
  (∀ q d, wall g' q d = wall g q d) → ∀ a b, passage g' a b ↔ passage g a b.
Proof.
  intros Hw a b. unfold passage.
  split; intros (Ha & Hb & d & Hd & Hwd); repeat split; try done; exists d;
    (split; [done|]); by rewrite ?Hw in *.
Qed.

Lemma reciprocal_walls_eq g g' :
  (∀ q d, wall g' q d = wall g q d) → reciprocal g → reciprocal g'.
Proof. intros Hw Hr a d Ha Hs. rewrite !Hw. by apply Hr. Qed.

Lemma is_cycle_iff (R R' : P → P → Prop) c :
  (∀ a b, R' a b ↔ R a b) → is_cycle R' c → is_cycle R c.
Proof. intros Hiff. apply cycle_restrict. intros a b _ _. apply Hiff. Qed.

Lemma passage_count_walls_eq g g' :
  (∀ q d, wall g' q d = wall g q d) → passage_count g' = passage_count g.
Proof. intros Hw. apply count_ext. intros e _. by rewrite Hw. Qed.

Lemma passage_sym g a b : reciprocal g → passage g a b → passage g b a.
Proof.
  intros Hr (Ha & Hb & d & -> & Hw). repeat split; try done.
  exists (dopp d). rewrite step_opp. split; [done|].
  by rewrite <- Hr.
Qed.

(** [passage_count] counts the passages: under reciprocity the open slots
    are exactly the unordered pairs linked by a passage, each pair having
    one slot. *)
Lemma passage_iff_slot g a b :
  reciprocal g →
  passage g a b ↔
  ∃ p d, (p, d) ∈ slots ∧ wall g p d = false ∧
         ((a = p ∧ b = step p d) ∨ (b = p ∧ a = step p d)).
Proof.
  intros Hr. split.
  - intros (Ha & Hb & d & -> & Hw).
    destruct (decide (d = DE ∨ d = DS)) as [Hd|Hd].
    + exists a, d. split_and!; [by apply elem_of_slots | done | by left].
    + exists (step a d), (dopp d). rewrite step_opp. split_and!.
      * apply elem_of_slots. rewrite step_opp. split_and!; try done.
        destruct d; simpl; tauto.
      * by rewrite <- Hr.
      * by right.
  - intros (p & d & (Hp & Hs & _)%elem_of_slots & Hw & [[-> ->]|[-> ->]]).
    + repeat split; try done. by exists d.
    + apply passage_sym; [done|]. repeat split; try done. by exists d.
Qed.

Lemma slot_pair_inj p1 d1 p2 d2 :
  (p1, d1) ∈ slots → (p2, d2) ∈ slots →
  (p1 = p2 ∧ step p1 d1 = step p2 d2) ∨ (p1 = step p2 d2 ∧ step p1 d1 = p2) →
  (p1, d1) = (p2, d2).
Proof.
  intros (_ & _ & H1)%elem_of_slots (_ & _ & H2)%elem_of_slots [[-> Hs]|[-> Hs]].
  - by rewrite (step_inj _ _ _ Hs).
  - exfalso. destruct p2 as [x y]. unfold step in Hs. simpl in Hs.
    injection Hs as Hx Hy.
    destruct H1 as [-> | ->], H2 as [-> | ->]; simpl in *; lia.
Qed.

(** Clearing the two facing bits of an adjacent pair keeps reciprocity. *)
Lemma knocked_reciprocal g g' p d :
  reciprocal g →
  (∀ q d', wall g' q d' =
           if decide ((q = p ∧ d' = d) ∨ (q = step p d ∧ d' = dopp d))
           then false else wall g q d') →
  reciprocal g'.
Proof.
  intros Hr Hw a d0 Ha Hs. rewrite !Hw.
  assert (Hiff : (a = p ∧ d0 = d) ∨ (a = step p d ∧ d0 = dopp d) ↔
                 (step a d0 = p ∧ dopp d0 = d) ∨
                 (step a d0 = step p d ∧ dopp d0 = dopp d)).
  { split.
    - intros [[-> ->]|[-> ->]]; [by right|left]. by rewrite step_opp, dopp_invol.
    - intros [[H1 H2]|[H1 H2]].
      + right. by rewrite <- H1, <- H2, step_opp, dopp_invol.
      + left. assert (d0 = d) as -> by (destruct d0, d; done).
        split; [|done]. by rewrite <- (step_opp a d), H1, step_opp. }
  destruct (decide ((a = p ∧ d0 = d) ∨ (a = step p d ∧ d0 = dopp d))) as [H|H].
  - rewrite decide_True; [done | by apply Hiff].
  - rewrite decide_False; [by apply Hr | by rewrite <- Hiff].
Qed.

(** ** Carving one passage towards an unvisited cell *)

Section Carve.
Variables (g g' : Grid) (p : P) (d : Dir).
Let n := step p d.

Hypothesis Hr : reciprocal g.
Hypothesis Hfresh : fresh g.
Hypothesis Hp : inb p = true.
Hypothesis Hn : inb n = true.
Hypothesis Hvp : vis g p = true.
Hypothesis Hvn : vis g n = false.
Hypothesis Hw : ∀ q d', wall g' q d' =
  if decide ((q = p ∧ d' = d) ∨ (q = n ∧ d' = dopp d)) then false else wall g q d'.
Hypothesis Hv : ∀ q, vis g' q = if decide (q = n) then true else vis g q.

Lemma carve_closed_before : wall g p d = true.
Proof using All. rewrite Hr by done. by apply Hfresh. Qed.

Lemma carve_reciprocal : reciprocal g'.
Proof using All. by apply (knocked_reciprocal g g' p d). Qed.

Lemma carve_fresh : fresh g'.
Proof using All.
  intros q d0 Hq Hvq. rewrite Hv in Hvq.
  destruct (decide (q = n)) as [|Hqn]; [done|].
  rewrite Hw, decide_False; [by apply Hfresh|].
  intros [[-> _]|[-> _]]; [congruence | done].
Qed.

Lemma no_passage_unvisited a b : passage g a b → a ≠ n ∧ b ≠ n.
Proof using All.
  intros (Ha & Hb & d0 & -> & Hwd). split.
  - intros ->. rewrite Hfresh in Hwd; done.
  - intros Heq. rewrite Hr, Heq, Hfresh in Hwd; done.
Qed.

Lemma carve_passage a b :
  passage g' a b ↔ passage g a b ∨ (a = p ∧ b = n) ∨ (a = n ∧ b = p).
Proof using All.
  unfold passage. split.
  - intros (Ha & Hb & d0 & -> & Hwd). rewrite Hw in Hwd.
    destruct (decide ((a = p ∧ d0 = d) ∨ (a = n ∧ d0 = dopp d)))
      as [[[-> ->]|[-> ->]]|Hno].
    + right. by left.
    + right. right. unfold n. by rewrite step_opp.
    + left. repeat split; try done. by exists d0.
  - intros [(Ha & Hb & d0 & -> & Hwd)|[[-> ->]|[-> ->]]].
    + repeat split; try done. exists d0. split; [done|].
      rewrite Hw. by case_decide.
    + repeat split; try done. exists d. split; [done|].
      rewrite Hw, decide_True; [done | by left].
    + repeat split; try done. exists (dopp d). unfold n. rewrite step_opp.
      split; [done|]. rewrite Hw, decide_True; [done | by right].
Qed.

Lemma carve_acyclic : acyclic (passage g) → acyclic (passage g').
Proof using All.
  intros Hac c Hc. destruct (decide (n ∈ c)) as [Hin|Hout].
  - destruct (cycle_two_neighbours _ _ _ Hc Hin) as (a & b & _ & _ & Hab & Ha & Hb).
    apply carve_passage in Ha, Hb. apply Hab.
    assert (a = p) as ->.
    { destruct Ha as [Ha|[[-> _]|[_ Heq]]]; try done.
      - by apply no_passage_unvisited in Ha as [_ ?].
      - by apply step_ne in Heq. }
    destruct Hb as [Hb|[[Heq _]|[_ ->]]]; try done.
    + by apply no_passage_unvisited in Hb as [? _].
    + by apply step_ne in Heq.
  - apply (Hac c). revert Hc. apply cycle_restrict.
    intros a b Ha Hb [H|[[_ ->]|[-> _]]]%carve_passage; done.
Qed.

Lemma carve_count : passage_count g' = S (passage_count g).
Proof using All.
  pose proof carve_closed_before as Hclosed.
  set (e := if decide (d = DE ∨ d = DS) then (p, d) else (n, dopp d)).
  unfold passage_count. apply (count_flip _ _ _ e); [apply NoDup_slots|..].
  - unfold e. case_decide as Hd.
    + by apply elem_of_slots.
    + apply elem_of_slots. unfold n. rewrite step_opp. fold n.
      split_and!; try done. destruct d; simpl; tauto.
  - unfold e. case_decide; simpl; [by rewrite Hclosed|].
    unfold n. by rewrite <- Hr, Hclosed.
  - unfold e. case_decide; simpl; rewrite Hw, decide_True; auto.
  - intros [q d0] (Hq & Hs & Hd0)%elem_of_slots Hne. simpl.
    rewrite Hw, decide_False; [done|]. unfold e in Hne.
    intros [[-> ->]|[-> ->]].
    + by rewrite decide_True in Hne.
    + destruct (decide (d = DE ∨ d = DS)) as [Hd|Hd]; [|done].
      destruct Hd as [Hd|Hd]; rewrite Hd in Hd0; simpl in Hd0;
        destruct Hd0 as [?|?]; done.
Qed.

Lemma carve_vis_count : vis_count g' = S (vis_count g).
Proof using All.
  unfold vis_count. apply (count_flip _ _ _ n); [apply NoDup_all_cells|..].
  - by apply elem_of_all_cells.
  - done.
  - by rewrite Hv, decide_True.
  - intros q _ Hne. by rewrite Hv, decide_False.
Qed.

Lemma carve_reach p0 :
  (∀ q, vis g q = true → rtc (passage g) p0 q) →
  ∀ q, vis g' q = true → rtc (passage g') p0 q.
Proof using All.
  intros Hreach q Hq.
  assert (Hmono : ∀ a b, rtc (passage g) a b → rtc (passage g') a b).
  { intros a b. apply rtc_subrel. intros x y Hxy. apply carve_passage. by left. }
  rewrite Hv in Hq. destruct (decide (q = n)) as [->|Hne].
  - eapply rtc_r; [apply Hmono, Hreach, Hvp|]. apply carve_passage. right. by left.
  - by apply Hmono, Hreach.
Qed.
End Carve.

(** ** The neighbour loop *)

Lemma dirs_deltas i d :
  dirs !! i = Some d → dx !! i = Some (dvx d) ∧ dy !! i = Some (dvy d).
Proof.
  do 4 (destruct i as [|i]; [by intros [= <-]|]). done.
Qed.

Lemma collect_from g p :
  wf_grid g = true →
  ∀ ds i neigh, drop i dirs = ds →
    collect (length ds) i g (P_x p) (P_y p) neigh =
    Some (neigh ++ (step p <$>
            List.filter (λ d, inb (step p d) && negb (vis g (step p d))) ds)).
Proof.
  intros Hwf. induction ds as [|d ds IH]; intros i neigh Hdrop.
  - simpl. by rewrite app_nil_r.
  - assert (Hd : dirs !! i = Some d).
    { rewrite <- (Nat.add_0_r i), <- lookup_drop, Hdrop. done. }
    assert (Hds : drop (S i) dirs = ds).
    { rewrite (drop_S _ _ _ Hd) in Hdrop. congruence. }
    destruct (dirs_deltas i d Hd) as [Hdx Hdy].
    cbn [collect length List.filter]. rewrite Hdx, Hdy. run_bind.
    change (in_bounds (P_x p + dvx d) (P_y p + dvy d)) with (inb (step p d)).
    change (rd g (P_x p + dvx d) (P_y p + dvy d)) with (cell g (step p d)).
    destruct (inb (step p d)) eqn:Hin; cbn [andb].
    + destruct (proj2 (cell_inb g (step p d) Hwf) Hin) as [c Hc].
      rewrite Hc, (vis_cell _ _ _ Hc). run_bind.
      rewrite (IH (S i)) by done.
      destruct (visited c); cbn [negb]; [done|].
      by rewrite fmap_cons, <- app_assoc.
    + by rewrite (IH (S i)).
Qed.

Lemma collect_spec g p :
  wf_grid g = true →
  collect 4 0 g (P_x p) (P_y p) [] = Some (unvisited_neighbours g p).
Proof. intros Hwf. by apply (collect_from g p Hwf dirs 0%nat []). Qed.

Lemma elem_of_unvisited_neighbours g p q :
  q ∈ unvisited_neighbours g p ↔
  ∃ d, q = step p d ∧ inb q = true ∧ vis g q = false.
Proof.
  unfold unvisited_neighbours. rewrite list_elem_of_fmap. split.
  - intros (d & -> & Hd). apply list_elem_of_In, filter_In in Hd as [_ Hd].
    apply andb_true_iff in Hd as [H1 H2%negb_true_iff]. eauto.
  - intros (d & -> & Hin & Hv). exists d. split; [done|].
    apply list_elem_of_In, filter_In. split.
    + destruct d; simpl; tauto.
    + by rewrite Hin, Hv.
Qed.

(** [rand() % ncount] selects one of the collected neighbours. *)
Lemma at_index_rem {A} (l : list A) r :
  0 ≤ r → l ≠ [] →
  ∃ a, at_index l (Z.rem r (Z.of_nat (length l))) = Some a ∧ a ∈ l.
Proof.
  intros Hr Hl.
  assert (0 < Z.of_nat (length l)) by (destruct l; [done | simpl; lia]).
  pose proof (Z.rem_bound_pos r (Z.of_nat (length l)) Hr ltac:(lia)) as Hb.
  unfold at_index. destruct (Z.leb_spec 0 (Z.rem r (Z.of_nat (length l)))); [|lia].
  destruct (lookup_lt_is_Some_2 l (Z.to_nat (Z.rem r (Z.of_nat (length l)))))
    as [a Ha]; [lia|].
  exists a. split; [done|]. apply list_elem_of_lookup. eauto.
Qed.

Lemma inv_top p0 s : gen_inv p0 s → top s ≤ MAZE_W * MAZE_H.
Proof.
  intros Hinv. unfold top. apply cells_length_bound; [apply (inv_nodup _ _ Hinv)|].
  intros q Hq. eapply vis_inb; [apply (inv_wf _ _ Hinv)|]. by apply (inv_stack _ _ Hinv).
Qed.

Lemma inv_pop p0 g cur rest calls :
  gen_inv p0 (mkGen g (cur :: rest) calls) →
  unvisited_neighbours g cur = [] →
  gen_inv p0 (mkGen g rest calls).
Proof.
  intros [Hwf Hr Hf Hreach Hac Hcnt Hst Hnd Hdone H0] Hnone. simpl in *.
  apply NoDup_cons in Hnd as [Hcur Hnd].
  constructor; simpl; try done.
  - intros q Hq. apply Hst. by right.
  - intros q d Hq Hnot Hin. destruct (decide (q = cur)) as [->|Hne].
    + destruct (vis g (step cur d)) eqn:Hv; [done|].
      assert (Hel : step cur d ∈ unvisited_neighbours g cur)
        by (apply elem_of_unvisited_neighbours; eauto).
      rewrite Hnone in Hel. by apply not_elem_of_nil in Hel.
    + apply Hdone; try done. by intros [?|?]%elem_of_cons.
Qed.

Lemma inv_push p0 g g' cur rest calls calls' d :
  gen_inv p0 (mkGen g (cur :: rest) calls) →
  inb (step cur d) = true → vis g (step cur d) = false →
  wf_grid g' = true →
  (∀ q d', wall g' q d' =
           if decide ((q = cur ∧ d' = d) ∨ (q = step cur d ∧ d' = dopp d))
           then false else wall g q d') →
  (∀ q, vis g' q = if decide (q = step cur d) then true else vis g q) →
  gen_inv p0 (mkGen g' (step cur d :: cur :: rest) calls').
Proof.
  intros [Hwf Hr Hf Hreach Hac Hcnt Hst Hnd Hdone H0] Hn Hvn Hwf' Hw Hv.
  simpl in *.
  assert (Hvc : vis g cur = true) by (apply Hst; left).
  assert (Hc : inb cur = true) by (by apply (vis_inb g)).
  assert (Hmono : ∀ q, vis g q = true → vis g' q = true).
  { intros q Hq. rewrite Hv. by case_decide. }
  constructor; simpl; try done.
  - by apply (carve_reciprocal g g' cur d).
  - by apply (carve_fresh g g' cur d).
  - by apply (carve_reach g g' cur d).
  - by apply (carve_acyclic g g' cur d).
  - rewrite (carve_count g g' cur d), (carve_vis_count g g' cur d) by done.
    by f_equal.
  - intros q [->|Hq]%elem_of_cons.
    + by rewrite Hv, decide_True.
    + by apply Hmono, Hst.
  - apply NoDup_cons. split; [|done].
    intros Hin. apply Hst in Hin. congruence.
  - intros q d0 Hq Hnot Hin. rewrite Hv in Hq.
    apply not_elem_of_cons in Hnot as [Hne Hnot].
    rewrite decide_False in Hq by done.
    by apply Hmono, Hdone.
  - by apply Hmono.
Qed.

Section GeneratorProofs.
Variable rand : nat → Z.
Hypothesis rand_nonneg : ∀ i, 0 ≤ rand i.

(** One iteration keeps the invariant, never faults, decreases the
    measure, and never clears a visited flag. *)
Lemma gen_body_step p0 s :
  gen_inv p0 s → gs_stack s ≠ [] →
  ∃ s', gen_body rand s = Some s' ∧ gen_inv p0 s' ∧
        S (measure s') = measure s ∧
        (∀ q, vis (gs_grid s) q = true → vis (gs_grid s') q = true).
Proof using rand_nonneg.
  intros Hinv Hne. destruct s as [g [|cur rest] calls]; [done|].
  pose proof (inv_wf _ _ Hinv) as Hwf. simpl in Hwf.
  assert (Hvc : vis g cur = true) by (apply (inv_stack _ _ Hinv); left).
  assert (Hc : inb cur = true) by (by apply (vis_inb g)).
  unfold gen_body. cbn [gs_stack gs_grid gs_calls].
  rewrite (collect_spec g cur Hwf). run_bind.
  destruct (unvisited_neighbours g cur) as [|n0 ns] eqn:Hneigh.
  - exists (mkGen g rest calls). split; [done|]. split; [by eapply inv_pop|].
    split; [|done]. unfold measure. cbn [gs_grid gs_stack length]. lia.
  - rewrite <- Hneigh.
    destruct (Z.eqb_spec (Z.of_nat (length (unvisited_neighbours g cur))) 0) as [H0|_].
    { rewrite Hneigh in H0. simpl in H0. lia. }
    destruct (at_index_rem (unvisited_neighbours g cur) (rand calls))
      as (n & Hpick & Hn); [done | by rewrite Hneigh |].
    rewrite Hpick. run_bind.
    apply elem_of_unvisited_neighbours in Hn as (d & -> & Hin & Hvn).
    destruct (knock_down_adjacent g cur d Hwf Hc Hin) as (g1 & Hk & Hwf1 & Hv1 & Hw1).
    destruct (upd_visit g1 (step cur d) true Hwf1 Hin) as (g2 & Hu & Hwf2 & Hw2 & Hv2).
    rewrite Hk. run_bind. rewrite Hu. run_bind.
    assert (HW : ∀ q d', wall g2 q d' =
              if decide ((q = cur ∧ d' = d) ∨ (q = step cur d ∧ d' = dopp d))
              then false else wall g q d')
      by (intros q d'; by rewrite Hw2, Hw1).
    assert (HV : ∀ q, vis g2 q = if decide (q = step cur d) then true else vis g q)
      by (intros q; by rewrite Hv2, Hv1).
    assert (Hinv' : gen_inv p0 (mkGen g2 (step cur d :: cur :: rest) (S calls)))
      by (by eapply inv_push).
    pose proof (inv_top _ _ Hinv') as Htop. unfold top in Htop. simpl in Htop.
    unfold push. destruct (Z.ltb_spec (Z.of_nat (length (cur :: rest))) (MAZE_W * MAZE_H));
      [|simpl in *; lia].
    run_bind.
    exists (mkGen g2 (step cur d :: cur :: rest) (S calls)).
    split; [done|]. split; [done|]. split.
    + unfold measure. cbn [gs_grid gs_stack length].
      assert (Hvc2 : vis_count g2 = S (vis_count g)).
      { exact (carve_vis_count g g2 cur d (inv_recip _ _ Hinv) (inv_fresh _ _ Hinv)
                 Hc Hin Hvc Hvn HW HV). }
      pose proof (count_le (vis g2) all_cells) as Hle. fold (vis_count g2) in Hle.
      rewrite Hvc2 in *. lia.
    + intros q Hq. simpl. rewrite HV. by case_decide.
Qed.
End GeneratorProofs.

(** ** From [maze_init] to the end of the loop *)

Lemma maze_init_spec g :
  wf_grid g = true → ∃ g0, maze_init g = Some g0 ∧ init_grid g0.
Proof.
  intros Hwf. unfold maze_init.
  destruct (for_cells_spec (λ _, mkCell full_walls false) g Hwf) as (g0 & H0 & Hwf0 & Hcell).
  exists g0. split; [done|]. split; [done|].
  intros q Hq. rewrite Hcell.
  destruct (proj2 (cell_inb g q Hwf) Hq) as [c ->]. done.
Qed.

Lemma init_grid_wall g q d : init_grid g → inb q = true → wall g q d = true.
Proof.
  intros [_ Hc] Hq. rewrite (wall_cell _ _ _ d (Hc q Hq)). apply tst_full.
Qed.

Lemma init_grid_vis g q : init_grid g → vis g q = false.
Proof.
  intros [Hwf Hc]. destruct (vis g q) eqn:Hv; [|done].
  pose proof (vis_inb g q Hwf Hv) as Hq.
  by rewrite (vis_cell _ _ _ (Hc q Hq)) in Hv.
Qed.

Lemma count_none {A} (f : A → bool) l : (∀ x, x ∈ l → f x = false) → count f l = 0%nat.
Proof.
  unfold count. induction l as [|x l IH]; intros Hnone; [done|]. simpl.
  rewrite (Hnone x) by left. apply IH. intros. apply Hnone. by right.
Qed.

Lemma no_passage_acyclic (g : Grid) : (∀ a b, ¬ passage g a b) → acyclic (passage g).
Proof.
  intros Hno c (_ & Hlen & Hlink).
  destruct (lookup_lt_is_Some_2 c 0) as [a Ha]; [lia|].
  destruct (lookup_lt_is_Some_2 c ((0 + 1) mod length c)) as [b Hb].
  { apply Nat.mod_upper_bound. lia. }
  by apply (Hno a b), (Hlink 0%nat).
Qed.

Lemma gen_start_inv calls g p0 :
  init_grid g → inb p0 = true →
  ∃ s0, gen_start calls g (P_x p0) (P_y p0) = Some s0 ∧ gen_inv p0 s0 ∧
        gs_stack s0 = [p0] ∧ gs_calls s0 = calls ∧
        S (measure s0) = (2 * length all_cells)%nat.
Proof.
  intros Hinit Hp0. pose proof Hinit as [Hwf Hcell].
  destruct (upd_visit g p0 true Hwf Hp0) as (g1 & Hu & Hwf1 & Hw1 & Hv1).
  assert (Hcap : (Z.of_nat (length (@nil P)) <? MAZE_W * MAZE_H) = true).
  { apply Z.ltb_lt. simpl. pose proof MAZE_W_pos. pose proof MAZE_H_pos. lia. }
  assert (Hno : ∀ a b, ¬ passage g1 a b).
  { intros a b (Ha & _ & d & _ & Hwd). by rewrite Hw1, (init_grid_wall g) in Hwd. }
  assert (Hvc : vis_count g1 = 1%nat).
  { unfold vis_count. rewrite (count_flip (vis g) (vis g1) all_cells p0).
    - f_equal. apply count_none. intros. by apply init_grid_vis.
    - apply NoDup_all_cells.
    - by apply elem_of_all_cells.
    - by apply init_grid_vis.
    - by rewrite Hv1, decide_True.
    - intros q _ Hne. by rewrite Hv1, decide_False. }
  exists (mkGen g1 [p0] calls). unfold gen_start, push.
  rewrite Hu. run_bind. rewrite Hcap. run_bind.
  destruct p0 as [x0 y0]. cbn [P_x P_y].
  split; [done|]. split; [|split; [done|split; [done|]]].
  - constructor; cbn [gs_grid gs_stack].
    + done.
    + intros a d Ha Hs. by rewrite !Hw1, !(init_grid_wall g).
    + intros q d Hq _. by rewrite Hw1, (init_grid_wall g).
    + intros q Hq. rewrite Hv1 in Hq. case_decide as Heq.
      * subst. apply rtc_refl.
      * by rewrite (init_grid_vis g) in Hq.
    + by apply no_passage_acyclic.
    + rewrite Hvc. f_equal. apply count_none. intros [q d] _. simpl.
      destruct (wall g1 q d) eqn:Hwd; [done|]. exfalso.
      rewrite Hw1 in Hwd. unfold wall in Hwd.
      destruct (cell g q) as [c|] eqn:Hc; [|done].
      assert (Hq : inb q = true) by (apply (cell_inb g q Hwf); eauto).
      rewrite (Hcell q Hq) in Hc. injection Hc as <-. simpl in Hwd.
      by rewrite tst_full in Hwd.
    + intros q ->%list_elem_of_singleton. by rewrite Hv1, decide_True.
    + apply NoDup_singleton.
    + intros q d Hq Hnot _. rewrite Hv1 in Hq. case_decide as Heq.
      * subst. exfalso. apply Hnot. by apply list_elem_of_singleton.
      * by rewrite (init_grid_vis g) in Hq.
    + by rewrite Hv1, decide_True.
  - unfold measure. cbn [gs_grid gs_stack length]. rewrite Hvc.
    pose proof (Z.mul_pos_pos _ _ MAZE_W_pos MAZE_H_pos).
    rewrite length_all_cells. lia.
Qed.

(** Cells reachable by in-bounds unit steps: the whole grid. *)
Lemma closed_line (C : P → Prop) d :
  (∀ q d, C q → inb (step q d) = true → C (step q d)) →
  ∀ k a, C a → inb a = true →
    inb (mkP (P_x a + Z.of_nat k * dvx d) (P_y a + Z.of_nat k * dvy d)) = true →
    C (mkP (P_x a + Z.of_nat k * dvx d) (P_y a + Z.of_nat k * dvy d)).
Proof.
  intros Hclosed. induction k as [|k IH]; intros a Ha Hin Htgt.
  - replace (mkP _ _) with a; [done|]. destruct a. simpl. f_equal; lia.
  - set (m := mkP (P_x a + Z.of_nat k * dvx d) (P_y a + Z.of_nat k * dvy d)).
    assert (Hm : inb m = true).
    { apply inb_spec in Hin, Htgt. apply inb_spec. simpl in *.
      destruct d; simpl in *; lia. }
    replace (mkP _ _) with (step m d).
    + apply Hclosed; [by apply IH|].
      replace (step m d) with
        (mkP (P_x a + Z.of_nat (S k) * dvx d)
             (P_y a + Z.of_nat (S k) * dvy d)); [done|].
      unfold step, m. simpl. f_equal; lia.
    + unfold step, m. simpl. f_equal; lia.
Qed.

Lemma closed_everything (C : P → Prop) a :
  (∀ q d, C q → inb (step q d) = true → C (step q d)) →
  C a → inb a = true → ∀ q, inb q = true → C q.
Proof.
  intros Hclosed Ha Hin q Hq.
  (* first along the row of [a], then along the column of [q] *)
  set (m := mkP (P_x q) (P_y a)).
  assert (Hm : inb m = true).
  { apply inb_spec in Hin, Hq. apply inb_spec. simpl. lia. }
  assert (Cm : C m).
  { destruct (Z.le_gt_cases (P_x a) (P_x q)).
    - pose proof (closed_line C DE Hclosed (Z.to_nat (P_x q - P_x a)) a Ha Hin) as Hl.
      simpl in Hl. replace (mkP _ _) with m in Hl; [by apply Hl|].
      unfold m. f_equal; lia.
    - pose proof (closed_line C DW Hclosed (Z.to_nat (P_x a - P_x q)) a Ha Hin) as Hl.
      simpl in Hl. replace (mkP _ _) with m in Hl; [by apply Hl|].
      unfold m. f_equal; lia. }
  destruct (Z.le_gt_cases (P_y a) (P_y q)).
  - pose proof (closed_line C DS Hclosed (Z.to_nat (P_y q - P_y a)) m Cm Hm) as Hl.
    simpl in Hl. replace (mkP _ _) with q in Hl; [by apply Hl|].
    destruct q. simpl in *. f_equal; lia.
  - pose proof (closed_line C DN Hclosed (Z.to_nat (P_y a - P_y q)) m Cm Hm) as Hl.
    simpl in Hl. replace (mkP _ _) with q in Hl; [by apply Hl|].
    destruct q. simpl in *. f_equal; lia.
Qed.

Lemma inv_all_visited p0 s :
  gen_inv p0 s → gs_stack s = [] → ∀ q, inb q = true → vis (gs_grid s) q = true.
Proof.
  intros Hinv Hempty.
  apply (closed_everything (λ q, vis (gs_grid s) q = true) p0).
  - intros q d Hq Hin. apply (inv_done _ _ Hinv); try done.
    rewrite Hempty. apply not_elem_of_nil.
  - apply (inv_start _ _ Hinv).
  - eapply vis_inb; [apply (inv_wf _ _ Hinv) | apply (inv_start _ _ Hinv)].
Qed.

Lemma inv_passage_count p0 s :
  gen_inv p0 s → gs_stack s = [] →
  Z.of_nat (passage_count (gs_grid s)) = MAZE_W * MAZE_H - 1.
Proof.
  intros Hinv Hempty. pose proof (inv_count _ _ Hinv) as Hcnt.
  unfold vis_count in Hcnt. rewrite count_all, length_all_cells in Hcnt.
  - pose proof MAZE_W_pos. pose proof MAZE_H_pos. lia.
  - intros q Hq%elem_of_all_cells. by eapply inv_all_visited.
Qed.

(** ** The loop terminates and [maze_generate] returns *)

Section GeneratorRuns.
Variable rand : nat → Z.
Hypothesis rand_nonneg : ∀ i, 0 ≤ rand i.

Lemma gen_loop_total p0 : ∀ fuel s,
  gen_inv p0 s → (measure s ≤ fuel)%nat →
  ∃ s', gen_loop rand fuel s = Some s' ∧ gen_inv p0 s' ∧ gs_stack s' = [] ∧
        (∀ q, vis (gs_grid s) q = true → vis (gs_grid s') q = true).
Proof using rand_nonneg.
  induction fuel as [|fuel IH]; intros s Hinv Hm.
  - exists s. assert (Hs : gs_stack s = []).
    { unfold measure in Hm. destruct (gs_stack s); [done | cbn [length] in Hm; lia]. }
    unfold gen_loop. by rewrite Hs.
  - destruct (gs_stack s) as [|cur rest] eqn:Hs.
    + exists s. cbn [gen_loop]. by rewrite Hs.
    + destruct (gen_body_step rand rand_nonneg p0 s Hinv) as (s1 & Hb & Hinv1 & Hm1 & Hv1).
      { by rewrite Hs. }
      destruct (IH s1 Hinv1 ltac:(lia)) as (s' & Hl & Hinv' & Hs' & Hv').
      exists s'. cbn [gen_loop]. rewrite Hs, Hb. run_bind.
      split_and!; try done. intros q Hq. by apply Hv', Hv1.
Qed.

(** The loop and its iterates agree. *)
Lemma gen_loop_iter : ∀ fuel s s',
  gen_loop rand fuel s = Some s' → gen_iter rand fuel s = Some s'.
Proof.
  induction fuel as [|fuel IH]; intros s s'; cbn [gen_loop gen_iter].
  - destruct (gs_stack s); [done | by intros [=]].
  - destruct (gs_stack s); [done|].
    destruct (gen_body rand s) as [s1|]; [|done]. run_bind. apply IH.
Qed.

(** More fuel does not change the result of the loop. *)
Lemma gen_loop_more_fuel : ∀ fuel fuel' s s',
  gen_loop rand fuel s = Some s' → (fuel ≤ fuel')%nat →
  gen_loop rand fuel' s = Some s'.
Proof.
  induction fuel as [|fuel IH]; intros fuel' s s' Hrun Hle.
  - destruct fuel'; cbn [gen_loop] in *; by destruct (gs_stack s).
  - destruct fuel' as [|fuel']; [lia|]. cbn [gen_loop] in *.
    destruct (gs_stack s); [done|].
    destruct (gen_body rand s) as [s1|]; [|done]. cbn [mbind option_bind] in *.
    apply IH; [done | lia].
Qed.

Lemma gen_iter_add : ∀ n m s,
  gen_iter rand (n + m) s = s1 ← gen_iter rand n s; gen_iter rand m s1.
Proof.
  induction n as [|n IH]; intros m s; [done|].
  cbn [Nat.add gen_iter].
  destruct (gs_stack s) as [|cur rest] eqn:Hs.
  - run_bind. destruct m; cbn [gen_iter]; [done | by rewrite Hs].
  - destruct (gen_body rand s) as [s1|]; [|done]. run_bind. apply IH.
Qed.

(** Every iterate exists (no fault) and satisfies the invariant. *)
Lemma gen_iter_inv p0 : ∀ n s,
  gen_inv p0 s →
  ∃ s', gen_iter rand n s = Some s' ∧ gen_inv p0 s' ∧
        (∀ q, vis (gs_grid s) q = true → vis (gs_grid s') q = true).
Proof using rand_nonneg.
  induction n as [|n IH]; intros s Hinv.
  - by exists s.
  - cbn [gen_iter]. destruct (gs_stack s) as [|cur rest] eqn:Hs.
    + by exists s.
    + destruct (gen_body_step rand rand_nonneg p0 s Hinv) as (s1 & Hb & Hinv1 & _ & Hv1).
      { by rewrite Hs. }
      destruct (IH s1 Hinv1) as (s' & Hi & Hinv' & Hv').
      exists s'. rewrite Hb. run_bind.
      split_and!; try done. intros q Hq. by apply Hv', Hv1.
Qed.

(** The three phases of [maze_generate]: entry, loop, reset of the
    visited flags. *)
Lemma maze_generate_run fuel calls g p0 :
  init_grid g → inb p0 = true → (gen_fuel ≤ fuel)%nat →
  ∃ s0 s g',
    gen_start calls g (P_x p0) (P_y p0) = Some s0 ∧ gen_inv p0 s0 ∧
    gen_loop rand fuel s0 = Some s ∧ gen_inv p0 s ∧ gs_stack s = [] ∧
    for_cells (set_visited false) (gs_grid s) = Some g' ∧
    wf_grid g' = true ∧
    (∀ q, cell g' q = set_visited false <$> cell (gs_grid s) q) ∧
    maze_generate rand fuel calls g (P_x p0) (P_y p0) = Some (g', gs_calls s).
Proof using rand_nonneg.
  intros Hinit Hp0 Hfuel.
  destruct (gen_start_inv calls g p0 Hinit Hp0) as (s0 & Hs0 & Hinv0 & _ & _ & Hm0).
  destruct (gen_loop_total p0 fuel s0 Hinv0) as (s & Hl & Hinv & Hempty & _).
  { rewrite length_all_cells in Hm0. unfold gen_fuel in Hfuel.
    pose proof (Z.mul_pos_pos _ _ MAZE_W_pos MAZE_H_pos). lia. }
  destruct (for_cells_spec (set_visited false) (gs_grid s) (inv_wf _ _ Hinv))
    as (g' & Hfor & Hwf' & Hcell).
  exists s0, s, g'. split_and!; try done.
  unfold maze_generate.
  rewrite Hs0. run_bind. rewrite Hl. run_bind.
  by rewrite Hfor.
Qed.

Lemma maze_generate_spec fuel calls g p0 :
  init_grid g → inb p0 = true → (gen_fuel ≤ fuel)%nat →
  ∃ g' calls', maze_generate rand fuel calls g (P_x p0) (P_y p0) = Some (g', calls') ∧
    wf_grid g' = true ∧
    reciprocal g' ∧
    (∀ q, vis g' q = false) ∧
    (∀ q, inb q = true → rtc (passage g') p0 q) ∧
    acyclic (passage g') ∧
    Z.of_nat (passage_count g') = MAZE_W * MAZE_H - 1.
Proof using rand_nonneg.
  intros Hinit Hp0 Hfuel.
  destruct (maze_generate_run fuel calls g p0 Hinit Hp0 Hfuel)
    as (s0 & s & g' & _ & _ & _ & Hinv & Hempty & _ & Hwf' & Hcell & Hgen).
  assert (Hw : ∀ q d, wall g' q d = wall (gs_grid s) q d).
  { intros q d. unfold wall. rewrite Hcell. by destruct (cell (gs_grid s) q). }
  exists g', (gs_calls s). split_and!; try done.
  - eapply reciprocal_walls_eq; [done | apply (inv_recip _ _ Hinv)].
  - intros q. unfold vis. rewrite Hcell. by destruct (cell (gs_grid s) q).
  - intros q Hq. eapply rtc_subrel; [|apply (inv_reach _ _ Hinv)].
    + intros a b. by apply passage_walls_eq.
    + by eapply inv_all_visited.
  - intros c Hc. apply (inv_acyclic _ _ Hinv c). revert Hc.
    apply is_cycle_iff. by apply passage_walls_eq.
  - rewrite (passage_count_walls_eq _ _ Hw). by eapply inv_passage_count.
Qed.
End GeneratorRuns.

(** ** Movement along one direction *)

Lemma unit_cardinal_dir ddx ddy :
  unit_cardinal ddx ddy = true ↔ ∃ d, ddx = dvx d ∧ ddy = dvy d.
Proof.
  unfold unit_cardinal. rewrite bool_decide_eq_true, !elem_of_cons. split.
  - intros [[= -> ->]|[[= -> ->]|[[= -> ->]|[[= -> ->]|H]]]].
    + by exists DN.
    + by exists DE.
    + by exists DS.
    + by exists DW.
    + by apply not_elem_of_nil in H.
  - intros [[] [-> ->]]; simpl; tauto.
Qed.

Lemma cardinal_bit_dir d : cardinal_bit (dvx d) (dvy d) = dbit d.
Proof. by destruct d. Qed.

Lemma try_move_dir g a d :
  wf_grid g = true → inb a = true →
  try_move g (P_x a) (P_y a) (dvx d) (dvy d) =
  Some (if inb (step a d) && negb (wall g a d)
        then (P_x (step a d), P_y (step a d), true)
        else (P_x a, P_y a, false)).
Proof.
  intros Hwf Ha. unfold try_move.
  change (in_bounds (P_x a + dvx d) (P_y a + dvy d)) with (inb (step a d)).
  change (rd g (P_x a) (P_y a)) with (cell g a).
  destruct (inb (step a d)); [|done]. cbn [negb andb].
  destruct (proj2 (cell_inb g a Hwf) Ha) as [c Hc].
  rewrite Hc, (wall_cell _ _ _ d Hc). run_bind.
  destruct d; simpl; destruct (tst (walls c) _); done.
Qed.

(** ** Keys, paths and regeneration *)

Lemma goal_inb : inb goal = true.
Proof. reflexivity. Qed.

Lemma origin_inb : inb (mkP 0 0) = true.
Proof. reflexivity. Qed.

Section SessionProofs.
Variable rand : nat → Z.
Hypothesis rand_nonneg : ∀ i, 0 ≤ rand i.

(** While the latch is set, an arrow key changes nothing. *)
Lemma on_keydown_arrow_won d st :
  s_won st = true → on_keydown rand (arrow d) st = Some st.
Proof.
  intros Hwon. unfold on_keydown.
  destruct d; simpl; rewrite Hwon; done.
Qed.

(** While it is clear, an arrow key is one [try_move] followed by the
    win check. *)
Lemma on_keydown_arrow d st :
  s_won st = false → wf_grid (s_grid st) = true →
  inb (mkP (s_px st) (s_py st)) = true →
  let a := mkP (s_px st) (s_py st) in
  let b := if inb (step a d) && negb (wall (s_grid st) a d) then step a d else a in
  let st1 := set_player (P_x b) (P_y b) st in
  on_keydown rand (arrow d) st =
  Some (if decide (b = goal) then set_title title_won (set_won true st1) else st1).
Proof.
  intros Hwon Hwf Ha a b st1.
  pose proof (try_move_dir (s_grid st) a d Hwf Ha) as Hmove.
  fold b in Hmove.
  assert (Hmp : move_player (dvx d) (dvy d) st = Some st1).
  { unfold move_player. change (s_px st) with (P_x a). change (s_py st) with (P_y a).
    rewrite Hmove. unfold b, st1.
    by destruct (inb (step a d) && negb (wall (s_grid st) a d)). }
  assert (Hwon1 : s_won st1 = false) by done.
  assert (Hgoal : (s_px st1 =? MAZE_W - 1) && (s_py st1 =? MAZE_H - 1)
                  = bool_decide (b = goal)).
  { unfold st1, goal. simpl. destruct b as [bx by']. simpl.
    destruct (Z.eqb_spec bx (MAZE_W - 1)), (Z.eqb_spec by' (MAZE_H - 1)); simpl;
      symmetry; (apply bool_decide_eq_true || apply bool_decide_eq_false);
      congruence. }
  clearbody st1 b. unfold on_keydown.
  destruct d; simpl in Hmp |- *; rewrite Hwon; simpl; rewrite Hmp; simpl;
    rewrite Hgoal; (case_bool_decide;
    [by rewrite decide_True | by rewrite decide_False]).
Qed.

Lemma arrow_tracking g st a d :
  wf_grid g = true → s_grid st = g → tracking st a →
  inb a = true → inb (step a d) = true → wall g a d = false →
  ∃ st', on_keydown rand (arrow d) st = Some st' ∧ s_grid st' = g ∧
         tracking st' (step a d).
Proof.
  intros Hwf Hg [[Hwon Ht]|(Hwon & Hx & Hy & Hne)] Ha Hm Hw.
  - exists st. split; [by apply on_keydown_arrow_won|]. split; [done|]. by left.
  - assert (Heq : mkP (s_px st) (s_py st) = a) by (destruct a; simpl in *; congruence).
    pose proof (on_keydown_arrow d st Hwon) as Hk. cbv zeta in Hk.
    rewrite Heq, Hg, Hm, Hw in Hk. cbn [andb negb] in Hk.
    rewrite Hk by done.
    destruct (decide (step a d = goal)) as [Hgoal|Hgoal];
      eexists; (split; [done|]); (split; [done|]).
    + by left.
    + right. by split_and!.
Qed.

Lemma walk_path g a b :
  wf_grid g = true → rtc (passage g) a b →
  ∃ ds : list Dir,
    walk g (P_x a) (P_y a) (delta <$> ds) = Some (P_x b, P_y b, true) ∧
    ∀ st, s_grid st = g → tracking st a →
      ∃ st', run_events rand (SDL_KEYDOWN ∘ arrow <$> ds) st = Some st' ∧
             s_grid st' = g ∧ tracking st' b.
Proof.
  intros Hwf Hpath. induction Hpath as [a|a m b Hstep Hpath IH].
  - exists []. split; [done|]. intros st Hg Ht. by exists st.
  - destruct Hstep as (Ha & Hm & d & -> & Hw).
    destruct IH as (ds & Hwalk & Hrun).
    exists (d :: ds). split.
    + cbn [fmap list_fmap walk delta]. rewrite (try_move_dir g a d Hwf Ha).
      rewrite Hm, Hw. cbn [andb negb mbind option_bind fst snd].
      fold (delta <$> ds). rewrite Hwalk. done.
    + intros st Hg Ht.
      destruct (arrow_tracking g st a d Hwf Hg Ht Ha Hm Hw) as (st1 & Hk & Hg1 & Ht1).
      destruct (Hrun st1 Hg1 Ht1) as (st' & Hr & Hg' & Ht').
      exists st'. cbn [fmap list_fmap run_events on_event compose].
      rewrite Hk. run_bind. done.
Qed.

Lemma regenerate_spec st :
  wf_grid (s_grid st) = true →
  ∃ g0 g' calls',
    maze_init (s_grid st) = Some g0 ∧
    maze_generate rand gen_fuel (s_calls st) g0 0 0 = Some (g', calls') ∧
    regenerate rand st =
      Some (mkSession g' 0 0 (s_running st) (s_won st) title_playing calls') ∧
    wf_grid g' = true ∧ reciprocal g' ∧ spanning_tree g' ∧ (∀ q, vis g' q = false).
Proof using rand_nonneg.
  intros Hwf.
  destruct (maze_init_spec (s_grid st) Hwf) as (g0 & Hinit & Hg0).
  destruct (maze_generate_spec rand rand_nonneg gen_fuel (s_calls st) g0 (mkP 0 0)
              Hg0 origin_inb (le_n _))
    as (g' & calls' & Hgen & Hwf' & Hrec & Hvis & Hconn & Hacyc & Hcnt).
  cbn [P_x P_y] in Hgen.
  exists g0, g', calls'. unfold regenerate.
  rewrite Hinit. run_bind. rewrite Hgen. cbn [mbind option_bind fst snd].
  by split_and!.
Qed.
End SessionProofs.

(** ** The fully walled array *)

Lemma full_grid_wf : wf_grid full_grid = true.
Proof. reflexivity. Qed.

Lemma full_grid_cell q :
  inb q = true → cell full_grid q = Some (mkCell full_walls false).
Proof.
  intros [Hx Hy]%inb_spec. unfold cell, rd, full_grid.
  destruct (Z.leb_spec 0 (P_y q)); [|lia]. destruct (Z.leb_spec 0 (P_x q)); [|lia].
  cbn [andb]. rewrite lookup_replicate_2 by lia. cbn [mbind option_bind].
  by rewrite lookup_replicate_2 by lia.
Qed.

(** Two arrays of the right shape with the same cells are equal. *)
Lemma grid_ext (g1 g2 : Grid) :
  wf_grid g1 = true → wf_grid g2 = true →
  (∀ q, inb q = true → cell g1 q = cell g2 q) → g1 = g2.
Proof.
  intros [Hl1 Hr1]%wf_grid_spec [Hl2 Hr2]%wf_grid_spec Hcell.
  rewrite Forall_lookup in Hr1, Hr2.
  apply list_eq. intros i.
  destruct (decide (i < Z.to_nat MAZE_H)%nat) as [Hi|Hi].
  - destruct (lookup_lt_is_Some_2 g1 i) as [r1 H1]; [lia|].
    destruct (lookup_lt_is_Some_2 g2 i) as [r2 H2]; [lia|].
    rewrite H1, H2. f_equal. apply list_eq. intros j.
    destruct (decide (j < Z.to_nat MAZE_W)%nat) as [Hj|Hj].
    + specialize (Hcell (mkP (Z.of_nat j) (Z.of_nat i))).
      unfold cell, rd in Hcell. cbn [P_x P_y] in Hcell.
      destruct (Z.leb_spec 0 (Z.of_nat i)); [|lia].
      destruct (Z.leb_spec 0 (Z.of_nat j)); [|lia].
      cbn [andb] in Hcell. rewrite !Nat2Z.id, H1, H2 in Hcell.
      apply Hcell. apply inb_spec. cbn [P_x P_y]. lia.
    + rewrite !lookup_ge_None_2; [done | rewrite (Hr2 _ _ H2) | rewrite (Hr1 _ _ H1)]; lia.
  - rewrite !lookup_ge_None_2; [done | lia | lia].
Qed.

(** [maze_init] leaves the fully walled array, whatever it is given. *)
Lemma maze_init_full (g : Grid) :
  wf_grid g = true → maze_init g = Some full_grid.
Proof.
  intros Hwf. destruct (maze_init_spec g Hwf) as (g0 & Hinit & Hwf0 & Hcell).
  rewrite Hinit. apply (f_equal Some). apply grid_ext; [done | apply full_grid_wf |].
  intros q Hq. by rewrite (Hcell q Hq), (full_grid_cell q Hq).
Qed.

(** ** The zero-initialised array *)

Lemma static_grid_wf : wf_grid static_grid = true.
Proof. reflexivity. Qed.

Lemma static_grid_cell q :
  inb q = true → cell static_grid q = Some (mkCell 0 false).
Proof.
  intros [Hx Hy]%inb_spec. unfold cell, rd, static_grid.
  destruct (Z.leb_spec 0 (P_y q)); [|lia]. destruct (Z.leb_spec 0 (P_x q)); [|lia].
  cbn [andb]. rewrite lookup_replicate_2 by lia. run_bind.
  by rewrite lookup_replicate_2 by lia.
Qed.

Lemma static_grid_reciprocal : reciprocal static_grid.
Proof.
  intros a d Ha Hs.
  by rewrite (wall_cell _ _ _ d (static_grid_cell a Ha)),
             (wall_cell _ _ _ (dopp d) (static_grid_cell _ Hs)).
Qed.

(** ** The vocabulary tells mazes apart *)

(** Without any wall the grid has cycles. *)
Lemma static_grid_cycle :
  is_cycle (passage static_grid) [mkP 0 0; mkP 1 0; mkP 1 1; mkP 0 1].
Proof.
  split_and!.
  - refine (bool_decide_unpack _ _). vm_compute. exact I.
  - simpl. lia.
  - intros i a b Ha Hb.
    assert (Hp : ∀ p d, inb p = true → inb (step p d) = true →
                        passage static_grid p (step p d)).
    { intros p d Hin Hs. repeat split; try done. exists d. split; [done|].
      by rewrite (wall_cell _ _ _ d (static_grid_cell p Hin)). }
    destruct i as [|[|[|[|i]]]]; simpl in Ha, Hb; [..|done];
      injection Ha as <-; injection Hb as <-.
    + by apply (Hp (mkP 0 0) DE).
    + by apply (Hp (mkP 1 0) DS).
    + by apply (Hp (mkP 1 1) DW).
    + by apply (Hp (mkP 0 1) DN).
Qed.

Lemma static_grid_not_acyclic : ¬ acyclic (passage static_grid).
Proof. intros Hac. exact (Hac _ static_grid_cycle). Qed.

(** With every wall in place no cell but [(0,0)] is reachable. *)
Lemma init_grid_not_connected g : init_grid g → ¬ connected g.
Proof.
  intros Hinit Hconn. specialize (Hconn (mkP 1 0) eq_refl).
  inversion Hconn as [|a m b (Ha & _ & d & _ & Hw) _]; subst.
  by rewrite (init_grid_wall g) in Hw.
Qed.

(** ** Concrete runs *)

Example maze_init_static :
  maze_init static_grid = Some (replicate 15 (replicate 21 (mkCell 15 false))).
Proof. vm_compute. reflexivity. Qed.

Example knock_down_east :
  (g0 ← maze_init static_grid; g1 ← knock_down g0 0 0 1 0;
   Some (rd g1 0 0, rd g1 1 0, rd g1 0 1)) =
  Some (Some (mkCell 13 false), Some (mkCell 7 false), Some (mkCell 15 false)).
Proof. vm_compute. reflexivity. Qed.

(** Knocking towards a cell outside the array is a fault. *)
Example knock_down_outside :
  (g0 ← maze_init static_grid; knock_down g0 20 0 21 0) = None.
Proof. vm_compute. reflexivity. Qed.

Example try_move_samples :
  (g0 ← maze_init static_grid; g1 ← knock_down g0 0 0 1 0;
   Some (try_move g1 0 0 1 0, try_move g1 1 0 (-1) 0, try_move g1 0 0 0 1,
         try_move g1 0 0 (-1) 0, try_move g1 0 0 1 1)) =
  Some (Some (1, 0, true), Some (0, 0, true), Some (0, 0, false),
        Some (0, 0, false), Some (1, 1, true)).
Proof. vm_compute. reflexivity. Qed.

(** With [rand] always returning 0 the generator takes the first
    unvisited neighbour each time: 314 passages, 314 calls of [rand]. *)
Example generate_first_neighbour :
  (g0 ← maze_init static_grid; r ← maze_generate (λ _, 0) gen_fuel 0 g0 0 0;
   Some (passage_count r.1, r.2, rd r.1 0 0, rd r.1 20 0)) =
  Some (314%nat, 314%nat, Some (mkCell 13 false), Some (mkCell 3 false)).
Proof. vm_compute. reflexivity. Qed.

Example stack_after_five_iterations :
  (g0 ← maze_init static_grid; s0 ← gen_start 0 g0 0 0;
   s ← gen_iter (λ _, 0) 5 s0; Some (gs_stack s, top s)) =
  Some ([mkP 5 0; mkP 4 0; mkP 3 0; mkP 2 0; mkP 1 0; mkP 0 0], 6).
Proof. vm_compute. reflexivity. Qed.

(** ** The properties of the specification *)

(** C1. After [maze_init] followed by [maze_generate(0,0)], for any
    stream of [rand] results, the graph whose nodes are the cells and whose
    edges are the missing walls between adjacent cells is an undirected
    graph and a spanning tree of the grid: every cell is reachable from
    [(0,0)] through passages, there is no cycle, and there are exactly
    [W*H - 1] passages. *)
Theorem generated_maze_spanning_tree (rand : nat → Z) (g : Grid) (fuel calls : nat) :
  (∀ i, 0 ≤ rand i) → wf_grid g = true → (gen_fuel ≤ fuel)%nat →
  ∃ g0 g' calls',
    maze_init g = Some g0 ∧
    maze_generate rand fuel calls g0 0 0 = Some (g', calls') ∧
    (∀ a b, passage g' a b → passage g' b a) ∧
    spanning_tree g'.
Proof.
  intros Hrand Hwf Hfuel.
  destruct (maze_init_spec g Hwf) as (g0 & Hinit & Hg0).
  destruct (maze_generate_spec rand Hrand fuel calls g0 (mkP 0 0) Hg0 origin_inb Hfuel)
    as (g' & calls' & Hgen & _ & Hrec & _ & Hconn & Hacyc & Hcnt).
  exists g0, g', calls'. split_and!; try done.
  intros a b. by apply passage_sym.
Qed.

Lemma generated_maze_spanning_tree_witness :
  ∃ g0 g' calls',
    maze_init static_grid = Some g0 ∧
    maze_generate (λ _, 0) gen_fuel 0 g0 0 0 = Some (g', calls') ∧
    (∀ a b, passage g' a b → passage g' b a) ∧
    spanning_tree g'.
Proof.
  apply (generated_maze_spanning_tree (λ _, 0) static_grid gen_fuel 0%nat).
  - intros i. lia.
  - reflexivity.
  - apply le_n.
Defined.

(** C2. Wall reciprocity: for every pair of 4-adjacent cells, the wall
    bit of the one towards the other is set iff the facing bit of the
    other is set.  It holds after [maze_init]; [knock_down] on an adjacent
    pair of cells preserves it; it holds in every state of the generation
    loop and after [maze_generate]. *)
Theorem wall_reciprocity (rand : nat → Z) (g h : Grid) (x y nx ny sx sy : Z)
    (fuel calls : nat) :
  (∀ i, 0 ≤ rand i) → wf_grid g = true →
  wf_grid h = true → reciprocal h →
  in_bounds x y = true → in_bounds nx ny = true →
  unit_cardinal (nx - x) (ny - y) = true →
  in_bounds sx sy = true → (gen_fuel ≤ fuel)%nat →
  (∃ h', knock_down h x y nx ny = Some h' ∧ reciprocal h') ∧
  ∃ g0 s0 g' calls',
    maze_init g = Some g0 ∧ reciprocal g0 ∧
    gen_start calls g0 sx sy = Some s0 ∧
    (∀ n, ∃ s, gen_iter rand n s0 = Some s ∧ reciprocal (gs_grid s)) ∧
    maze_generate rand fuel calls g0 sx sy = Some (g', calls') ∧
    reciprocal g'.
Proof.
  intros Hrand Hwf Hwfh Hrec Hxy Hn Hcard Hs Hfuel. split.
  - apply unit_cardinal_dir in Hcard as (d & Hdx & Hdy).
    assert (Hstep : mkP nx ny = step (mkP x y) d)
      by (unfold step; simpl; f_equal; lia).
    assert (Hn' : inb (step (mkP x y) d) = true) by by rewrite <- Hstep.
    destruct (knock_down_adjacent h (mkP x y) d Hwfh Hxy Hn')
      as (h' & Hk & _ & _ & Hw).
    rewrite <- Hstep in Hk. exists h'. split; [done|].
    by apply (knocked_reciprocal h h' (mkP x y) d).
  - destruct (maze_init_spec g Hwf) as (g0 & Hinit & Hg0).
    destruct (maze_generate_run rand Hrand fuel calls g0 (mkP sx sy) Hg0 Hs Hfuel)
      as (s0 & s & g' & Hs0 & Hinv0 & _ & Hinv & _ & _ & _ & Hcell & Hgen).
    exists g0, s0, g', (gs_calls s). split_and!; try done.
    + intros a d Ha Hb. by rewrite !(init_grid_wall g0).
    + intros n. destruct (gen_iter_inv rand Hrand (mkP sx sy) n s0 Hinv0)
        as (s' & Hit & Hinv' & _).
      exists s'. split; [done|]. apply (inv_recip _ _ Hinv').
    + apply (reciprocal_walls_eq (gs_grid s)); [|apply (inv_recip _ _ Hinv)].
      intros q d. unfold wall. rewrite Hcell. by destruct (cell (gs_grid s) q).
Qed.

Lemma wall_reciprocity_witness :
  (∃ h', knock_down static_grid 3 4 3 5 = Some h' ∧ reciprocal h') ∧
  ∃ g0 s0 g' calls',
    maze_init static_grid = Some g0 ∧ reciprocal g0 ∧
    gen_start 0 g0 2 1 = Some s0 ∧
    (∀ n, ∃ s, gen_iter (λ i, Z.of_nat i) n s0 = Some s ∧ reciprocal (gs_grid s)) ∧
    maze_generate (λ i, Z.of_nat i) gen_fuel 0 g0 2 1 = Some (g', calls') ∧
    reciprocal g'.
Proof.
  apply (wall_reciprocity (λ i, Z.of_nat i) static_grid static_grid 3 4 3 5 2 1
           gen_fuel 0%nat).
  - intros i. lia.
  - reflexivity.
  - reflexivity.
  - exact static_grid_reciprocal.
  - reflexivity.
  - reflexivity.
  - reflexivity.
  - reflexivity.
  - apply le_n.
Defined.

(** C3. For an in-bounds player and a unit-cardinal delta, [try_move]
    returns [false] and leaves the player where it is when the target is
    out of bounds or the wall bit of the source cell for that direction
    (N for [dy = -1], E for [dx = 1], S for [dy = 1], W for [dx = -1]) is
    set; otherwise it moves the player to the target and returns [true]. *)
Theorem try_move_unit_cardinal (g : Grid) (px py ddx ddy : Z) :
  wf_grid g = true → in_bounds px py = true → unit_cardinal ddx ddy = true →
  ∃ c, rd g px py = Some c ∧
       try_move g px py ddx ddy =
       Some (if negb (in_bounds (px + ddx) (py + ddy))
                || tst (walls c) (cardinal_bit ddx ddy)
             then (px, py, false)
             else (px + ddx, py + ddy, true)).
Proof.
  intros Hwf Hin (d & -> & ->)%unit_cardinal_dir.
  destruct (proj2 (cell_inb g (mkP px py) Hwf) Hin) as [c Hc].
  exists c. split; [done|].
  pose proof (try_move_dir g (mkP px py) d Hwf Hin) as Hmove.
  rewrite (wall_cell _ _ _ d Hc) in Hmove. cbn [P_x P_y] in Hmove.
  rewrite Hmove, cardinal_bit_dir.
  change (inb (step (mkP px py) d)) with (in_bounds (px + dvx d) (py + dvy d)).
  by destruct (in_bounds (px + dvx d) (py + dvy d)), (tst (walls c) (dbit d)).
Qed.

Lemma try_move_unit_cardinal_witness :
  ∃ c, rd static_grid 20 14 = Some c ∧
       try_move static_grid 20 14 1 0 =
       Some (if negb (in_bounds (20 + 1) (14 + 0)) || tst (walls c) (cardinal_bit 1 0)
             then (20, 14, false)
             else (20 + 1, 14 + 0, true)).
Proof.
  apply (try_move_unit_cardinal static_grid 20 14 1 0); reflexivity.
Defined.

(** C4. From a grid in its [maze_init] state and an in-bounds start cell,
    every state of the loop of [maze_generate] has a stack depth [top] of
    at most [W*H]: no push overruns the buffer of [MAZE_W * MAZE_H]
    entries (a push beyond it would be a fault, and none occurs), up to
    and including the state in which the loop exits. *)
Theorem stack_depth_bounded (rand : nat → Z) (g : Grid) (sx sy : Z)
    (fuel calls n : nat) :
  (∀ i, 0 ≤ rand i) → wf_grid g = true → in_bounds sx sy = true →
  (gen_fuel ≤ fuel)%nat →
  ∃ g0 s0 s send,
    maze_init g = Some g0 ∧
    gen_start calls g0 sx sy = Some s0 ∧
    gen_iter rand n s0 = Some s ∧ 0 ≤ top s ≤ MAZE_W * MAZE_H ∧
    gen_loop rand fuel s0 = Some send ∧ gen_iter rand fuel s0 = Some send ∧
    top send = 0.
Proof.
  intros Hrand Hwf Hs Hfuel.
  destruct (maze_init_spec g Hwf) as (g0 & Hinit & Hg0).
  destruct (maze_generate_run rand Hrand fuel calls g0 (mkP sx sy) Hg0 Hs Hfuel)
    as (s0 & send & g' & Hs0 & Hinv0 & Hloop & _ & Hempty & _).
  destruct (gen_iter_inv rand Hrand (mkP sx sy) n s0 Hinv0) as (s & Hit & Hinv & _).
  exists g0, s0, s, send. split_and!; try done.
  - unfold top. lia.
  - by eapply inv_top.
  - by apply gen_loop_iter.
  - unfold top. by rewrite Hempty.
Qed.

Lemma stack_depth_bounded_witness :
  ∃ g0 s0 s send,
    maze_init static_grid = Some g0 ∧
    gen_start 0 g0 0 0 = Some s0 ∧
    gen_iter (λ _, 1) 300 s0 = Some s ∧ 0 ≤ top s ≤ MAZE_W * MAZE_H ∧
    gen_loop (λ _, 1) gen_fuel s0 = Some send ∧
    gen_iter (λ _, 1) gen_fuel s0 = Some send ∧
    top send = 0.
Proof.
  apply (stack_depth_bounded (λ _, 1) static_grid 0 0 gen_fuel 0%nat 300%nat).
  - intros i. lia.
  - reflexivity.
  - reflexivity.
  - apply le_n.
Defined.

(** C5. After [maze_generate] returns, the visited flag of every cell is
    false.  During the loop a visited flag that is set stays set in all
    later states (it is cleared only by the final reset loop), so each
    flag goes from false to true in at most one iteration. *)
Theorem visited_flags (rand : nat → Z) (g : Grid) (sx sy : Z) (fuel calls : nat) :
  (∀ i, 0 ≤ rand i) → wf_grid g = true → in_bounds sx sy = true →
  (gen_fuel ≤ fuel)%nat →
  ∃ g0 s0 send g' calls',
    maze_init g = Some g0 ∧
    gen_start calls g0 sx sy = Some s0 ∧
    gen_iter rand fuel s0 = Some send ∧ gs_stack send = [] ∧
    for_cells (set_visited false) (gs_grid send) = Some g' ∧
    maze_generate rand fuel calls g0 sx sy = Some (g', calls') ∧
    (∀ q c, cell g' q = Some c → visited c = false) ∧
    (∀ q, vis g0 q = false) ∧
    (∀ i j si sj q, (i ≤ j)%nat →
       gen_iter rand i s0 = Some si → gen_iter rand j s0 = Some sj →
       vis (gs_grid si) q = true → vis (gs_grid sj) q = true) ∧
    (∀ i j si si' sj sj' q,
       gen_iter rand i s0 = Some si → gen_iter rand (S i) s0 = Some si' →
       gen_iter rand j s0 = Some sj → gen_iter rand (S j) s0 = Some sj' →
       vis (gs_grid si) q = false → vis (gs_grid si') q = true →
       vis (gs_grid sj) q = false → vis (gs_grid sj') q = true →
       i = j).
Proof.
  intros Hrand Hwf Hs Hfuel.
  destruct (maze_init_spec g Hwf) as (g0 & Hinit & Hg0).
  destruct (maze_generate_run rand Hrand fuel calls g0 (mkP sx sy) Hg0 Hs Hfuel)
    as (s0 & send & g' & Hs0 & Hinv0 & Hloop & _ & Hempty & Hfor & _ & Hcell & Hgen).
  assert (Hmono : ∀ i j si sj q, (i ≤ j)%nat →
            gen_iter rand i s0 = Some si → gen_iter rand j s0 = Some sj →
            vis (gs_grid si) q = true → vis (gs_grid sj) q = true).
  { intros i j si sj q Hij Hi Hj Hq.
    replace j with (i + (j - i))%nat in Hj by lia.
    rewrite gen_iter_add, Hi in Hj. cbn [mbind option_bind] in Hj.
    destruct (gen_iter_inv rand Hrand (mkP sx sy) i s0 Hinv0) as (si0 & Hi0 & Hinvi & _).
    assert (si0 = si) as -> by congruence.
    destruct (gen_iter_inv rand Hrand (mkP sx sy) (j - i) si Hinvi) as (sj0 & Hj0 & _ & Hv).
    assert (sj0 = sj) as -> by congruence. by apply Hv. }
  exists g0, s0, send, g', (gs_calls send). split_and!; try done.
  - by apply gen_loop_iter.
  - intros q c Hc. rewrite Hcell in Hc.
    destruct (cell (gs_grid send) q); [|done]. by injection Hc as <-.
  - intros q. by apply init_grid_vis.
  - intros i j si si' sj sj' q Hi Hi' Hj Hj' H1 H2 H3 H4.
    destruct (Nat.lt_trichotomy i j) as [Hlt|[Heq|Hgt]]; [|done|]; exfalso.
    + pose proof (Hmono (S i) j si' sj q ltac:(lia) Hi' Hj H2). congruence.
    + pose proof (Hmono (S j) i sj' si q ltac:(lia) Hj' Hi H4). congruence.
Qed.

Lemma visited_flags_witness :
  ∃ g0 s0 send g' calls',
    maze_init static_grid = Some g0 ∧
    gen_start 7 g0 5 5 = Some s0 ∧
    gen_iter (λ _, 2) gen_fuel s0 = Some send ∧ gs_stack send = [] ∧
    for_cells (set_visited false) (gs_grid send) = Some g' ∧
    maze_generate (λ _, 2) gen_fuel 7 g0 5 5 = Some (g', calls') ∧
    (∀ q c, cell g' q = Some c → visited c = false) ∧
    (∀ q, vis g0 q = false) ∧
    (∀ i j si sj q, (i ≤ j)%nat →
       gen_iter (λ _, 2) i s0 = Some si → gen_iter (λ _, 2) j s0 = Some sj →
       vis (gs_grid si) q = true → vis (gs_grid sj) q = true) ∧
    (∀ i j si si' sj sj' q,
       gen_iter (λ _, 2) i s0 = Some si → gen_iter (λ _, 2) (S i) s0 = Some si' →
       gen_iter (λ _, 2) j s0 = Some sj → gen_iter (λ _, 2) (S j) s0 = Some sj' →
       vis (gs_grid si) q = false → vis (gs_grid si') q = true →
       vis (gs_grid sj) q = false → vis (gs_grid sj') q = true →
       i = j).
Proof.
  apply (visited_flags (λ _, 2) static_grid 5 5 gen_fuel 7%nat).
  - intros i. lia.
  - reflexivity.
  - reflexivity.
  - apply le_n.
Defined.

(** C6. Movement symmetry: on a grid that satisfies wall reciprocity, if
    [try_move] from an in-bounds cell A with a unit-cardinal delta [d]
    succeeds and moves the player to B, then [try_move] from B with [-d]
    succeeds and moves the player back to A. *)
Theorem try_move_symmetric (g : Grid) (ax ay ddx ddy bx by' : Z) :
  wf_grid g = true → reciprocal g →
  in_bounds ax ay = true → unit_cardinal ddx ddy = true →
  try_move g ax ay ddx ddy = Some (bx, by', true) →
  try_move g bx by' (- ddx) (- ddy) = Some (ax, ay, true).
Proof.
  intros Hwf Hrec Ha (d & -> & ->)%unit_cardinal_dir Hmove.
  change (inb (mkP ax ay) = true) in Ha.
  pose proof (try_move_dir g (mkP ax ay) d Hwf Ha) as Hfwd.
  cbn [P_x P_y] in Hfwd. rewrite Hfwd in Hmove.
  destruct (inb (step (mkP ax ay) d)) eqn:Hb; [|done].
  destruct (wall g (mkP ax ay) d) eqn:Hw; [done|].
  cbn [andb negb] in Hmove. injection Hmove as <- <-.
  pose proof (try_move_dir g (step (mkP ax ay) d) (dopp d) Hwf Hb) as Hback.
  rewrite step_opp, <- Hrec, Hw, Ha in Hback by done.
  cbn [andb negb P_x P_y] in Hback.
  replace (- dvx d) with (dvx (dopp d)) by by destruct d.
  replace (- dvy d) with (dvy (dopp d)) by by destruct d.
  exact Hback.
Qed.

Lemma try_move_symmetric_witness :
  try_move static_grid 4 2 (- 0) (- -1) = Some (4, 3, true).
Proof.
  apply (try_move_symmetric static_grid 4 3 0 (-1) 4 2).
  - reflexivity.
  - exact static_grid_reciprocal.
  - reflexivity.
  - reflexivity.
  - reflexivity.
Defined.

(** C9. For a delta that is not one of the four unit cardinals and whose
    target is in bounds, [try_move] tests no wall: whatever the grid
    holds, it moves the (in-bounds) player to the target and returns
    [true]. *)
Theorem try_move_other_delta (g : Grid) (px py ddx ddy : Z) :
  wf_grid g = true → in_bounds px py = true →
  unit_cardinal ddx ddy = false →
  in_bounds (px + ddx) (py + ddy) = true →
  try_move g px py ddx ddy = Some (px + ddx, py + ddy, true).
Proof.
  intros Hwf Hin Hcard Htgt. unfold try_move. rewrite Htgt. cbn [negb].
  destruct (proj2 (rd_Some g px py Hwf) Hin) as [c ->]. run_bind.
  assert (Hno : ∀ d, ¬ (ddx = dvx d ∧ ddy = dvy d)).
  { intros d Hd. assert (unit_cardinal ddx ddy = true)
      by (apply unit_cardinal_dir; eauto). congruence. }
  pose proof (Hno DN) as HN. pose proof (Hno DE) as HE.
  pose proof (Hno DS) as HS. pose proof (Hno DW) as HW. simpl in HN, HE, HS, HW.
  destruct (Z.eqb_spec ddx 0), (Z.eqb_spec ddy (-1)), (Z.eqb_spec ddx 1),
    (Z.eqb_spec ddy 0), (Z.eqb_spec ddy 1), (Z.eqb_spec ddx (-1));
    cbn [andb]; try done; lia.
Qed.

Lemma try_move_other_delta_witness :
  try_move (replicate 15 (replicate 21 (mkCell 15 false))) 3 3 1 1 =
  Some (3 + 1, 3 + 1, true).
Proof.
  apply (try_move_other_delta (replicate 15 (replicate 21 (mkCell 15 false))) 3 3 1 1);
    reflexivity.
Defined.

(** C10. For two cells that are not 4-adjacent (the delta
    [(nx - x, ny - y)] is none of (0,-1), (1,0), (0,1), (-1,0)),
    [knock_down] writes nothing: it returns the grid as it was, without a
    fault.  The coordinates need not be on the grid; they are [int]s such
    that the four sums [x + 1], [x - 1], [y + 1], [y - 1] that the function
    computes do not overflow. *)
Theorem knock_down_not_adjacent (g : Grid) (x y nx ny : Z) :
  is_int (x - 1) → is_int (x + 1) → is_int (y - 1) → is_int (y + 1) →
  is_int nx → is_int ny →
  unit_cardinal (nx - x) (ny - y) = false → knock_down g x y nx ny = Some g.
Proof.
  intros _ _ _ _ _ _ Hcard. apply knock_down_other. intros d Hd.
  assert (unit_cardinal (nx - x) (ny - y) = true); [|congruence].
  apply unit_cardinal_dir. exists d.
  unfold step in Hd. simpl in Hd. injection Hd as -> ->. lia.
Qed.

Lemma knock_down_not_adjacent_witness :
  knock_down static_grid 0 0 100 (-7) = Some static_grid.
Proof.
  apply (knock_down_not_adjacent static_grid 0 0 100 (-7));
    first [reflexivity | unfold is_int, INT_MIN, INT_MAX; lia].
Defined.

(** C7. Win reachability: in every maze produced by [maze_generate], for
    any stream of [rand] results, some finite sequence of unit-cardinal
    [try_move] steps takes the player from [(0,0)] to the goal cell
    [(W-1,H-1)], every step returning [true]; fed to the session as arrow
    keys from the freshly generated state, it sets the won latch. *)
Theorem win_reachable (rand : nat → Z) (g : Grid) (fuel calls : nat) :
  (∀ i, 0 ≤ rand i) → wf_grid g = true → (gen_fuel ≤ fuel)%nat →
  ∃ g0 g' calls' (ds : list Dir),
    maze_init g = Some g0 ∧
    maze_generate rand fuel calls g0 0 0 = Some (g', calls') ∧
    Forall (λ v, unit_cardinal v.1 v.2 = true) (delta <$> ds) ∧
    walk g' 0 0 (delta <$> ds) = Some (MAZE_W - 1, MAZE_H - 1, true) ∧
    ∀ st, s_grid st = g' → s_px st = 0 → s_py st = 0 → s_won st = false →
      ∃ st', run_events rand (SDL_KEYDOWN ∘ arrow <$> ds) st = Some st' ∧
             s_won st' = true ∧ s_title st' = title_won.
Proof.
  intros Hrand Hwf Hfuel.
  destruct (maze_init_spec g Hwf) as (g0 & Hinit & Hg0).
  destruct (maze_generate_spec rand Hrand fuel calls g0 (mkP 0 0) Hg0 origin_inb Hfuel)
    as (g' & calls' & Hgen & Hwf' & _ & _ & Hconn & _ & _).
  destruct (walk_path rand g' (mkP 0 0) goal Hwf' (Hconn goal goal_inb))
    as (ds & Hwalk & Hrun).
  exists g0, g', calls', ds. split_and!; try done.
  - apply Forall_fmap, Forall_forall. intros d _. simpl.
    apply unit_cardinal_dir. by exists d.
  - intros st Hg Hx Hy Hwon.
    destruct (Hrun st Hg) as (st' & Hev & _ & Ht).
    { right. by split_and!. }
    exists st'. split; [done|].
    by destruct Ht as [[? ?]|(_ & _ & _ & ?)].
Qed.

Lemma win_reachable_witness :
  ∃ g0 g' calls' (ds : list Dir),
    maze_init static_grid = Some g0 ∧
    maze_generate (λ i, Z.of_nat i) gen_fuel 0 g0 0 0 = Some (g', calls') ∧
    Forall (λ v, unit_cardinal v.1 v.2 = true) (delta <$> ds) ∧
    walk g' 0 0 (delta <$> ds) = Some (MAZE_W - 1, MAZE_H - 1, true) ∧
    ∀ st, s_grid st = g' → s_px st = 0 → s_py st = 0 → s_won st = false →
      ∃ st', run_events (λ i, Z.of_nat i) (SDL_KEYDOWN ∘ arrow <$> ds) st = Some st' ∧
             s_won st' = true ∧ s_title st' = title_won.
Proof.
  apply (win_reachable (λ i, Z.of_nat i) static_grid gen_fuel 0%nat).
  - intros i. lia.
  - reflexivity.
  - apply le_n.
Defined.

(** C8. The R key, in any session state (the Won state included), leads
    to the Playing state.  The grid is reset: [maze_init] leaves the fully
    walled, unvisited array, whatever maze the array held.  A maze is then
    generated from [(0,0)] on that array: the new grid is what
    [maze_generate] returns there, a spanning tree of the grid with
    reciprocal walls and every visited flag clear.  The player is at
    [(0,0)], the won latch is clear and the title is the playing title. *)
Theorem regenerate_key (rand : nat → Z) (st : Session) :
  (∀ i, 0 ≤ rand i) → wf_grid (s_grid st) = true →
  ∃ g' calls' st',
    maze_init (s_grid st) = Some full_grid ∧
    maze_generate rand gen_fuel (s_calls st) full_grid 0 0 = Some (g', calls') ∧
    on_event rand (SDL_KEYDOWN SDLK_r) st = Some st' ∧
    s_grid st' = g' ∧ s_calls st' = calls' ∧
    wf_grid g' = true ∧ reciprocal g' ∧ spanning_tree g' ∧
    (∀ q, vis g' q = false) ∧
    s_px st' = 0 ∧ s_py st' = 0 ∧
    s_won st' = false ∧ phase st' = Playing ∧
    s_title st' = title_playing ∧ s_running st' = s_running st.
Proof.
  intros Hrand Hwf.
  destruct (regenerate_spec rand Hrand st Hwf)
    as (g0 & g' & calls' & Hinit & Hgen & Hregen & Hwf' & Hrec & Htree & Hvis).
  assert (g0 = full_grid) as -> by (rewrite (maze_init_full _ Hwf) in Hinit; congruence).
  exists g', calls'. eexists. split; [done|]. split; [done|].
  cbn [on_event]. unfold on_keydown.
  rewrite (decide_False (P := SDLK_r = SDLK_ESCAPE)) by done.
  rewrite (decide_True (P := SDLK_r = SDLK_r)) by done.
  rewrite Hregen. cbn [mbind option_bind set_won s_won s_px s_py negb
                        s_grid s_running s_title s_calls].
  rewrite !decide_False by (intros [?|?]; done).
  cbn [mbind option_bind set_won s_won s_px s_py negb].
  change (0 =? MAZE_W - 1) with false. cbn [andb].
  by split_and!.
Qed.

Lemma regenerate_key_witness :
  ∃ g' calls' st',
    maze_init static_grid = Some full_grid ∧
    maze_generate (λ _, 3) gen_fuel 42 full_grid 0 0 = Some (g', calls') ∧
    on_event (λ _, 3) (SDL_KEYDOWN SDLK_r)
      (mkSession static_grid 20 14 true true title_won 42) = Some st' ∧
    s_grid st' = g' ∧ s_calls st' = calls' ∧
    wf_grid g' = true ∧ reciprocal g' ∧ spanning_tree g' ∧
    (∀ q, vis g' q = false) ∧
    s_px st' = 0 ∧ s_py st' = 0 ∧
    s_won st' = false ∧ phase st' = Playing ∧
    s_title st' = title_playing ∧ s_running st' = true.
Proof.
  apply (regenerate_key (λ _, 3) (mkSession static_grid 20 14 true true title_won 42)).
  - intros i. lia.
  - reflexivity.
Defined.

(** * Part IV: further properties of the code

    ** One iteration of the generator, case by case *)

Lemma at_index_elem {A} (l : list A) i a : at_index l i = Some a → a ∈ l.
Proof.
  unfold at_index. destruct (0 <=? i); [|done].
  intros H. apply list_elem_of_lookup. eauto.
Qed.

(** An iteration either pops the top cell, which has no unvisited
    neighbour, or carves towards one unvisited neighbour of the top cell,
    marks it and pushes it, consuming one value of [rand]. *)
Lemma gen_body_cases rand p0 s s' :
  gen_inv p0 s → gen_body rand s = Some s' →
  (∃ cur rest,
      gs_stack s = cur :: rest ∧ unvisited_neighbours (gs_grid s) cur = [] ∧
      s' = mkGen (gs_grid s) rest (gs_calls s)) ∨
  (∃ cur rest d g',
      gs_stack s = cur :: rest ∧
      inb cur = true ∧ vis (gs_grid s) cur = true ∧
      inb (step cur d) = true ∧ vis (gs_grid s) (step cur d) = false ∧
      s' = mkGen g' (step cur d :: cur :: rest) (S (gs_calls s)) ∧
      wf_grid g' = true ∧
      (∀ q d', wall g' q d' =
               if decide ((q = cur ∧ d' = d) ∨ (q = step cur d ∧ d' = dopp d))
               then false else wall (gs_grid s) q d') ∧
      (∀ q, vis g' q = if decide (q = step cur d) then true else vis (gs_grid s) q)).
Proof.
  intros Hinv Hbody. destruct s as [g [|cur rest] calls]; [done|].
  pose proof (inv_wf _ _ Hinv) as Hwf. cbn [gs_grid] in Hwf.
  assert (Hvc : vis g cur = true) by (apply (inv_stack _ _ Hinv); left).
  assert (Hc : inb cur = true) by (by apply (vis_inb g)).
  unfold gen_body in Hbody. cbn [gs_stack gs_grid gs_calls] in Hbody.
  rewrite (collect_spec g cur Hwf) in Hbody. cbn [mbind option_bind] in Hbody.
  destruct (unvisited_neighbours g cur) as [|n0 ns] eqn:Hneigh.
  - left. exists cur, rest. cbn [length Z.of_nat Z.eqb] in Hbody.
    injection Hbody as <-. by split_and!.
  - right. rewrite <- Hneigh in Hbody.
    destruct (Z.eqb_spec (Z.of_nat (length (unvisited_neighbours g cur))) 0) as [H0|_].
    { rewrite Hneigh in H0. cbn [length] in H0. lia. }
    destruct (at_index (unvisited_neighbours g cur) _) as [n|] eqn:Hpick; [|done].
    cbn [mbind option_bind] in Hbody.
    apply at_index_elem, elem_of_unvisited_neighbours in Hpick as (d & -> & Hin & Hvn).
    destruct (knock_down_adjacent g cur d Hwf Hc Hin) as (g1 & Hk & Hwf1 & Hv1 & Hw1).
    destruct (upd_visit g1 (step cur d) true Hwf1 Hin) as (g2 & Hu & Hwf2 & Hw2 & Hv2).
    rewrite Hk in Hbody. cbn [mbind option_bind] in Hbody. rewrite Hu in Hbody. cbn [mbind option_bind] in Hbody.
    unfold push in Hbody.
    destruct (Z.of_nat (length (cur :: rest)) <? MAZE_W * MAZE_H); [|done].
    cbn [mbind option_bind] in Hbody. injection Hbody as <-.
    exists cur, rest, d, g2. split_and!; try done.
    + intros q d'. by rewrite Hw2, Hw1.
    + intros q. by rewrite Hv2, Hv1.
Qed.

Lemma gen_start_cases calls g p0 s0 :
  wf_grid g = true → inb p0 = true →
  gen_start calls g (P_x p0) (P_y p0) = Some s0 →
  gs_stack s0 = [p0] ∧ gs_calls s0 = calls ∧
  (∀ q d, wall (gs_grid s0) q d = wall g q d) ∧
  (∀ q, vis (gs_grid s0) q = if decide (q = p0) then true else vis g q).
Proof.
  intros Hwf Hp0 Hstart.
  destruct (upd_visit g p0 true Hwf Hp0) as (g1 & Hu & _ & Hw1 & Hv1).
  unfold gen_start, push in Hstart. rewrite Hu in Hstart.
  cbn [mbind option_bind] in Hstart.
  destruct (Z.of_nat (length (@nil P)) <? MAZE_W * MAZE_H); [|done].
  cbn [mbind option_bind] in Hstart. injection Hstart as <-.
  destruct p0. by split_and!.
Qed.

Lemma count_lt {A} (f : A → bool) l x :
  x ∈ l → f x = false → (count f l < length l)%nat.
Proof.
  unfold count. induction l as [|y l IH]; intros Hx Hf.
  { by apply not_elem_of_nil in Hx. }
  pose proof (List.filter_length_le f l) as Hle. simpl.
  apply elem_of_cons in Hx as [<-|Hx].
  - rewrite Hf. lia.
  - specialize (IH Hx Hf). destruct (f y); simpl; lia.
Qed.

(** With an empty stack every cell has been visited. *)
Lemma inv_vis_count_full p0 s :
  gen_inv p0 s → gs_stack s = [] → vis_count (gs_grid s) = length all_cells.
Proof.
  intros Hinv Hempty. apply count_all.
  intros q Hq%elem_of_all_cells. by eapply inv_all_visited.
Qed.

Section GeneratorMore.
Variable rand : nat → Z.
Hypothesis rand_nonneg : ∀ i, 0 ≤ rand i.

(** A property kept by every iteration holds in every state of the loop. *)
Lemma gen_iter_preserves (Q : GenState → Prop) p0 :
  (∀ s s', gen_inv p0 s → Q s → gen_body rand s = Some s' → Q s') →
  ∀ n s s', gen_inv p0 s → Q s → gen_iter rand n s = Some s' →
            gen_inv p0 s' ∧ Q s'.
Proof using rand_nonneg.
  intros Hstep. induction n as [|n IH]; intros s s' Hinv HQ Hit.
  - cbn [gen_iter] in Hit. by injection Hit as <-.
  - cbn [gen_iter] in Hit. destruct (gs_stack s) as [|cur rest] eqn:Hs.
    + by injection Hit as <-.
    + destruct (gen_body_step rand rand_nonneg p0 s Hinv) as (s1 & Hb & Hinv1 & _).
      { by rewrite Hs. }
      rewrite Hb in Hit. cbn [mbind option_bind] in Hit.
      apply (IH s1 s'); try done. by apply (Hstep s).
Qed.

Lemma border_step p0 s s' :
  gen_inv p0 s → border_intact (gs_grid s) → gen_body rand s = Some s' →
  border_intact (gs_grid s').
Proof.
  intros Hinv Hb Hbody.
  destruct (gen_body_cases rand p0 s s' Hinv Hbody)
    as [(cur & rest & _ & _ & ->)|(cur & rest & d & g' & _ & Hc & _ & Hn & _ & -> & _ & Hw & _)];
    [done|].
  intros q d' Hq Hout. cbn [gs_grid]. rewrite Hw, decide_False; [by apply Hb|].
  intros [[-> ->]|[-> ->]]; [congruence|].
  rewrite step_opp in Hout. congruence.
Qed.

Lemma calls_step c0 p0 s s' :
  gen_inv p0 s → (gs_calls s + 1 = c0 + vis_count (gs_grid s))%nat →
  gen_body rand s = Some s' →
  (gs_calls s' + 1 = c0 + vis_count (gs_grid s'))%nat.
Proof.
  intros Hinv Hc Hbody.
  destruct (gen_body_cases rand p0 s s' Hinv Hbody)
    as [(cur & rest & _ & _ & ->)
       |(cur & rest & d & g' & _ & Hcur & Hvc & Hn & Hvn & -> & _ & Hw & Hv)];
    [done|].
  cbn [gs_grid gs_calls].
  rewrite (carve_vis_count (gs_grid s) g' cur d (inv_recip _ _ Hinv)
             (inv_fresh _ _ Hinv) Hcur Hn Hvc Hvn Hw Hv).
  lia.
Qed.

Lemma linked_step p0 s s' :
  gen_inv p0 s →
  linked (gs_grid s) (gs_stack s) ∧
    (gs_stack s = [] ∨ last (gs_stack s) = Some p0) →
  gen_body rand s = Some s' →
  linked (gs_grid s') (gs_stack s') ∧
    (gs_stack s' = [] ∨ last (gs_stack s') = Some p0).
Proof.
  intros Hinv [Hl Hlast] Hbody.
  destruct (gen_body_cases rand p0 s s' Hinv Hbody)
    as [(cur & rest & Hs & _ & ->)
       |(cur & rest & d & g' & Hs & Hcur & Hvc & Hn & Hvn & -> & _ & Hw & Hv)];
    cbn [gs_grid gs_stack]; rewrite Hs in Hl, Hlast;
    destruct Hlast as [?|Hlast]; try done.
  - split.
    + intros i a b Ha Hb. by apply (Hl (S i)).
    + destruct rest as [|r rest]; [by left | right]. by rewrite last_cons_cons in Hlast.
  - assert (Hpass : ∀ a b, passage (gs_grid s) a b → passage g' a b).
    { intros a b Hab.
      apply (carve_passage (gs_grid s) g' cur d (inv_recip _ _ Hinv)
               (inv_fresh _ _ Hinv) Hcur Hn Hvc Hvn Hw Hv). by left. }
    split.
    + intros [|i] a b Ha Hb.
      * injection Ha as <-. injection Hb as <-.
        apply (carve_passage (gs_grid s) g' cur d (inv_recip _ _ Hinv)
                 (inv_fresh _ _ Hinv) Hcur Hn Hvc Hvn Hw Hv). right. by left.
      * by apply Hpass, (Hl i).
    + right. by rewrite last_cons_cons.
Qed.

(** The measure counts the iterations that remain. *)
Lemma gen_iter_measure p0 : ∀ n s,
  gen_inv p0 s → (n ≤ measure s)%nat →
  ∃ s', gen_iter rand n s = Some s' ∧ gen_inv p0 s' ∧
        (measure s' + n = measure s)%nat.
Proof using rand_nonneg.
  induction n as [|n IH]; intros s Hinv Hn.
  - exists s. split_and!; [done | done | lia].
  - destruct (gs_stack s) as [|cur rest] eqn:Hs.
    { pose proof (inv_vis_count_full p0 s Hinv Hs) as Hfull.
      unfold measure in Hn. rewrite Hs, Hfull in Hn. cbn [length] in Hn. lia. }
    destruct (gen_body_step rand rand_nonneg p0 s Hinv) as (s1 & Hb & Hinv1 & Hm1 & _).
    { by rewrite Hs. }
    destruct (IH s1 Hinv1 ltac:(lia)) as (s' & Hit & Hinv' & Hm').
    exists s'. cbn [gen_iter]. rewrite Hs, Hb. cbn [mbind option_bind].
    split_and!; [done | done | lia].
Qed.

Lemma measure_zero_iff p0 s :
  gen_inv p0 s → (measure s = 0%nat ↔ gs_stack s = []).
Proof.
  intros Hinv. split.
  - unfold measure. intros Hm. destruct (gs_stack s); [done|]. cbn [length] in Hm. lia.
  - intros Hs. pose proof (inv_vis_count_full p0 s Hinv Hs) as Hfull.
    unfold measure. rewrite Hs, Hfull. cbn [length]. lia.
Qed.
End GeneratorMore.

(** ** Properties of the generated maze and of the run that produces it *)

(** X1. [maze_generate] never carves through the outer boundary: in the
    generated maze every wall that faces outside the grid is still set. *)
Theorem generated_border_intact (rand : nat → Z) (g : Grid) (sx sy : Z)
    (fuel calls : nat) :
  (∀ i, 0 ≤ rand i) → wf_grid g = true → in_bounds sx sy = true →
  (gen_fuel ≤ fuel)%nat →
  ∃ g0 g' calls',
    maze_init g = Some g0 ∧
    maze_generate rand fuel calls g0 sx sy = Some (g', calls') ∧
    border_intact g'.
Proof.
  intros Hrand Hwf Hs Hfuel.
  destruct (maze_init_spec g Hwf) as (g0 & Hinit & Hg0).
  destruct (maze_generate_run rand Hrand fuel calls g0 (mkP sx sy) Hg0 Hs Hfuel)
    as (s0 & s & g' & Hs0 & Hinv0 & Hloop & _ & _ & _ & _ & Hcell & Hgen).
  destruct (gen_start_cases calls g0 (mkP sx sy) s0 (proj1 Hg0) Hs Hs0)
    as (_ & _ & Hw0 & _).
  assert (Hb0 : border_intact (gs_grid s0)).
  { intros p d Hp _. rewrite Hw0. by apply init_grid_wall. }
  destruct (gen_iter_preserves rand Hrand (λ s, border_intact (gs_grid s)) (mkP sx sy)
              (border_step rand (mkP sx sy)) fuel s0 s Hinv0 Hb0
              (gen_loop_iter rand fuel s0 s Hloop)) as [_ Hb].
  exists g0, g', (gs_calls s). split_and!; try done.
  intros p d Hp Hout. unfold wall. rewrite Hcell.
  specialize (Hb p d Hp Hout). unfold wall in Hb.
  by destruct (cell (gs_grid s) p).
Qed.

Lemma generated_border_intact_witness :
  ∃ g0 g' calls',
    maze_init static_grid = Some g0 ∧
    maze_generate (λ i, Z.of_nat i) gen_fuel 0 g0 10 7 = Some (g', calls') ∧
    border_intact g'.
Proof.
  apply (generated_border_intact (λ i, Z.of_nat i) static_grid 10 7 gen_fuel 0%nat).
  - intros i. lia.
  - reflexivity.
  - reflexivity.
  - apply le_n.
Defined.

(** The number of calls of [rand] in one run of [maze_generate]. *)
Lemma generated_calls (rand : nat → Z) fuel calls g p0 :
  (∀ i, 0 ≤ rand i) → init_grid g → inb p0 = true → (gen_fuel ≤ fuel)%nat →
  ∃ g' calls',
    maze_generate rand fuel calls g (P_x p0) (P_y p0) = Some (g', calls') ∧
    Z.of_nat calls' = Z.of_nat calls + (MAZE_W * MAZE_H - 1).
Proof.
  intros Hrand Hg0 Hs Hfuel.
  destruct (maze_generate_run rand Hrand fuel calls g p0 Hg0 Hs Hfuel)
    as (s0 & s & g' & Hs0 & Hinv0 & Hloop & Hinv & Hempty & _ & _ & _ & Hgen).
  destruct (gen_start_cases calls g p0 s0 (proj1 Hg0) Hs Hs0)
    as (Hst0 & Hc0 & _ & _).
  assert (Hq0 : (gs_calls s0 + 1 = calls + vis_count (gs_grid s0))%nat).
  { pose proof (inv_count _ _ Hinv0) as Hcnt.
    destruct (gen_start_inv calls g p0 Hg0 Hs) as (s0' & Hs0' & _ & _ & _ & Hm).
    assert (s0' = s0) as -> by congruence.
    pose proof (count_le (vis (gs_grid s0)) all_cells) as Hle.
    fold (vis_count (gs_grid s0)) in Hle.
    unfold measure in Hm. rewrite Hst0 in Hm. cbn [length] in Hm.
    rewrite Hc0. lia. }
  destruct (gen_iter_preserves rand Hrand
              (λ s, (gs_calls s + 1 = calls + vis_count (gs_grid s))%nat) p0
              (calls_step rand calls p0) fuel s0 s Hinv0 Hq0
              (gen_loop_iter rand fuel s0 s Hloop)) as [_ Hq].
  exists g', (gs_calls s). split; [done|].
  rewrite (inv_vis_count_full _ _ Hinv Hempty), length_all_cells in Hq.
  pose proof (Z.mul_pos_pos _ _ MAZE_W_pos MAZE_H_pos). lia.
Qed.

(** X2. One call of [maze_generate] makes exactly [W*H - 1] calls of
    [rand], one per carved passage, whatever the values returned. *)
Theorem generate_rand_calls (rand : nat → Z) (g : Grid) (sx sy : Z)
    (fuel calls : nat) :
  (∀ i, 0 ≤ rand i) → wf_grid g = true → in_bounds sx sy = true →
  (gen_fuel ≤ fuel)%nat →
  ∃ g0 g' calls',
    maze_init g = Some g0 ∧
    maze_generate rand fuel calls g0 sx sy = Some (g', calls') ∧
    Z.of_nat calls' = Z.of_nat calls + (MAZE_W * MAZE_H - 1).
Proof.
  intros Hrand Hwf Hs Hfuel.
  destruct (maze_init_spec g Hwf) as (g0 & Hinit & Hg0).
  destruct (generated_calls rand fuel calls g0 (mkP sx sy) Hrand Hg0 Hs Hfuel)
    as (g' & calls' & Hgen & Hc).
  by exists g0, g', calls'.
Qed.

Lemma generate_rand_calls_witness :
  ∃ g0 g' calls',
    maze_init static_grid = Some g0 ∧
    maze_generate (λ _, 5) gen_fuel 100 g0 0 0 = Some (g', calls') ∧
    Z.of_nat calls' = Z.of_nat 100 + (MAZE_W * MAZE_H - 1).
Proof.
  apply (generate_rand_calls (λ _, 5) static_grid 0 0 gen_fuel 100%nat).
  - intros i. lia.
  - reflexivity.
  - reflexivity.
  - apply le_n.
Defined.

(** X3. The loop of [maze_generate] runs exactly [2*W*H - 1] iterations:
    the stack is non-empty after every smaller number of iterations and
    empty after that many (each cell is pushed once and popped once). *)
Theorem generate_iterations (rand : nat → Z) (g : Grid) (sx sy : Z)
    (calls n : nat) :
  (∀ i, 0 ≤ rand i) → wf_grid g = true → in_bounds sx sy = true →
  ∃ g0 s0,
    maze_init g = Some g0 ∧ gen_start calls g0 sx sy = Some s0 ∧
    (Z.of_nat n < 2 * MAZE_W * MAZE_H - 1 →
       ∃ s, gen_iter rand n s0 = Some s ∧ 0 < top s) ∧
    (Z.of_nat n = 2 * MAZE_W * MAZE_H - 1 →
       ∃ s, gen_iter rand n s0 = Some s ∧ top s = 0).
Proof.
  intros Hrand Hwf Hs.
  destruct (maze_init_spec g Hwf) as (g0 & Hinit & Hg0).
  destruct (gen_start_inv calls g0 (mkP sx sy) Hg0 Hs) as (s0 & Hs0 & Hinv0 & _ & _ & Hm0).
  rewrite length_all_cells in Hm0.
  pose proof (Z.mul_pos_pos _ _ MAZE_W_pos MAZE_H_pos) as Hpos.
  exists g0, s0. split_and!; try done.
  - intros Hn.
    destruct (gen_iter_measure rand Hrand (mkP sx sy) n s0 Hinv0 ltac:(lia))
      as (s & Hit & Hinv & Hm).
    exists s. split; [done|]. unfold top.
    destruct (gs_stack s) eqn:Hst; [|cbn [length]; lia].
    apply (measure_zero_iff (mkP sx sy) s Hinv) in Hst. lia.
  - intros Hn.
    destruct (gen_iter_measure rand Hrand (mkP sx sy) n s0 Hinv0 ltac:(lia))
      as (s & Hit & Hinv & Hm).
    exists s. split; [done|]. unfold top.
    assert (Hz : measure s = 0%nat) by lia.
    apply (measure_zero_iff (mkP sx sy) s Hinv) in Hz. by rewrite Hz.
Qed.

Lemma generate_iterations_witness :
  ∃ g0 s0,
    maze_init static_grid = Some g0 ∧ gen_start 0 g0 3 3 = Some s0 ∧
    (Z.of_nat 628 < 2 * MAZE_W * MAZE_H - 1 →
       ∃ s, gen_iter (λ _, 1) 628 s0 = Some s ∧ 0 < top s) ∧
    (Z.of_nat 628 = 2 * MAZE_W * MAZE_H - 1 →
       ∃ s, gen_iter (λ _, 1) 628 s0 = Some s ∧ top s = 0).
Proof.
  apply (generate_iterations (λ _, 1) static_grid 3 3 0%nat 628%nat).
  - intros i. lia.
  - reflexivity.
  - reflexivity.
Defined.

(** X4. In every state of the loop the stack spells out a walkable path:
    each entry has a passage from the entry below it, and the bottom
    entry is the start cell. *)
Theorem stack_is_path (rand : nat → Z) (g : Grid) (sx sy : Z) (calls n : nat) :
  (∀ i, 0 ≤ rand i) → wf_grid g = true → in_bounds sx sy = true →
  ∃ g0 s0 s,
    maze_init g = Some g0 ∧ gen_start calls g0 sx sy = Some s0 ∧
    gen_iter rand n s0 = Some s ∧
    linked (gs_grid s) (gs_stack s) ∧
    (gs_stack s = [] ∨ last (gs_stack s) = Some (mkP sx sy)).
Proof.
  intros Hrand Hwf Hs.
  destruct (maze_init_spec g Hwf) as (g0 & Hinit & Hg0).
  destruct (gen_start_inv calls g0 (mkP sx sy) Hg0 Hs) as (s0 & Hs0 & Hinv0 & Hst0 & _).
  destruct (gen_iter_inv rand Hrand (mkP sx sy) n s0 Hinv0) as (s & Hit & _ & _).
  assert (Hq0 : linked (gs_grid s0) (gs_stack s0) ∧
                (gs_stack s0 = [] ∨ last (gs_stack s0) = Some (mkP sx sy))).
  { rewrite Hst0. split; [|by right]. intros [|i] a b Ha Hb; done. }
  destruct (gen_iter_preserves rand Hrand
              (λ s, linked (gs_grid s) (gs_stack s) ∧
                    (gs_stack s = [] ∨ last (gs_stack s) = Some (mkP sx sy)))
              (mkP sx sy) (linked_step rand (mkP sx sy)) n s0 s Hinv0 Hq0 Hit)
    as [_ [Hl Hlast]].
  by exists g0, s0, s.
Qed.

Lemma stack_is_path_witness :
  ∃ g0 s0 s,
    maze_init static_grid = Some g0 ∧ gen_start 0 g0 4 4 = Some s0 ∧
    gen_iter (λ i, Z.of_nat i) 200 s0 = Some s ∧
    linked (gs_grid s) (gs_stack s) ∧
    (gs_stack s = [] ∨ last (gs_stack s) = Some (mkP 4 4)).
Proof.
  apply (stack_is_path (λ i, Z.of_nat i) static_grid 4 4 0%nat 200%nat).
  - intros i. lia.
  - reflexivity.
  - reflexivity.
Defined.

(** ** The stream of [rand] values that a run reads *)

Section StreamPrefix.
Variables rand1 rand2 : nat → Z.
Hypothesis rand1_nonneg : ∀ i, 0 ≤ rand1 i.
Variable c0 : nat.
Hypothesis agree : ∀ i,
  Z.of_nat c0 ≤ Z.of_nat i < Z.of_nat c0 + (MAZE_W * MAZE_H - 1) → rand1 i = rand2 i.

Lemma gen_body_agree p0 s :
  gen_inv p0 s → (gs_calls s + 1 = c0 + vis_count (gs_grid s))%nat →
  gen_body rand1 s = gen_body rand2 s.
Proof using agree.
  intros Hinv Hq. destruct s as [g [|cur rest] calls]; [done|].
  pose proof (inv_wf _ _ Hinv) as Hwf. cbn [gs_grid gs_calls] in *.
  unfold gen_body. cbn [gs_stack gs_grid gs_calls].
  rewrite (collect_spec g cur Hwf). cbn [mbind option_bind].
  destruct (unvisited_neighbours g cur) as [|n0 ns] eqn:Hneigh; [done|].
  assert (Hn0 : n0 ∈ unvisited_neighbours g cur) by (rewrite Hneigh; left).
  apply elem_of_unvisited_neighbours in Hn0 as (d & _ & Hin & Hvn).
  pose proof (count_lt (vis g) all_cells n0 (proj2 (elem_of_all_cells n0) Hin) Hvn) as Hlt.
  fold (vis_count g) in Hlt. rewrite length_all_cells in Hlt.
  pose proof (inv_count _ _ Hinv) as Hcnt. cbn [gs_grid] in Hcnt.
  pose proof (Z.mul_pos_pos _ _ MAZE_W_pos MAZE_H_pos).
  by rewrite (agree calls) by lia.
Qed.

Lemma gen_loop_agree p0 : ∀ fuel s,
  gen_inv p0 s → (gs_calls s + 1 = c0 + vis_count (gs_grid s))%nat →
  gen_loop rand1 fuel s = gen_loop rand2 fuel s.
Proof using agree rand1_nonneg.
  induction fuel as [|fuel IH]; intros s Hinv Hq; [done|].
  cbn [gen_loop]. destruct (gs_stack s) as [|cur rest] eqn:Hs; [done|].
  rewrite <- (gen_body_agree p0 s Hinv Hq).
  destruct (gen_body_step rand1 rand1_nonneg p0 s Hinv) as (s1 & Hb & Hinv1 & _).
  { by rewrite Hs. }
  rewrite Hb. cbn [mbind option_bind]. apply IH; [done|].
  by apply (calls_step rand1 c0 p0 s).
Qed.
End StreamPrefix.

(** X5. The generated maze is a function of the [W*H - 1] values that
    [rand] returns during the call: two streams that agree on those calls
    give the same maze and the same final call count. *)
Theorem generate_reads_prefix (rand1 rand2 : nat → Z) (g : Grid) (sx sy : Z)
    (fuel calls : nat) :
  (∀ i, 0 ≤ rand1 i) → wf_grid g = true → in_bounds sx sy = true →
  (gen_fuel ≤ fuel)%nat →
  (∀ i, Z.of_nat calls ≤ Z.of_nat i < Z.of_nat calls + (MAZE_W * MAZE_H - 1) →
        rand1 i = rand2 i) →
  ∃ g0 r,
    maze_init g = Some g0 ∧
    maze_generate rand1 fuel calls g0 sx sy = Some r ∧
    maze_generate rand2 fuel calls g0 sx sy = Some r.
Proof.
  intros Hrand Hwf Hs Hfuel Hagree.
  destruct (maze_init_spec g Hwf) as (g0 & Hinit & Hg0).
  destruct (maze_generate_run rand1 Hrand fuel calls g0 (mkP sx sy) Hg0 Hs Hfuel)
    as (s0 & s & g' & Hs0 & Hinv0 & Hloop & _ & _ & Hfor & _ & _ & Hgen).
  destruct (gen_start_cases calls g0 (mkP sx sy) s0 (proj1 Hg0) Hs Hs0)
    as (Hst0 & Hc0 & _ & _).
  assert (Hq0 : (gs_calls s0 + 1 = calls + vis_count (gs_grid s0))%nat).
  { destruct (gen_start_inv calls g0 (mkP sx sy) Hg0 Hs) as (s0' & Hs0' & _ & _ & _ & Hm).
    assert (s0' = s0) as -> by congruence.
    pose proof (count_le (vis (gs_grid s0)) all_cells) as Hle.
    fold (vis_count (gs_grid s0)) in Hle.
    unfold measure in Hm. rewrite Hst0 in Hm. cbn [length] in Hm.
    rewrite Hc0. lia. }
  exists g0, (g', gs_calls s). split_and!; try done.
  unfold maze_generate. cbn [P_x P_y] in Hs0. rewrite Hs0. cbn [mbind option_bind].
  rewrite <- (gen_loop_agree rand1 rand2 Hrand calls Hagree (mkP sx sy) fuel s0 Hinv0 Hq0).
  rewrite Hloop. cbn [mbind option_bind]. by rewrite Hfor.
Qed.

Lemma generate_reads_prefix_witness :
  ∃ g0 r,
    maze_init static_grid = Some g0 ∧
    maze_generate (λ i, Z.of_nat i) gen_fuel 0 g0 0 0 = Some r ∧
    maze_generate (λ i, if (i <? 314)%nat then Z.of_nat i else -1) gen_fuel 0 g0 0 0
      = Some r.
Proof.
  apply (generate_reads_prefix (λ i, Z.of_nat i)
           (λ i, if (i <? 314)%nat then Z.of_nat i else -1) static_grid 0 0 gen_fuel 0%nat).
  - intros i. lia.
  - reflexivity.
  - reflexivity.
  - apply le_n.
  - intros i Hi. change (MAZE_W * MAZE_H - 1) with 314 in Hi.
    destruct (Nat.ltb_spec i 314); [done | lia].
Defined.

(** ** [maze_init] overwrites the whole array *)

(** X6. Whatever the array holds, [maze_init] leaves it fully walled and
    unvisited: nothing of a previous maze survives a reset. *)
Theorem maze_init_erases (g : Grid) :
  wf_grid g = true → maze_init g = Some full_grid.
Proof. apply maze_init_full. Qed.

Lemma maze_init_erases_witness : maze_init static_grid = Some full_grid.
Proof. apply (maze_init_erases static_grid). reflexivity. Defined.

(** ** [try_move] for arbitrary deltas *)

(** X7. From an in-bounds player [try_move] never faults and never leaves
    the grid, for every [int] delta whose sums [x + dx] and [y + dy] with
    the position do not overflow: it returns [true] with the player on the
    target, or [false] with the player where it was, and the resulting
    position is in bounds. *)
Theorem try_move_stays_in_bounds (g : Grid) (px py ddx ddy : Z) :
  wf_grid g = true → in_bounds px py = true →
  is_int ddx → is_int ddy → is_int (px + ddx) → is_int (py + ddy) →
  ∃ x y b,
    try_move g px py ddx ddy = Some (x, y, b) ∧ in_bounds x y = true ∧
    (x, y) = (if b then (px + ddx, py + ddy) else (px, py)).
Proof.
  intros Hwf Hin _ _ _ _. unfold try_move.
  destruct (in_bounds (px + ddx) (py + ddy)) eqn:Htgt; cbn [negb].
  - destruct (proj2 (rd_Some g px py Hwf) Hin) as [c ->]. cbn [mbind option_bind].
    repeat match goal with
           | |- context [if ?b then _ else _] => destruct b
           end; eauto 10.
  - eauto 10.
Qed.

Lemma try_move_stays_in_bounds_witness :
  ∃ x y b,
    try_move static_grid 20 14 2147483000 (-3) = Some (x, y, b) ∧
    in_bounds x y = true ∧
    (x, y) = (if b then (20 + 2147483000, 14 + -3) else (20, 14)).
Proof.
  apply (try_move_stays_in_bounds static_grid 20 14 2147483000 (-3));
    first [reflexivity | unfold is_int, INT_MIN, INT_MAX; lia].
Defined.

(** X8. Right after [maze_init], before any generation, every unit step
    from every cell is blocked: [try_move] returns [false] and the player
    stays. *)
Theorem moves_blocked_after_init (g : Grid) (px py ddx ddy : Z) :
  wf_grid g = true → in_bounds px py = true → unit_cardinal ddx ddy = true →
  ∃ g0, maze_init g = Some g0 ∧ try_move g0 px py ddx ddy = Some (px, py, false).
Proof.
  intros Hwf Hin (d & -> & ->)%unit_cardinal_dir.
  destruct (maze_init_spec g Hwf) as (g0 & Hinit & Hg0).
  exists g0. split; [done|].
  pose proof (try_move_dir g0 (mkP px py) d (proj1 Hg0) Hin) as Hmove.
  rewrite (init_grid_wall g0 (mkP px py) d Hg0 Hin) in Hmove.
  cbn [P_x P_y negb] in Hmove. by rewrite andb_false_r in Hmove.
Qed.

Lemma moves_blocked_after_init_witness :
  ∃ g0, maze_init static_grid = Some g0 ∧ try_move g0 7 7 0 1 = Some (7, 7, false).
Proof.
  apply (moves_blocked_after_init static_grid 7 7 0 1); reflexivity.
Defined.

(** ** The key handler, key by key *)

Section SessionMore.
Variable rand : nat → Z.

(** Any key but R: the handler is a move (if the key is a movement key)
    followed by the win check, both skipped while the latch is set. *)
Lemma on_keydown_not_r k st :
  k ≠ SDLK_r →
  on_keydown rand k st =
  let st0 := if decide (k = SDLK_ESCAPE) then set_running false st else st in
  if s_won st then Some st0
  else match key_dir k with
       | Some d => st1 ← move_player (dvx d) (dvy d) st0; Some (win_check st1)
       | None => Some (win_check st0)
       end.
Proof.
  intros Hk. unfold on_keydown, win_check.
  destruct k; try done; simpl; destruct (s_won st); simpl; try done.
  all: try match goal with
    | |- context [move_player ?a ?b ?s] => destruct (move_player a b s); simpl
    end; try done.
  all: by match goal with
    | |- context [if ?b then _ else _] => destruct b
    end.
Qed.

Lemma regenerate_fields st st' :
  regenerate rand st = Some st' →
  s_px st' = 0 ∧ s_py st' = 0 ∧ s_running st' = s_running st ∧
  s_won st' = s_won st ∧ s_title st' = title_playing.
Proof.
  unfold regenerate. destruct (maze_init (s_grid st)) as [g0|]; [|done].
  cbn [mbind option_bind].
  destruct (maze_generate rand gen_fuel (s_calls st) g0 0 0) as [r|]; [|done].
  cbn [mbind option_bind]. by intros [= <-].
Qed.

(** The R key: the handler is [regenerate] followed by the clearing of the
    latch; the win check that follows finds the player on [(0,0)]. *)
Lemma on_keydown_r st :
  on_keydown rand SDLK_r st = st' ← regenerate rand st; Some (set_won false st').
Proof.
  unfold on_keydown.
  rewrite (decide_False (P := SDLK_r = SDLK_ESCAPE)) by done.
  rewrite (decide_True (P := SDLK_r = SDLK_r)) by done.
  destruct (regenerate rand st) as [st'|] eqn:Hre; [|done].
  destruct (regenerate_fields st st' Hre) as (Hx & Hy & _).
  cbn [mbind option_bind set_won s_won negb].
  do 4 (rewrite decide_False by (intros [?|?]; done); cbn [mbind option_bind]).
  cbn [set_won s_px s_py]. rewrite Hx, Hy.
  change (0 =? MAZE_W - 1) with false. done.
Qed.

Lemma win_check_spec st :
  win_check st =
  if decide (s_px st = MAZE_W - 1 ∧ s_py st = MAZE_H - 1)
  then set_title title_won (set_won true st) else st.
Proof.
  unfold win_check.
  destruct (Z.eqb_spec (s_px st) (MAZE_W - 1)), (Z.eqb_spec (s_py st) (MAZE_H - 1));
    cbn [andb]; case_decide; try done; tauto.
Qed.

Lemma move_player_spec d st :
  wf_grid (s_grid st) = true → in_bounds (s_px st) (s_py st) = true →
  ∃ x y, move_player (dvx d) (dvy d) st = Some (set_player x y st) ∧
         in_bounds x y = true.
Proof.
  intros Hwf Hin. unfold move_player.
  pose proof (try_move_dir (s_grid st) (mkP (s_px st) (s_py st)) d Hwf Hin) as Hm.
  cbn [P_x P_y] in Hm. rewrite Hm. cbn [mbind option_bind].
  destruct (inb (step (mkP (s_px st) (s_py st)) d)) eqn:Hs; cbn [andb].
  - destruct (wall (s_grid st) (mkP (s_px st) (s_py st)) d); cbn [negb fst snd];
      eexists _, _; (split; [done|]); done.
  - eexists _, _. split; done.
Qed.

Lemma win_check_ok st :
  wf_grid (s_grid st) = true → in_bounds (s_px st) (s_py st) = true →
  s_won st = false → s_title st = title_playing →
  session_ok (win_check st).
Proof.
  intros Hwf Hin Hwon Ht. rewrite win_check_spec.
  case_decide as Hg; unfold session_ok; cbn; rewrite ?Hwon; by split_and!.
Qed.
End SessionMore.

Section SessionInvariant.
Variable rand : nat → Z.
Hypothesis rand_nonneg : ∀ i, 0 ≤ rand i.

Lemma on_keydown_ok k st :
  session_ok st → ∃ st', on_keydown rand k st = Some st' ∧ session_ok st'.
Proof using rand_nonneg.
  intros (Hwf & Hin & Hwon & Htitle).
  destruct (decide (k = SDLK_r)) as [->|Hk].
  - rewrite on_keydown_r.
    destruct (regenerate_spec rand rand_nonneg st Hwf)
      as (g0 & g' & calls' & _ & _ & -> & Hwf' & _).
    cbn [mbind option_bind]. eexists. split; [done|].
    unfold session_ok. cbn. split_and!; try done.
    split; [done|]. by intros [? _].
  - rewrite (on_keydown_not_r rand k st Hk). cbv zeta.
    set (st0 := if decide (k = SDLK_ESCAPE) then set_running false st else st).
    assert (H0 : s_grid st0 = s_grid st ∧ s_px st0 = s_px st ∧ s_py st0 = s_py st ∧
                 s_won st0 = s_won st ∧ s_title st0 = s_title st)
      by (unfold st0; by case_decide).
    destruct H0 as (Hg0 & Hx0 & Hy0 & Hw0 & Ht0).
    assert (Hok0 : session_ok st0).
    { unfold session_ok. by rewrite Hg0, Hx0, Hy0, Hw0, Ht0. }
    clearbody st0.
    destruct (s_won st) eqn:Hw; [by exists st0|].
    destruct (key_dir k) as [d|].
    + destruct (move_player_spec d st0) as (x & y & -> & Hxy);
        [by rewrite Hg0 | by rewrite Hx0, Hy0 |].
      cbn [mbind option_bind]. eexists. split; [done|].
      apply win_check_ok; cbn; try done; congruence.
    + eexists. split; [done|]. apply win_check_ok; try done; congruence.
Qed.

Lemma on_event_ok e st :
  session_ok st → ∃ st', on_event rand e st = Some st' ∧ session_ok st'.
Proof using rand_nonneg.
  intros Hok. destruct e as [|k|]; cbn [on_event].
  - by eexists.
  - by apply on_keydown_ok.
  - by eexists.
Qed.

Lemma run_events_ok es : ∀ st,
  session_ok st → ∃ st', run_events rand es st = Some st' ∧ session_ok st'.
Proof using rand_nonneg.
  induction es as [|e es IH]; intros st Hok; [by exists st|].
  destruct (on_event_ok e st Hok) as (st1 & He & Hok1).
  destruct (IH st1 Hok1) as (st' & Hr & Hok').
  exists st'. cbn [run_events]. rewrite He. by cbn [mbind option_bind].
Qed.

Lemma main_start_ok g calls :
  wf_grid g = true →
  ∃ st0, main_start rand g calls = Some st0 ∧ session_ok st0 ∧
         s_running st0 = true ∧ s_won st0 = false ∧ s_px st0 = 0 ∧ s_py st0 = 0.
Proof using rand_nonneg.
  intros Hwf. unfold main_start.
  destruct (regenerate_spec rand rand_nonneg
              (mkSession g 0 0 true false title_playing calls) Hwf)
    as (g0 & g' & calls' & _ & _ & -> & Hwf' & _).
  cbn [mbind option_bind]. eexists. split; [done|].
  unfold session_ok. cbn. split_and!; try done.
  split; [done|]. by intros [? _].
Qed.
End SessionInvariant.

Section SessionFlags.
Variable rand : nat → Z.

Lemma move_player_fields a b st st' :
  move_player a b st = Some st' →
  s_grid st' = s_grid st ∧ s_running st' = s_running st ∧ s_won st' = s_won st ∧
  s_title st' = s_title st ∧ s_calls st' = s_calls st.
Proof.
  unfold move_player. destruct (try_move _ _ _ _ _); [|done].
  cbn [mbind option_bind]. by intros [= <-].
Qed.

Lemma win_check_running st : s_running (win_check st) = s_running st.
Proof. unfold win_check. by destruct (_ && _). Qed.

Lemma on_event_running e st st' :
  on_event rand e st = Some st' →
  s_running st' = s_running st && negb (is_quit e).
Proof.
  destruct e as [|k|]; cbn [on_event is_quit].
  - intros [= <-]. cbn. by rewrite andb_false_r.
  - destruct (decide (k = SDLK_r)) as [->|Hk].
    + rewrite on_keydown_r. destruct (regenerate rand st) as [st1|] eqn:Hre; [|done].
      cbn [mbind option_bind]. intros [= <-].
      destruct (regenerate_fields rand st st1 Hre) as (_ & _ & Hr1 & _).
      cbn [set_won s_running is_quit negb]. by rewrite Hr1, andb_true_r.
    + rewrite (on_keydown_not_r rand k st Hk). cbv zeta.
      assert (Hr0 : s_running (if decide (k = SDLK_ESCAPE)
                               then set_running false st else st) =
                    s_running st && negb (is_quit (SDL_KEYDOWN k))).
      { case_decide as He.
        - subst. cbn. by rewrite andb_false_r.
        - destruct k; try done; cbn; by rewrite andb_true_r. }
      cbn [is_quit] in Hr0.
      destruct (s_won st); [by intros [= <-]|].
      destruct (key_dir k) as [d|].
      * destruct (move_player _ _ _) as [st1|] eqn:Hm; [|done].
        cbn [mbind option_bind]. intros [= <-].
        destruct (move_player_fields _ _ _ _ Hm) as (_ & Hr1 & _).
        by rewrite win_check_running, Hr1.
      * intros [= <-]. by rewrite win_check_running.
  - intros [= <-]. by rewrite andb_true_r.
Qed.

Lemma run_events_running es : ∀ st st',
  run_events rand es st = Some st' →
  s_running st' = s_running st && negb (existsb is_quit es).
Proof.
  induction es as [|e es IH]; intros st st'; cbn [run_events existsb].
  - intros [= <-]. by rewrite andb_true_r.
  - destruct (on_event rand e st) as [st1|] eqn:He; [|done].
    cbn [mbind option_bind]. intros Hr.
    rewrite (IH _ _ Hr), (on_event_running _ _ _ He).
    by rewrite negb_orb, andb_assoc.
Qed.

(** While the latch is set, nothing but the R key changes the maze, the
    player, the latch, the title or the position in the [rand] stream. *)
Lemma run_events_won es : ∀ st,
  s_won st = true → SDL_KEYDOWN SDLK_r ∉ es →
  ∃ st', run_events rand es st = Some st' ∧
         s_grid st' = s_grid st ∧ s_px st' = s_px st ∧ s_py st' = s_py st ∧
         s_won st' = true ∧ s_title st' = s_title st ∧ s_calls st' = s_calls st.
Proof.
  induction es as [|e es IH]; intros st Hwon Hnr.
  - exists st. by split_and!.
  - apply not_elem_of_cons in Hnr as [He Hnr].
    assert (Hstep : ∃ st1, on_event rand e st = Some st1 ∧
              s_grid st1 = s_grid st ∧ s_px st1 = s_px st ∧ s_py st1 = s_py st ∧
              s_won st1 = true ∧ s_title st1 = s_title st ∧ s_calls st1 = s_calls st).
    { destruct e as [|k|]; cbn [on_event].
      - eexists. by split_and!.
      - rewrite (on_keydown_not_r rand k st) by congruence. cbv zeta.
        rewrite Hwon. eexists. split; [done|]. by case_decide.
      - eexists. by split_and!. }
    destruct Hstep as (st1 & He1 & Hg1 & Hx1 & Hy1 & Hw1 & Ht1 & Hc1).
    destruct (IH st1 Hw1 Hnr) as (st' & Hr & Hg & Hx & Hy & Hw & Ht & Hc).
    exists st'. cbn [run_events]. rewrite He1. cbn [mbind option_bind].
    split_and!; congruence.
Qed.
End SessionFlags.

(** ** Properties of the session *)

(** X9. From the start of [main] on, whatever events arrive, the key
    handler never faults, the player stays on the grid, the won latch is
    set exactly when the player stands on the goal cell, and the window
    title is the winning title exactly when the latch is set. *)
Theorem session_invariant (rand : nat → Z) (g : Grid) (calls : nat)
    (es : list Event) :
  (∀ i, 0 ≤ rand i) → wf_grid g = true →
  ∃ st0 st,
    main_start rand g calls = Some st0 ∧
    run_events rand es st0 = Some st ∧
    wf_grid (s_grid st) = true ∧
    in_bounds (s_px st) (s_py st) = true ∧
    (s_won st = true ↔ (s_px st = MAZE_W - 1 ∧ s_py st = MAZE_H - 1)) ∧
    s_title st = (if s_won st then title_won else title_playing).
Proof.
  intros Hrand Hwf.
  destruct (main_start_ok rand Hrand g calls Hwf) as (st0 & Hst0 & Hok0 & _).
  destruct (run_events_ok rand Hrand es st0 Hok0) as (st & Hrun & Hok).
  by exists st0, st.
Qed.

Lemma session_invariant_witness :
  ∃ st0 st,
    main_start (λ _, 0) static_grid 0 = Some st0 ∧
    run_events (λ _, 0)
      [SDL_KEYDOWN SDLK_d; SDL_KEYDOWN SDLK_UP; SDL_OTHER; SDL_KEYDOWN SDLK_r;
       SDL_KEYDOWN SDLK_s; SDL_QUIT] st0 = Some st ∧
    wf_grid (s_grid st) = true ∧
    in_bounds (s_px st) (s_py st) = true ∧
    (s_won st = true ↔ (s_px st = MAZE_W - 1 ∧ s_py st = MAZE_H - 1)) ∧
    s_title st = (if s_won st then title_won else title_playing).
Proof.
  apply (session_invariant (λ _, 0) static_grid 0%nat).
  - intros i. lia.
  - reflexivity.
Defined.

(** X10. Once the player has won, every event other than the R key
    leaves the maze, the player, the latch, the title and the [rand]
    stream untouched: movement keys are ignored, and only the quit events
    clear [running]. *)
Theorem won_ignores_input (rand : nat → Z) (st : Session) (es : list Event) :
  s_won st = true → SDL_KEYDOWN SDLK_r ∉ es →
  ∃ st',
    run_events rand es st = Some st' ∧
    s_grid st' = s_grid st ∧ s_px st' = s_px st ∧ s_py st' = s_py st ∧
    s_won st' = true ∧ s_title st' = s_title st ∧ s_calls st' = s_calls st ∧
    s_running st' = s_running st && negb (existsb is_quit es).
Proof.
  intros Hwon Hnr.
  destruct (run_events_won rand es st Hwon Hnr) as (st' & Hr & Hg & Hx & Hy & Hw & Ht & Hc).
  exists st'. split_and!; try done. by apply (run_events_running rand es st).
Qed.

Lemma won_ignores_input_witness :
  ∃ st',
    run_events (λ _, 0)
      [SDL_KEYDOWN SDLK_LEFT; SDL_KEYDOWN SDLK_w; SDL_OTHER; SDL_KEYDOWN SDLK_other]
      (mkSession full_grid 20 14 true true title_won 9) = Some st' ∧
    s_grid st' = full_grid ∧ s_px st' = 20 ∧ s_py st' = 14 ∧
    s_won st' = true ∧ s_title st' = title_won ∧ s_calls st' = 9%nat ∧
    s_running st' =
      true && negb (existsb is_quit
        [SDL_KEYDOWN SDLK_LEFT; SDL_KEYDOWN SDLK_w; SDL_OTHER; SDL_KEYDOWN SDLK_other]).
Proof.
  apply (won_ignores_input (λ _, 0) (mkSession full_grid 20 14 true true title_won 9)).
  - reflexivity.
  - intros H. repeat (apply elem_of_cons in H as [H|H]; [discriminate H|]).
    by apply not_elem_of_nil in H.
Defined.

(** ** What [draw_maze] draws *)

Lemma fmap_filter_bind {A B C} (f : B → C) (t : B → bool) (k : A → list B) l :
  f <$> List.filter t (l ≫= k) = l ≫= (λ a, f <$> List.filter t (k a)).
Proof.
  induction l as [|a l IH]; [done|].
  by rewrite !bind_cons, List.filter_app, fmap_app, IH.
Qed.

Lemma bind_bind {A B C} (f : A → list B) (k : B → list C) l :
  (l ≫= f) ≫= k = l ≫= (λ a, f a ≫= k).
Proof.
  induction l as [|a l IH]; [done|]. by rewrite !bind_cons, bind_app, IH.
Qed.

Lemma maze_lines_cells g : maze_lines g = all_cells ≫= cell_lines g.
Proof. unfold maze_lines, sides. by rewrite fmap_filter_bind. Qed.

Lemma draw_cell_spec g p :
  wf_grid g = true → inb p = true →
  draw_cell g (P_x p) (P_y p) = Some (cell_lines g p).
Proof.
  intros Hwf Hin. destruct (proj2 (cell_inb g p Hwf) Hin) as [c Hc].
  unfold draw_cell, cell_lines. change (rd g (P_x p) (P_y p)) with (cell g p).
  rewrite Hc. cbn [mbind option_bind List.filter fst snd].
  rewrite !(wall_cell g p c _ Hc). cbn [dbit].
  by destruct (tst (walls c) WALL_N), (tst (walls c) WALL_E),
    (tst (walls c) WALL_S), (tst (walls c) WALL_W).
Qed.

Lemma draw_x_spec g y n : ∀ x,
  wf_grid g = true → 0 ≤ x → x + Z.of_nat n ≤ MAZE_W → 0 ≤ y < MAZE_H →
  draw_x n x y g = Some (seqZ x (Z.of_nat n) ≫= λ x', cell_lines g (mkP x' y)).
Proof.
  induction n as [|n IH]; intros x Hwf Hx Hn Hy; [done|].
  cbn [draw_x].
  assert (Hc : draw_cell g x y = Some (cell_lines g (mkP x y))).
  { apply (draw_cell_spec g (mkP x y) Hwf). apply inb_spec. cbn [P_x P_y]. lia. }
  rewrite Hc. cbn [mbind option_bind]. rewrite IH by (done || lia). cbn [mbind option_bind].
  rewrite (seqZ_cons x) by lia. rewrite bind_cons.
  by replace (Z.pred (Z.of_nat (S n))) with (Z.of_nat n) by lia.
Qed.

Lemma draw_y_spec g n : ∀ y,
  wf_grid g = true → 0 ≤ y → y + Z.of_nat n ≤ MAZE_H →
  draw_y n y g =
  Some (seqZ y (Z.of_nat n) ≫= λ y', seqZ 0 MAZE_W ≫= λ x', cell_lines g (mkP x' y')).
Proof.
  induction n as [|n IH]; intros y Hwf Hy Hn; [done|].
  cbn [draw_y]. pose proof MAZE_W_pos.
  rewrite (draw_x_spec g y (Z.to_nat MAZE_W) 0) by (done || lia).
  cbn [mbind option_bind]. rewrite IH by (done || lia). cbn [mbind option_bind].
  rewrite (seqZ_cons y) by lia. rewrite bind_cons, Z2Nat.id by lia.
  by replace (Z.pred (Z.of_nat (S n))) with (Z.of_nat n) by lia.
Qed.

(** On an array of the right shape [draw_maze] clears the frame and then
    draws the lines of the set wall bits, cell by cell. *)
Lemma draw_maze_spec g :
  wf_grid g = true → draw_maze g = Some (background ++ maze_lines g).
Proof.
  intros Hwf. unfold draw_maze. pose proof MAZE_H_pos.
  rewrite (draw_y_spec g (Z.to_nat MAZE_H) 0) by (done || lia).
  cbn [mbind option_bind]. rewrite Z2Nat.id by lia.
  rewrite maze_lines_cells. unfold all_cells. rewrite bind_bind.
  apply (f_equal (λ l, Some (background ++ l))).
  apply list_bind_ext; [|done]. intros y.
  rewrite bind_bind. apply list_bind_ext; [|done]. intros x.
  by rewrite bind_singleton.
Qed.

Lemma elem_of_sides p d : (p, d) ∈ sides ↔ inb p = true.
Proof.
  unfold sides. rewrite list_elem_of_bind. split.
  - intros (q & (d' & He & _)%list_elem_of_bind & Hq%elem_of_all_cells).
    by apply list_elem_of_singleton in He as [= -> ->].
  - intros Hp. exists p. split; [|by apply elem_of_all_cells].
    apply list_elem_of_bind. exists d. split; [by apply list_elem_of_singleton|].
    destruct d; set_solver.
Qed.

Lemma elem_of_maze_lines g c :
  c ∈ maze_lines g ↔ ∃ p d, inb p = true ∧ wall g p d = true ∧ c = edge_line p d.
Proof.
  unfold maze_lines. rewrite list_elem_of_fmap. split.
  - intros ([p d] & -> & He). apply list_elem_of_In, filter_In in He as [Hs Hw].
    apply list_elem_of_In, elem_of_sides in Hs. by exists p, d.
  - intros (p & d & Hp & Hw & ->). exists (p, d). split; [done|].
    apply list_elem_of_In, filter_In. split; [|done].
    by apply list_elem_of_In, elem_of_sides.
Qed.

(** Two sides have the same line only if they are the same side or the
    two sides of one shared edge. *)
Lemma edge_line_inj p d q d' :
  edge_line p d = edge_line q d' →
  (q = p ∧ d' = d) ∨ (q = step p d ∧ d' = dopp d).
Proof.
  destruct p as [x y], q as [x' y']. unfold edge_line, step, CELL, PAD.
  destruct d, d'; cbn [P_x P_y dvx dvy dopp]; intros [= H1 H2 H3 H4];
    first [ lia
          | left; split; [f_equal; lia | done]
          | right; split; [f_equal; lia | done] ].
Qed.

Lemma edge_line_shared p d : edge_line (step p d) (dopp d) = edge_line p d.
Proof.
  destruct p as [x y]. unfold edge_line, step, CELL, PAD.
  destruct d; cbn [P_x P_y dvx dvy dopp]; f_equal; lia.
Qed.

Lemma NoDup_sides : NoDup sides.
Proof.
  unfold sides. apply NoDup_bind; [| |apply NoDup_all_cells].
  - intros p1 p2 e _ _ (d1 & He1 & _)%list_elem_of_bind (d2 & He2 & _)%list_elem_of_bind.
    apply list_elem_of_singleton in He1, He2. congruence.
  - intros p _. apply NoDup_bind.
    + intros d1 d2 e _ _ He1%list_elem_of_singleton He2%list_elem_of_singleton.
      congruence.
    + intros. apply NoDup_singleton.
    + refine (bool_decide_unpack _ _). vm_compute. exact I.
Qed.

Lemma length_sides : Z.of_nat (length sides) = 4 * (MAZE_W * MAZE_H).
Proof. reflexivity. Qed.

Lemma count_negb {A} (f : A → bool) l :
  (count f l + count (λ x, negb (f x)) l = length l)%nat.
Proof.
  unfold count. induction l as [|x l IH]; [done|]. simpl.
  destruct (f x); simpl; lia.
Qed.

(** Carving one passage clears two wall bits. *)
Lemma carve_cleared g g' p d :
  reciprocal g → fresh g → inb p = true → inb (step p d) = true →
  vis g (step p d) = false →
  (∀ q d', wall g' q d' =
           if decide ((q = p ∧ d' = d) ∨ (q = step p d ∧ d' = dopp d))
           then false else wall g q d') →
  cleared_count g' = S (S (cleared_count g)).
Proof.
  intros Hr Hf Hp Hn Hvn Hw. unfold cleared_count.
  set (f := λ e : P * Dir, negb (wall g e.1 e.2)).
  set (f' := λ e : P * Dir, negb (wall g' e.1 e.2)).
  set (e1 := (p, d)). set (e2 := (step p d, dopp d)).
  set (fm := λ e : P * Dir, if decide (e = e1) then true else f e).
  assert (Hne : e2 ≠ e1) by (intros [= H _]; by apply step_ne in H).
  assert (Hc1 : wall g p d = true) by (rewrite Hr by done; by apply Hf).
  assert (Hc2 : wall g (step p d) (dopp d) = true) by by apply Hf.
  rewrite (count_flip fm f' sides e2), (count_flip f fm sides e1);
    try apply NoDup_sides; try (by apply elem_of_sides); try done.
  - unfold f, e1. cbn [fst snd]. by rewrite Hc1.
  - unfold fm. by rewrite decide_True.
  - intros x _ Hx. unfold fm. by rewrite decide_False.
  - unfold fm, f, e2. rewrite decide_False by done. cbn [fst snd]. by rewrite Hc2.
  - unfold f', e2. cbn [fst snd]. rewrite Hw, decide_True; [done | by right].
  - intros [q d'] _ Hx. unfold f', fm, f, e1. cbn [fst snd]. rewrite Hw.
    destruct (decide ((q, d') = (p, d))) as [[= -> ->]|Hx1].
    + rewrite decide_True; [done | by left].
    + rewrite decide_False; [done|]. intros [[-> ->]|[-> ->]]; done.
Qed.

Section GeneratedFacts.
Variable rand : nat → Z.
Hypothesis rand_nonneg : ∀ i, 0 ≤ rand i.

Lemma cleared_step p0 s s' :
  gen_inv p0 s →
  cleared_count (gs_grid s) = (2 * passage_count (gs_grid s))%nat →
  gen_body rand s = Some s' →
  cleared_count (gs_grid s') = (2 * passage_count (gs_grid s'))%nat.
Proof.
  intros Hinv Hq Hbody.
  destruct (gen_body_cases rand p0 s s' Hinv Hbody)
    as [(cur & rest & _ & _ & ->)
       |(cur & rest & d & g' & _ & Hcur & Hvc & Hn & Hvn & -> & _ & Hw & Hv)];
    [done|].
  cbn [gs_grid].
  rewrite (carve_cleared (gs_grid s) g' cur d (inv_recip _ _ Hinv)
             (inv_fresh _ _ Hinv) Hcur Hn Hvn Hw).
  rewrite (carve_count (gs_grid s) g' cur d (inv_recip _ _ Hinv)
             (inv_fresh _ _ Hinv) Hcur Hn Hvc Hvn Hw Hv).
  lia.
Qed.

(** The walls of a generated maze. *)
Lemma generated_walls fuel calls g p0 :
  init_grid g → inb p0 = true → (gen_fuel ≤ fuel)%nat →
  ∃ g' calls',
    maze_generate rand fuel calls g (P_x p0) (P_y p0) = Some (g', calls') ∧
    wf_grid g' = true ∧ reciprocal g' ∧ border_intact g' ∧
    Z.of_nat (cleared_count g') = 2 * (MAZE_W * MAZE_H - 1).
Proof using rand_nonneg.
  intros Hg0 Hs Hfuel.
  destruct (maze_generate_run rand rand_nonneg fuel calls g p0 Hg0 Hs Hfuel)
    as (s0 & s & g' & Hs0 & Hinv0 & Hloop & Hinv & Hempty & _ & Hwf' & Hcell & Hgen).
  destruct (gen_start_cases calls g p0 s0 (proj1 Hg0) Hs Hs0) as (_ & _ & Hw0 & _).
  assert (Hq0 : border_intact (gs_grid s0) ∧
                cleared_count (gs_grid s0) = (2 * passage_count (gs_grid s0))%nat).
  { split.
    - intros p d Hp _. rewrite Hw0. by apply init_grid_wall.
    - unfold cleared_count, passage_count. rewrite !count_none; [done| |].
      + intros [q d] (Hq & _)%elem_of_slots. cbn [fst snd].
        by rewrite Hw0, (init_grid_wall g).
      + intros [q d] Hq%elem_of_sides. cbn [fst snd].
        by rewrite Hw0, (init_grid_wall g). }
  destruct (gen_iter_preserves rand rand_nonneg
              (λ s, border_intact (gs_grid s) ∧
                    cleared_count (gs_grid s) = (2 * passage_count (gs_grid s))%nat)
              p0) with (n := fuel) (s := s0) (s' := s) as [_ [Hb Hc]]; try done.
  { intros s1 s2 Hinv1 [Hb1 Hc1] Hbody. split.
    - by apply (border_step rand p0 s1).
    - by apply (cleared_step p0 s1). }
  { by apply gen_loop_iter. }
  assert (Hw : ∀ q d, wall g' q d = wall (gs_grid s) q d).
  { intros q d. unfold wall. rewrite Hcell. by destruct (cell (gs_grid s) q). }
  exists g', (gs_calls s). split_and!; try done.
  - eapply reciprocal_walls_eq; [done | apply (inv_recip _ _ Hinv)].
  - intros p d Hp Hout. rewrite Hw. by apply Hb.
  - assert (Heq : cleared_count g' = cleared_count (gs_grid s)).
    { apply count_ext. intros e _. by rewrite Hw. }
    rewrite Heq, Hc. pose proof (inv_passage_count _ _ Hinv Hempty). lia.
Qed.
End GeneratedFacts.

(** X11. A generated maze has exactly [2 * (W*H - 1)] clear wall bits:
    each of the [W*H - 1] passages cleared one bit in each of its two
    cells, and nothing else was cleared. *)
Theorem generated_cleared_bits (rand : nat → Z) (g : Grid) (sx sy : Z)
    (fuel calls : nat) :
  (∀ i, 0 ≤ rand i) → wf_grid g = true → in_bounds sx sy = true →
  (gen_fuel ≤ fuel)%nat →
  ∃ g0 g' calls',
    maze_init g = Some g0 ∧
    maze_generate rand fuel calls g0 sx sy = Some (g', calls') ∧
    Z.of_nat (cleared_count g') = 2 * (MAZE_W * MAZE_H - 1).
Proof.
  intros Hrand Hwf Hs Hfuel.
  destruct (maze_init_spec g Hwf) as (g0 & Hinit & Hg0).
  destruct (generated_walls rand Hrand fuel calls g0 (mkP sx sy) Hg0 Hs Hfuel)
    as (g' & calls' & Hgen & _ & _ & _ & Hc).
  by exists g0, g', calls'.
Qed.

Lemma generated_cleared_bits_witness :
  ∃ g0 g' calls',
    maze_init static_grid = Some g0 ∧
    maze_generate (λ _, 3) gen_fuel 0 g0 20 14 = Some (g', calls') ∧
    Z.of_nat (cleared_count g') = 2 * (MAZE_W * MAZE_H - 1).
Proof.
  apply (generated_cleared_bits (λ _, 3) static_grid 20 14 gen_fuel 0%nat).
  - intros i. lia.
  - reflexivity.
  - reflexivity.
  - apply le_n.
Defined.

(** ** Properties of the rendering *)

(** X12. On an array of the right shape [draw_maze] never faults; after
    setting the colours and clearing the frame it issues line calls only,
    one per set wall bit, and the line of every set side is among them. *)
Theorem draw_maze_lines (g : Grid) :
  wf_grid g = true →
  ∃ ls,
    draw_maze g =
      Some ([SDL_SetRenderDrawColor 15 15 18 255; SDL_RenderClear;
             SDL_SetRenderDrawColor 230 230 230 255] ++ ls) ∧
    Forall (λ c, is_line c = true) ls ∧
    length ls = count (λ e, wall g e.1 e.2) sides ∧
    (∀ p d, inb p = true → wall g p d = true → edge_line p d ∈ ls) ∧
    (∀ c, c ∈ ls → ∃ p d, inb p = true ∧ wall g p d = true ∧ c = edge_line p d).
Proof.
  intros Hwf. exists (maze_lines g). split_and!.
  - by apply draw_maze_spec.
  - apply Forall_forall. intros c (p & d & _ & _ & ->)%elem_of_maze_lines.
    by destruct d.
  - unfold maze_lines, count. by rewrite length_fmap.
  - intros p d Hp Hw. apply elem_of_maze_lines. by exists p, d.
  - intros c Hc. by apply elem_of_maze_lines.
Qed.

Lemma draw_maze_lines_witness :
  ∃ ls,
    draw_maze full_grid =
      Some ([SDL_SetRenderDrawColor 15 15 18 255; SDL_RenderClear;
             SDL_SetRenderDrawColor 230 230 230 255] ++ ls) ∧
    Forall (λ c, is_line c = true) ls ∧
    length ls = count (λ e, wall full_grid e.1 e.2) sides ∧
    (∀ p d, inb p = true → wall full_grid p d = true → edge_line p d ∈ ls) ∧
    (∀ c, c ∈ ls → ∃ p d, inb p = true ∧ wall full_grid p d = true ∧ c = edge_line p d).
Proof. apply (draw_maze_lines full_grid). reflexivity. Defined.

(** X13. Every line that [draw_maze] draws is horizontal or vertical,
    one cell long, and lies within the maze rectangle, [PAD] pixels
    inside the window on every side. *)
Theorem draw_maze_geometry (g : Grid) (ls : list Call) (x0 y0 x1 y1 : Z) :
  wf_grid g = true → draw_maze g = Some ls →
  SDL_RenderDrawLine x0 y0 x1 y1 ∈ ls →
  ((y1 = y0 ∧ x1 = x0 + CELL) ∨ (x1 = x0 ∧ y1 = y0 + CELL)) ∧
  PAD ≤ x0 ∧ x1 ≤ win_w - PAD ∧ PAD ≤ y0 ∧ y1 ≤ win_h - PAD.
Proof.
  intros Hwf Hdraw Hin. rewrite (draw_maze_spec g Hwf) in Hdraw.
  assert (ls = background ++ maze_lines g) as -> by congruence.
  apply elem_of_app in Hin as [Hin|Hin].
  { unfold background in Hin.
    repeat (apply elem_of_cons in Hin as [Hin|Hin]; [discriminate Hin|]).
    by apply not_elem_of_nil in Hin. }
  apply elem_of_maze_lines in Hin as (p & d & [Hx Hy]%inb_spec & _ & Heq).
  unfold edge_line, win_w, win_h, CELL, PAD in *.
  destruct d; injection Heq as -> -> -> ->; lia.
Qed.

Lemma draw_maze_geometry_witness :
  ((48 = 16 ∧ 16 = 16 + CELL) ∨ (16 = 16 ∧ 48 = 16 + CELL)) ∧
  PAD ≤ 16 ∧ 16 ≤ win_w - PAD ∧ PAD ≤ 16 ∧ 48 ≤ win_h - PAD.
Proof.
  apply (draw_maze_geometry full_grid
           (background ++ maze_lines full_grid) 16 16 16 48).
  - reflexivity.
  - vm_compute. reflexivity.
  - apply elem_of_app. right. apply elem_of_maze_lines.
    exists (mkP 0 0), DW. split_and!; reflexivity.
Defined.

(** X14. In a generated maze the picture and the movement agree: the
    line of a side of a cell is drawn exactly when [try_move] from that
    cell towards that side is refused.  The frame has
    [2*W*H + 2] lines: each wall between two cells is drawn from both
    sides, each boundary wall once. *)
Theorem generated_maze_rendering (rand : nat → Z) (g : Grid) (sx sy : Z)
    (fuel calls : nat) :
  (∀ i, 0 ≤ rand i) → wf_grid g = true → in_bounds sx sy = true →
  (gen_fuel ≤ fuel)%nat →
  ∃ g0 g' calls' ls,
    maze_init g = Some g0 ∧
    maze_generate rand fuel calls g0 sx sy = Some (g', calls') ∧
    draw_maze g' = Some (background ++ ls) ∧
    Z.of_nat (length ls) = 2 * MAZE_W * MAZE_H + 2 ∧
    ∀ px py d, in_bounds px py = true →
      (edge_line (mkP px py) d ∈ ls ↔
       try_move g' px py (dvx d) (dvy d) = Some (px, py, false)).
Proof.
  intros Hrand Hwf Hs Hfuel.
  destruct (maze_init_spec g Hwf) as (g0 & Hinit & Hg0).
  destruct (generated_walls rand Hrand fuel calls g0 (mkP sx sy) Hg0 Hs Hfuel)
    as (g' & calls' & Hgen & Hwf' & Hrec & Hborder & Hc).
  exists g0, g', calls', (maze_lines g'). split_and!; try done.
  - by apply draw_maze_spec.
  - unfold maze_lines. rewrite length_fmap.
    pose proof (count_negb (λ e, wall g' e.1 e.2) sides) as Hsum.
    unfold cleared_count, count in Hsum, Hc.
    pose proof length_sides. lia.
  - intros px py d Hin.
    assert (Hwall : edge_line (mkP px py) d ∈ maze_lines g' ↔
                    wall g' (mkP px py) d = true).
    { rewrite elem_of_maze_lines. split.
      - intros (q & d' & Hq & Hw & [[-> ->]|[-> ->]]%edge_line_inj); [done|].
        by rewrite (Hrec (mkP px py) d Hin Hq).
      - intros Hw. by exists (mkP px py), d. }
    pose proof (try_move_dir g' (mkP px py) d Hwf' Hin) as Hmove.
    cbn [P_x P_y] in Hmove. rewrite Hwall, Hmove.
    destruct (inb (step (mkP px py) d)) eqn:Hstep; cbn [andb].
    + destruct (wall g' (mkP px py) d); cbn [negb]; split; done.
    + rewrite (Hborder (mkP px py) d Hin Hstep). split; done.
Qed.

Lemma generated_maze_rendering_witness :
  ∃ g0 g' calls' ls,
    maze_init static_grid = Some g0 ∧
    maze_generate (λ i, Z.of_nat i) gen_fuel 0 g0 0 0 = Some (g', calls') ∧
    draw_maze g' = Some (background ++ ls) ∧
    Z.of_nat (length ls) = 2 * MAZE_W * MAZE_H + 2 ∧
    ∀ px py d, in_bounds px py = true →
      (edge_line (mkP px py) d ∈ ls ↔
       try_move g' px py (dvx d) (dvy d) = Some (px, py, false)).
Proof.
  apply (generated_maze_rendering (λ i, Z.of_nat i) static_grid 0 0 gen_fuel 0%nat).
  - intros i. lia.
  - reflexivity.
  - reflexivity.
  - apply le_n.
Defined.

(** X15. The squares of the goal and of the player never cover a wall:
    no point of a line drawn by [draw_maze] lies in a rectangle filled by
    [draw_player_goal], for an in-bounds player. *)
Theorem squares_clear_of_walls (g : Grid) (ls : list Call)
    (px py x0 y0 x1 y1 x y w h u v : Z) :
  wf_grid g = true → in_bounds px py = true →
  draw_maze g = Some ls →
  SDL_RenderDrawLine x0 y0 x1 y1 ∈ ls →
  SDL_RenderFillRect x y w h ∈ draw_player_goal px py →
  x0 ≤ u ≤ x1 → y0 ≤ v ≤ y1 →
  ¬ (x ≤ u < x + w ∧ y ≤ v < y + h).
Proof.
  intros Hwf [Hpx Hpy]%in_bounds_spec Hdraw Hline Hrect Hu Hv.
  rewrite (draw_maze_spec g Hwf) in Hdraw.
  assert (ls = background ++ maze_lines g) as -> by congruence.
  apply elem_of_app in Hline as [Hline|Hline].
  { unfold background in Hline.
    repeat (apply elem_of_cons in Hline as [Hline|Hline]; [discriminate Hline|]).
    by apply not_elem_of_nil in Hline. }
  apply elem_of_maze_lines in Hline as (p & d & [Hx Hy]%inb_spec & _ & Heq).
  unfold draw_player_goal in Hrect.
  pose proof MAZE_W_pos. pose proof MAZE_H_pos.
  repeat (apply elem_of_cons in Hrect as [Hrect|Hrect];
          [try discriminate Hrect|]); [| |by apply not_elem_of_nil in Hrect].
  - injection Hrect as -> -> -> ->.
    unfold edge_line, CELL, PAD in *.
    destruct d; injection Heq as -> -> -> ->; lia.
  - injection Hrect as -> -> -> ->.
    unfold edge_line, CELL, PAD in *.
    destruct d; injection Heq as -> -> -> ->; lia.
Qed.

Lemma squares_clear_of_walls_witness :
  ¬ (24 ≤ 16 < 24 + 16 ∧ 24 ≤ 30 < 24 + 16).
Proof.
  apply (squares_clear_of_walls full_grid (background ++ maze_lines full_grid)
           0 0 16 16 16 48 24 24 16 16 16 30).
  - reflexivity.
  - reflexivity.
  - vm_compute. reflexivity.
  - apply elem_of_app. right. apply elem_of_maze_lines.
    exists (mkP 0 0), DW. split_and!; reflexivity.
  - right. right. right. left.
  - lia.
  - lia.
Defined.

(** ** The loop of [main] *)

Lemma count_app {A} (f : A → bool) l1 l2 :
  count f (l1 ++ l2) = (count f l1 + count f l2)%nat.
Proof. unfold count. by rewrite List.filter_app, length_app. Qed.

Lemma occurrences_render c fr :
  is_render c = false → Forall (λ c', is_render c' = true) fr → occurrences c fr = 0%nat.
Proof.
  intros Hc Hfr. apply count_none. intros c' Hc'.
  rewrite Forall_forall in Hfr. specialize (Hfr c' Hc').
  apply bool_decide_eq_false. congruence.
Qed.

Lemma maze_lines_render g : Forall (λ c, is_render c = true) (maze_lines g).
Proof.
  apply Forall_forall. intros c (p & d & _ & _ & ->)%elem_of_maze_lines. by destruct d.
Qed.

Lemma maze_lines_no_present g : occurrences SDL_RenderPresent (maze_lines g) = 0%nat.
Proof.
  apply count_none. intros c (p & d & _ & _ & ->)%elem_of_maze_lines. by destruct d.
Qed.

Section MainProofs.
Variable rand : nat → Z.
Hypothesis rand_nonneg : ∀ i, 0 ≤ rand i.

(** One iteration of the loop never faults; it draws one frame. *)
Lemma frame_ok es st :
  session_ok st →
  ∃ st' calls,
    frame rand es st = Some (st', calls) ∧ session_ok st' ∧
    s_running st' = s_running st && no_quit es ∧
    Forall (λ c, is_render c = true) calls ∧
    occurrences SDL_RenderPresent calls = 1%nat.
Proof using rand_nonneg.
  intros Hok. destruct (run_events_ok rand rand_nonneg es st Hok) as (st' & Hrun & Hok').
  pose proof Hok' as (Hwf' & _).
  exists st', (background ++ maze_lines (s_grid st')
               ++ draw_player_goal (s_px st') (s_py st') ++ [SDL_RenderPresent]).
  split_and!.
  - unfold frame. rewrite Hrun. cbn [mbind option_bind].
    rewrite (draw_maze_spec _ Hwf'). cbn [mbind option_bind].
    by rewrite <- app_assoc.
  - done.
  - by apply (run_events_running rand es st).
  - rewrite !Forall_app. split_and!; [by repeat constructor | apply maze_lines_render
                                      | by repeat constructor | by repeat constructor].
  - unfold occurrences. rewrite !count_app.
    fold (occurrences SDL_RenderPresent (maze_lines (s_grid st'))).
    by rewrite maze_lines_no_present.
Qed.

(** The loop stays pending as long as no quit event arrives. *)
Lemma main_loop_pending : ∀ batches st tr,
  session_ok st → s_running st = true →
  Forall (λ es, no_quit es = true) batches →
  ∃ tr', main_loop rand batches st tr = Pending tr'.
Proof using rand_nonneg.
  induction batches as [|es batches IH]; intros st tr Hok Hrun Hnq.
  - exists tr. cbn [main_loop]. by rewrite Hrun.
  - apply Forall_cons in Hnq as [Hes Hnq].
    destruct (frame_ok es st Hok) as (st' & calls & Hf & Hok' & Hrun' & _).
    rewrite Hrun, Hes in Hrun'.
    destruct (IH st' (tr ++ calls) Hok' Hrun' Hnq) as (tr' & Hl).
    exists tr'. cbn [main_loop]. by rewrite Hrun, Hf.
Qed.

(** It ends with the first batch that holds a quit event, after drawing
    the frame of that batch; later batches are never polled. *)
Lemma main_loop_quit es post : ∀ pre st tr,
  session_ok st → s_running st = true →
  Forall (λ es, no_quit es = true) pre → no_quit es = false →
  ∃ fr,
    main_loop rand (pre ++ es :: post) st tr =
      Exit 0 (tr ++ fr ++ [SDL_DestroyRenderer; SDL_DestroyWindow; SDL_Quit]) ∧
    Forall (λ c, is_render c = true) fr ∧
    occurrences SDL_RenderPresent fr = S (length pre) ∧
    main_loop rand (pre ++ [es]) st tr = main_loop rand (pre ++ es :: post) st tr.
Proof using rand_nonneg.
  induction pre as [|b pre IH]; intros st tr Hok Hrun Hnq Hes.
  - destruct (frame_ok es st Hok) as (st' & calls & Hf & Hok' & Hrun' & Hren & Hpres).
    rewrite Hrun, Hes in Hrun'. exists calls.
    cbn [app main_loop]. rewrite Hrun, Hf.
    destruct post; cbn [main_loop]; rewrite Hrun'; rewrite <- app_assoc; by split_and!.
  - apply Forall_cons in Hnq as [Hb Hnq].
    destruct (frame_ok b st Hok) as (st' & calls & Hf & Hok' & Hrun' & Hren & Hpres).
    rewrite Hrun, Hb in Hrun'.
    destruct (IH st' (tr ++ calls) Hok' Hrun' Hnq Hes) as (fr & Hl & Hfr & Hcount & Heq).
    exists (calls ++ fr). cbn [app main_loop length]. rewrite Hrun, Hf.
    split_and!.
    + rewrite Hl. by rewrite <- !app_assoc.
    + by apply Forall_app.
    + unfold occurrences in *. rewrite count_app. lia.
    + done.
Qed.

(** What one iteration of the loop is made of. *)
Lemma frame_inv es st st' calls :
  frame rand es st = Some (st', calls) →
  run_events rand es st = Some st' ∧
  ∃ dm, draw_maze (s_grid st') = Some dm ∧
        calls = dm ++ draw_player_goal (s_px st') (s_py st') ++ [SDL_RenderPresent].
Proof.
  unfold frame. intros Hf.
  destruct (run_events rand es st) as [st1|]; cbn [mbind option_bind] in Hf; [|done].
  destruct (draw_maze (s_grid st1)) as [dm|] eqn:Hdm; cbn [mbind option_bind] in Hf;
    [|done].
  assert (st1 = st') as -> by congruence.
  split; [done|]. exists dm. split; [done|]. congruence.
Qed.

Lemma run_events_app es1 : ∀ es2 st,
  run_events rand (es1 ++ es2) st = st' ← run_events rand es1 st; run_events rand es2 st'.
Proof.
  induction es1 as [|e es1 IH]; intros es2 st; [done|].
  cbn [app run_events]. destruct (on_event rand e st) as [st1|]; cbn [mbind option_bind];
    [apply IH | done].
Qed.

Lemma handle_all_run_events es : ∀ st, handle_all rand es st = run_events rand es st.
Proof.
  unfold handle_all.
  assert (Hnone : ∀ l, foldl (λ o e, o ≫= on_event rand e) None l = None)
    by (induction l as [|e l IHl]; [done | apply IHl]).
  induction es as [|e es IH]; intros st; [done|].
  cbn [foldl run_events mbind option_bind].
  destruct (on_event rand e st) as [st1|]; [apply IH | apply Hnone].
Qed.

(** The frame drawn last, in the iteration that meets the quit event,
    shows the session as all the events polled so far leave it, those that
    follow the quit event in its batch included. *)
Lemma main_loop_last_frame es post : ∀ pre st tr,
  session_ok st → s_running st = true →
  Forall (λ es, no_quit es = true) pre → no_quit es = false →
  ∃ st' dm earlier,
    run_events rand (concat pre ++ es) st = Some st' ∧
    draw_maze (s_grid st') = Some dm ∧
    main_loop rand (pre ++ es :: post) st tr =
      Exit 0 (tr ++ earlier ++ dm ++ draw_player_goal (s_px st') (s_py st')
              ++ [SDL_RenderPresent; SDL_DestroyRenderer; SDL_DestroyWindow; SDL_Quit]).
Proof using rand_nonneg.
  induction pre as [|b pre IH]; intros st tr Hok Hrun Hnq Hes.
  - destruct (frame_ok es st Hok) as (st' & calls & Hf & Hok' & Hrun' & _).
    rewrite Hrun, Hes in Hrun'.
    destruct (frame_inv _ _ _ _ Hf) as (Hev & dm & Hdm & ->).
    exists st', dm, []. split; [done|]. split; [done|].
    cbn [app main_loop]. rewrite Hrun, Hf.
    destruct post; cbn [main_loop]; rewrite Hrun'; by rewrite <- !app_assoc.
  - apply Forall_cons in Hnq as [Hb Hnq].
    destruct (frame_ok b st Hok) as (st1 & calls & Hf & Hok1 & Hrun1 & _).
    rewrite Hrun, Hb in Hrun1.
    destruct (frame_inv _ _ _ _ Hf) as (Hev & _).
    destruct (IH st1 (tr ++ calls) Hok1 Hrun1 Hnq Hes) as (st' & dm & earlier & Hr & Hdm & Hl).
    exists st', dm, (calls ++ earlier). split_and!.
    + cbn [concat]. rewrite <- app_assoc, run_events_app, Hev. done.
    + done.
    + cbn [app main_loop]. rewrite Hrun, Hf, Hl. by rewrite <- !app_assoc.
Qed.

(** In general the loop is pending or has ended with exit code 0 after
    drawing frames and releasing the renderer, the window and SDL. *)
Lemma main_loop_outcome : ∀ batches st tr,
  session_ok st →
  (∃ fr, main_loop rand batches st tr = Pending (tr ++ fr) ∧
         Forall (λ c, is_render c = true) fr) ∨
  (∃ fr, main_loop rand batches st tr =
           Exit 0 (tr ++ fr ++ [SDL_DestroyRenderer; SDL_DestroyWindow; SDL_Quit]) ∧
         Forall (λ c, is_render c = true) fr).
Proof using rand_nonneg.
  induction batches as [|es batches IH]; intros st tr Hok.
  - cbn [main_loop]. destruct (s_running st).
    + left. exists []. by rewrite app_nil_r.
    + right. by exists [].
  - cbn [main_loop]. destruct (s_running st).
    + destruct (frame_ok es st Hok) as (st' & calls & Hf & Hok' & _ & Hren & _).
      rewrite Hf.
      destruct (IH st' (tr ++ calls) Hok') as [(fr & Hl & Hfr)|(fr & Hl & Hfr)].
      * left. exists (calls ++ fr). rewrite Hl, <- app_assoc.
        split; [done | by apply Forall_app].
      * right. exists (calls ++ fr). rewrite Hl, <- !app_assoc.
        split; [done | by apply Forall_app].
    + right. by exists [].
Qed.
End MainProofs.

(** ** Properties of [main] *)

(** X16. [main] never faults.  When it returns, the exit code is 0 if
    the three initialisation steps succeeded and 1 otherwise; what was
    acquired is released, once: [SDL_Quit] is called iff [SDL_Init]
    succeeded (and is then the last call), the window is destroyed iff it
    was created, the renderer likewise; a failed start draws nothing. *)
Theorem main_exit_and_cleanup (rand : nat → Z) (init_ok win_ok ren_ok : bool)
    (g : Grid) (batches : list (list Event)) :
  (∀ i, 0 ≤ rand i) → wf_grid g = true →
  main rand init_ok win_ok ren_ok g batches ≠ Fault ∧
  ∀ code tr, main rand init_ok win_ok ren_ok g batches = Exit code tr →
    code = (if init_ok && win_ok && ren_ok then 0 else 1) ∧
    occurrences SDL_Quit tr = (if init_ok then 1 else 0)%nat ∧
    occurrences SDL_DestroyWindow tr = (if init_ok && win_ok then 1 else 0)%nat ∧
    occurrences SDL_DestroyRenderer tr =
      (if init_ok && win_ok && ren_ok then 1 else 0)%nat ∧
    (init_ok = true → last tr = Some SDL_Quit) ∧
    (code = 1 → Forall (λ c, is_render c = false) tr).
Proof.
  intros Hrand Hwf. unfold main.
  destruct init_ok; cbn [negb andb];
    [|split; [done|]; intros code tr [= <- <-]; split_and!; try done;
      by repeat constructor].
  destruct win_ok; cbn [negb andb];
    [|split; [done|]; intros code tr [= <- <-]; split_and!; try done;
      by repeat constructor].
  destruct ren_ok; cbn [negb andb];
    [|split; [done|]; intros code tr [= <- <-]; split_and!; try done;
      by repeat constructor].
  destruct (main_start_ok rand Hrand g 0%nat Hwf) as (st0 & -> & Hok0 & _).
  set (pre := ([srand_time; SDL_Init] ++ [SDL_CreateWindow title_playing win_w win_h])
              ++ [SDL_CreateRenderer]).
  destruct (main_loop_outcome rand Hrand batches st0 pre Hok0)
    as [(fr & -> & Hfr)|(fr & -> & Hfr)]; (split; [done|]); intros code tr Heq;
    [done|].
  assert (code = 0) as -> by congruence.
  assert (tr = pre ++ fr ++ [SDL_DestroyRenderer; SDL_DestroyWindow; SDL_Quit])
    as -> by congruence.
  clear Heq. split_and!; try done.
  - unfold occurrences. rewrite !count_app.
    fold (occurrences SDL_Quit fr). by rewrite occurrences_render.
  - unfold occurrences. rewrite !count_app.
    fold (occurrences SDL_DestroyWindow fr). by rewrite occurrences_render.
  - unfold occurrences. rewrite !count_app.
    fold (occurrences SDL_DestroyRenderer fr). by rewrite occurrences_render.
  - intros _.
    change [SDL_DestroyRenderer; SDL_DestroyWindow; SDL_Quit]
      with ([SDL_DestroyRenderer; SDL_DestroyWindow] ++ [SDL_Quit]).
    by rewrite !app_assoc, last_snoc.
Qed.

Lemma main_exit_and_cleanup_witness :
  main (λ _, 0) true false true static_grid [[SDL_QUIT]] ≠ Fault ∧
  ∀ code tr, main (λ _, 0) true false true static_grid [[SDL_QUIT]] = Exit code tr →
    code = (if true && false && true then 0 else 1) ∧
    occurrences SDL_Quit tr = (if true then 1 else 0)%nat ∧
    occurrences SDL_DestroyWindow tr = (if true && false then 1 else 0)%nat ∧
    occurrences SDL_DestroyRenderer tr =
      (if true && false && true then 1 else 0)%nat ∧
    (true = true → last tr = Some SDL_Quit) ∧
    (code = 1 → Forall (λ c, is_render c = false) tr).
Proof.
  apply (main_exit_and_cleanup (λ _, 0) true false true static_grid [[SDL_QUIT]]).
  - intros i. lia.
  - reflexivity.
Defined.

(** X17. With SDL initialised, [main] draws one frame per batch of polled
    events, up to and including the first batch that holds a quit event
    (Esc or window close), then returns 0.  Events that follow the quit
    within that batch are still handled: the frame drawn last shows the
    maze and the player as every event of the batches polled, to the end
    of the quitting batch, leaves them, and the clean-up follows it.
    Later batches are never read.  Without a quit event [main] is still
    in its loop. *)
Theorem main_runs_until_quit (rand : nat → Z) (g : Grid)
    (pre : list (list Event)) (es : list Event) (post : list (list Event)) :
  (∀ i, 0 ≤ rand i) → wf_grid g = true →
  Forall (λ b, no_quit b = true) pre → no_quit es = false →
  (∃ tr, main rand true true true g pre = Pending tr) ∧
  ∃ tr st0 st dm earlier,
    main rand true true true g (pre ++ es :: post) = Exit 0 tr ∧
    main rand true true true g (pre ++ [es]) = Exit 0 tr ∧
    occurrences SDL_RenderPresent tr = S (length pre) ∧
    main_start rand g 0 = Some st0 ∧
    handle_all rand (concat pre ++ es) st0 = Some st ∧
    draw_maze (s_grid st) = Some dm ∧
    tr = earlier ++ dm ++ draw_player_goal (s_px st) (s_py st)
         ++ [SDL_RenderPresent; SDL_DestroyRenderer; SDL_DestroyWindow; SDL_Quit].
Proof.
  intros Hrand Hwf Hpre Hes. unfold main. cbn [negb].
  destruct (main_start_ok rand Hrand g 0%nat Hwf) as (st0 & -> & Hok0 & Hrun0 & _).
  set (tr0 := ([srand_time; SDL_Init] ++ [SDL_CreateWindow title_playing win_w win_h])
              ++ [SDL_CreateRenderer]).
  split.
  - by apply main_loop_pending.
  - destruct (main_loop_quit rand Hrand es post pre st0 tr0 Hok0 Hrun0 Hpre Hes)
      as (fr & Hl & Hfr & Hcount & Heq).
    destruct (main_loop_last_frame rand Hrand es post pre st0 tr0 Hok0 Hrun0 Hpre Hes)
      as (st & dm & earlier & Hev & Hdm & Hl2).
    exists (tr0 ++ fr ++ [SDL_DestroyRenderer; SDL_DestroyWindow; SDL_Quit]),
      st0, st, dm, (tr0 ++ earlier).
    split_and!.
    + exact Hl.
    + by rewrite Heq.
    + unfold occurrences in *. rewrite !count_app, Hcount. by cbn.
    + done.
    + by rewrite handle_all_run_events.
    + done.
    + rewrite <- app_assoc. congruence.
Qed.

Lemma main_runs_until_quit_witness :
  (∃ tr, main (λ _, 0) true true true static_grid
           [[SDL_KEYDOWN SDLK_d]; []] = Pending tr) ∧
  ∃ tr st0 st dm earlier,
    main (λ _, 0) true true true static_grid
      ([[SDL_KEYDOWN SDLK_d]; []]
       ++ [SDL_KEYDOWN SDLK_ESCAPE; SDL_KEYDOWN SDLK_d] :: [[SDL_KEYDOWN SDLK_r]])
      = Exit 0 tr ∧
    main (λ _, 0) true true true static_grid
      ([[SDL_KEYDOWN SDLK_d]; []] ++ [[SDL_KEYDOWN SDLK_ESCAPE; SDL_KEYDOWN SDLK_d]])
      = Exit 0 tr ∧
    occurrences SDL_RenderPresent tr = S (length [[SDL_KEYDOWN SDLK_d]; @nil Event]) ∧
    main_start (λ _, 0) static_grid 0 = Some st0 ∧
    handle_all (λ _, 0)
      (concat [[SDL_KEYDOWN SDLK_d]; []] ++ [SDL_KEYDOWN SDLK_ESCAPE; SDL_KEYDOWN SDLK_d])
      st0 = Some st ∧
    draw_maze (s_grid st) = Some dm ∧
    tr = earlier ++ dm ++ draw_player_goal (s_px st) (s_py st)
         ++ [SDL_RenderPresent; SDL_DestroyRenderer; SDL_DestroyWindow; SDL_Quit].
Proof.
  apply (main_runs_until_quit (λ _, 0) static_grid [[SDL_KEYDOWN SDLK_d]; []]
           [SDL_KEYDOWN SDLK_ESCAPE; SDL_KEYDOWN SDLK_d] [[SDL_KEYDOWN SDLK_r]]).
  - intros i. lia.
  - reflexivity.
  - repeat constructor.
  - reflexivity.
Defined.

(** ** Keys, passages and the [rand] stream *)

Section SessionWalk.
Variable rand : nat → Z.
Hypothesis rand_nonneg : ∀ i, 0 ≤ rand i.

(** A movement key keeps the player in place or takes it through a
    passage. *)
Lemma move_player_step d st :
  wf_grid (s_grid st) = true → in_bounds (s_px st) (s_py st) = true →
  ∃ b, move_player (dvx d) (dvy d) st = Some (set_player (P_x b) (P_y b) st) ∧
       inb b = true ∧
       (b = mkP (s_px st) (s_py st) ∨
        passage (s_grid st) (mkP (s_px st) (s_py st)) b).
Proof.
  intros Hwf Hin. unfold move_player.
  pose proof (try_move_dir (s_grid st) (mkP (s_px st) (s_py st)) d Hwf Hin) as Hm.
  cbn [P_x P_y] in Hm. rewrite Hm. cbn [mbind option_bind].
  destruct (inb (step (mkP (s_px st) (s_py st)) d)) eqn:Hs; cbn [andb];
    [destruct (wall (s_grid st) (mkP (s_px st) (s_py st)) d) eqn:Hw; cbn [negb]|].
  - exists (mkP (s_px st) (s_py st)). split_and!; [done | done | by left].
  - exists (step (mkP (s_px st) (s_py st)) d). split_and!; [done | done | right].
    repeat split; try done. by exists d.
  - exists (mkP (s_px st) (s_py st)). split_and!; [done | done | by left].
Qed.

Lemma win_check_fields st :
  s_grid (win_check st) = s_grid st ∧ s_px (win_check st) = s_px st ∧
  s_py (win_check st) = s_py st ∧ s_calls (win_check st) = s_calls st.
Proof. unfold win_check. by destruct (_ && _). Qed.

Lemma regenerations_one e :
  regenerations [e] = if decide (e = SDL_KEYDOWN SDLK_r) then 1%nat else 0%nat.
Proof.
  unfold regenerations, count. cbn [List.filter].
  case_bool_decide; [by rewrite decide_True | by rewrite decide_False].
Qed.

(** One event: the session stays well formed; unless the event is the R
    key, the maze and the [rand] position are kept and the player stays or
    goes through a passage; the R key advances [rand] by [W*H - 1]. *)
Lemma on_event_walk e st :
  session_ok st →
  ∃ st', on_event rand e st = Some st' ∧ session_ok st' ∧
    Z.of_nat (s_calls st') =
      Z.of_nat (s_calls st) + (MAZE_W * MAZE_H - 1) * Z.of_nat (regenerations [e]) ∧
    (e ≠ SDL_KEYDOWN SDLK_r →
       s_grid st' = s_grid st ∧
       rtc (passage (s_grid st)) (mkP (s_px st) (s_py st)) (mkP (s_px st') (s_py st'))).
Proof using rand_nonneg.
  intros Hok. pose proof Hok as (Hwf & Hin & Hwon & Htitle).
  destruct (on_event_ok rand rand_nonneg e st Hok) as (st' & He & Hok').
  exists st'. split; [done|]. split; [done|].
  rewrite regenerations_one.
  destruct e as [|k|]; cbn [on_event] in He.
  - injection He as <-. rewrite decide_False by done.
    change (Z.of_nat 0) with 0. rewrite Z.mul_0_r, Z.add_0_r.
    split; [done|]. intros _. split; [done|]. apply rtc_refl.
  - destruct (decide (k = SDLK_r)) as [->|Hk].
    + rewrite decide_True by done.
      change (Z.of_nat 1) with 1. rewrite Z.mul_1_r. split; [|done]. rewrite on_keydown_r in He.
      destruct (maze_init_spec (s_grid st) Hwf) as (g0 & Hinit & Hg0).
      destruct (generated_calls rand gen_fuel (s_calls st) g0 (mkP 0 0) rand_nonneg
                  Hg0 origin_inb (le_n _)) as (g' & calls' & Hgen & Hc).
      cbn [P_x P_y] in Hgen. unfold regenerate in He.
      rewrite Hinit in He. cbn [mbind option_bind] in He.
      rewrite Hgen in He. cbn [mbind option_bind fst snd] in He.
      injection He as <-. cbn [set_won s_calls]. lia.
    + rewrite decide_False by congruence.
      change (Z.of_nat 0) with 0. rewrite Z.mul_0_r, Z.add_0_r.
      rewrite (on_keydown_not_r rand k st Hk) in He. cbv zeta in He.
      set (st0 := if decide (k = SDLK_ESCAPE) then set_running false st else st) in He.
      assert (H0 : s_grid st0 = s_grid st ∧ s_px st0 = s_px st ∧
                   s_py st0 = s_py st ∧ s_calls st0 = s_calls st)
        by (unfold st0; by case_decide).
      destruct H0 as (Hg0 & Hx0 & Hy0 & Hc0). clearbody st0.
      destruct (s_won st).
      { injection He as <-. rewrite Hg0, Hx0, Hy0, Hc0.
        split; [done|]. intros _. split; [done | apply rtc_refl]. }
      destruct (key_dir k) as [d|].
      * destruct (move_player_step d st0) as (b & Hm & Hb & Hstep);
          [by rewrite Hg0 | by rewrite Hx0, Hy0 |].
        rewrite Hm in He. cbn [mbind option_bind] in He. injection He as <-.
        destruct (win_check_fields (set_player (P_x b) (P_y b) st0))
          as (-> & -> & -> & ->).
        cbn [set_player s_grid s_px s_py s_calls]. rewrite Hg0, Hc0 in *.
        rewrite Hx0, Hy0 in Hstep.
        split; [done|]. intros _. split; [done|].
        destruct b as [bx by']. cbn [P_x P_y].
        destruct Hstep as [->|Hp]; [apply rtc_refl | by apply rtc_once].
      * injection He as <-. destruct (win_check_fields st0) as (-> & -> & -> & ->).
        rewrite Hg0, Hx0, Hy0, Hc0.
        split; [done|]. intros _. split; [done | apply rtc_refl].
  - injection He as <-. rewrite decide_False by done.
    change (Z.of_nat 0) with 0. rewrite Z.mul_0_r, Z.add_0_r.
    split; [done|]. intros _. split; [done|]. apply rtc_refl.
Qed.

Lemma regenerations_cons e es :
  regenerations (e :: es) = (regenerations [e] + regenerations es)%nat.
Proof. unfold regenerations. by rewrite <- count_app. Qed.

Lemma run_events_calls es : ∀ st,
  session_ok st →
  ∃ st', run_events rand es st = Some st' ∧
    Z.of_nat (s_calls st') =
      Z.of_nat (s_calls st) + (MAZE_W * MAZE_H - 1) * Z.of_nat (regenerations es).
Proof using rand_nonneg.
  induction es as [|e es IH]; intros st Hok.
  - exists st. split; [done|]. cbn. lia.
  - destruct (on_event_walk e st Hok) as (st1 & He & Hok1 & Hc1 & _).
    destruct (IH st1 Hok1) as (st' & Hr & Hc').
    exists st'. cbn [run_events]. rewrite He. cbn [mbind option_bind].
    split; [done|]. rewrite regenerations_cons. lia.
Qed.

Lemma run_events_walk es : ∀ st,
  session_ok st → SDL_KEYDOWN SDLK_r ∉ es →
  ∃ st', run_events rand es st = Some st' ∧ s_grid st' = s_grid st ∧
    rtc (passage (s_grid st)) (mkP (s_px st) (s_py st)) (mkP (s_px st') (s_py st')).
Proof using rand_nonneg.
  induction es as [|e es IH]; intros st Hok Hnr.
  - exists st. split_and!; [done | done | apply rtc_refl].
  - apply not_elem_of_cons in Hnr as [He Hnr].
    destruct (on_event_walk e st Hok) as (st1 & He1 & Hok1 & _ & Hw1).
    destruct (Hw1 (not_eq_sym He)) as [Hg1 Hp1].
    destruct (IH st1 Hok1 Hnr) as (st' & Hr & Hg' & Hp').
    exists st'. cbn [run_events]. rewrite He1. cbn [mbind option_bind].
    rewrite Hg1 in Hg', Hp'. split_and!; [done | done |].
    by etrans.
Qed.
End SessionWalk.

(** X18. The player never walks through a wall: over any sequence of
    events without the R key the maze is unchanged and the final player
    cell is linked to the initial one by a chain of passages. *)
Theorem moves_follow_passages (rand : nat → Z) (st : Session) (es : list Event) :
  (∀ i, 0 ≤ rand i) → session_ok st → SDL_KEYDOWN SDLK_r ∉ es →
  ∃ st',
    run_events rand es st = Some st' ∧ s_grid st' = s_grid st ∧
    rtc (passage (s_grid st)) (mkP (s_px st) (s_py st)) (mkP (s_px st') (s_py st')).
Proof. intros Hrand Hok Hnr. by apply run_events_walk. Qed.

Lemma moves_follow_passages_witness :
  ∃ st',
    run_events (λ _, 0) [SDL_KEYDOWN SDLK_s; SDL_KEYDOWN SDLK_d; SDL_KEYDOWN SDLK_UP]
      (mkSession static_grid 3 3 true false title_playing 0) = Some st' ∧
    s_grid st' = static_grid ∧
    rtc (passage static_grid) (mkP 3 3) (mkP (s_px st') (s_py st')).
Proof.
  apply (moves_follow_passages (λ _, 0)
           (mkSession static_grid 3 3 true false title_playing 0)).
  - intros i. lia.
  - unfold session_ok. cbn [s_grid s_px s_py s_won s_title].
    split_and!; [reflexivity | reflexivity | | reflexivity].
    split; [discriminate | intros [H _]; discriminate H].
  - intros H. repeat (apply elem_of_cons in H as [H|H]; [discriminate H|]).
    by apply not_elem_of_nil in H.
Defined.

(** X19. The [rand] stream is consumed by regeneration only: over any
    sequence of events the number of calls made grows by [W*H - 1] per
    press of the R key, and by nothing else (no reseeding, no other
    use). *)
Theorem rand_advances_by_regeneration (rand : nat → Z) (g : Grid) (es : list Event) :
  (∀ i, 0 ≤ rand i) → wf_grid g = true →
  ∃ st0 st,
    main_start rand g 0 = Some st0 ∧ run_events rand es st0 = Some st ∧
    Z.of_nat (s_calls st) =
      (MAZE_W * MAZE_H - 1) * (1 + Z.of_nat (regenerations es)).
Proof.
  intros Hrand Hwf.
  destruct (main_start_ok rand Hrand g 0%nat Hwf) as (st0 & Hst0 & Hok0 & _).
  destruct (run_events_calls rand Hrand es st0 Hok0) as (st & Hrun & Hc).
  exists st0, st. split_and!; try done.
  assert (Hc0 : Z.of_nat (s_calls st0) = MAZE_W * MAZE_H - 1).
  { destruct (maze_init_spec g Hwf) as (g0 & Hinit & Hg0).
    destruct (generated_calls rand gen_fuel 0%nat g0 (mkP 0 0) Hrand Hg0 origin_inb
                (le_n _)) as (g' & calls' & Hgen & Hc').
    cbn [P_x P_y] in Hgen. unfold main_start, regenerate in Hst0.
    cbn [s_grid s_calls] in Hst0. rewrite Hinit in Hst0.
    cbn [mbind option_bind] in Hst0. rewrite Hgen in Hst0.
    cbn [mbind option_bind fst snd] in Hst0. injection Hst0 as <-.
    cbn [set_won set_running s_calls]. lia. }
  lia.
Qed.

Lemma rand_advances_by_regeneration_witness :
  ∃ st0 st,
    main_start (λ _, 1) static_grid 0 = Some st0 ∧
    run_events (λ _, 1)
      [SDL_KEYDOWN SDLK_r; SDL_KEYDOWN SDLK_d; SDL_KEYDOWN SDLK_r] st0 = Some st ∧
    Z.of_nat (s_calls st) =
      (MAZE_W * MAZE_H - 1) *
      (1 + Z.of_nat (regenerations
                       [SDL_KEYDOWN SDLK_r; SDL_KEYDOWN SDLK_d; SDL_KEYDOWN SDLK_r])).
Proof.
  apply (rand_advances_by_regeneration (λ _, 1) static_grid).
  - intros i. lia.
  - reflexivity.
Defined.

(** ** Concrete runs of the rendering and of [main] *)

Example draw_player_goal_origin :
  draw_player_goal 0 0 =
  [SDL_SetRenderDrawColor 40 160 70 255; SDL_RenderFillRect 662 470 20 20;
   SDL_SetRenderDrawColor 220 60 70 255; SDL_RenderFillRect 24 24 16 16].
Proof. reflexivity. Qed.

Example draw_cell_corner :
  (g0 ← maze_init static_grid; g1 ← knock_down g0 0 0 1 0; draw_cell g1 0 0) =
  Some [SDL_RenderDrawLine 16 16 48 16; SDL_RenderDrawLine 16 48 48 48;
        SDL_RenderDrawLine 16 16 16 48].
Proof. vm_compute. reflexivity. Qed.

(** The zero-initialised array has no wall to draw. *)
Example draw_maze_static : draw_maze static_grid = Some background.
Proof. vm_compute. reflexivity. Qed.

Example main_without_renderer :
  main (λ _, 0) true true false static_grid [[SDL_QUIT]] =
  Exit 1 [srand_time; SDL_Init; SDL_CreateWindow title_playing 704 512;
          SDL_CreateRenderer;
          fprintf_stderr ("SDL_CreateRenderer failed: %s" +:+ LF);
          SDL_DestroyWindow; SDL_Quit].
Proof. reflexivity. Qed.

Example main_quit_at_once :
  match main (λ _, 0) true true true static_grid [[SDL_QUIT]; [SDL_KEYDOWN SDLK_r]] with
  | Exit code tr => code = 0 ∧ length tr = 647%nat ∧ last tr = Some SDL_Quit
  | _ => False
  end.
Proof. vm_compute. repeat split; reflexivity. Qed.

(** A move that follows Esc in the same batch is still made: the last
    frame draws the player on cell (1,0). *)
Example main_move_after_quit :
  match main (λ _, 0) true true true static_grid
          [[SDL_KEYDOWN SDLK_ESCAPE; SDL_KEYDOWN SDLK_d]; [SDL_KEYDOWN SDLK_d]] with
  | Exit code tr =>
    code = 0 ∧ occurrences SDL_RenderPresent tr = 1%nat ∧
    tr !! (length tr - 5)%nat = Some (SDL_RenderFillRect 56 24 16 16)
  | _ => False
  end.
Proof. vm_compute. repeat split; reflexivity. Qed.

(** The format strings end in a line feed: 20 bytes for the first one. *)
Example main_without_sdl :
  ∃ fmt,
    main (λ _, 0) false true true static_grid [] =
      Exit 1 [srand_time; SDL_Init; fprintf_stderr fmt] ∧
    String.length fmt = 20%nat ∧
    String.get 19 fmt = Some (Ascii.ascii_of_nat 10).
Proof. eexists. split; [reflexivity|]. split; reflexivity. Qed.
